(** * accounting_app: the CSV transaction parser, the category classifier,
    the recurring-charge detector and the insight generator

    A shallow embedding of [client/src/lib/utils/csv-parser.ts] (which holds
    the CSV parser, the categorizer and the insight generator) and of the
    accounts and transactions of [server/storage.ts], together with the
    parts of the JavaScript platform these functions call.

    Conventions of the embedding.
    - A JavaScript string is a [string] of ASCII code units; case mapping
      and white space are those of ASCII.
    - A JavaScript [number] is idealised as an exact rational ([Q]); [NaN]
      is the [None] of an [option] where a function can produce it, and
      infinities are outside the idealisation.  Equality of numbers is
      [Qeq], written [==].
    - A [Date] is its time value, the milliseconds since the epoch ([Z]).
    - [Record<string, V>] objects are own-property lists in insertion
      order, read through [Object.prototype] as JavaScript reads them.
    - A [Map] is the list of its entries in insertion order.
    - [throw] is the left summand of a [sum]. *)

From Stdlib Require Import NArith ZArith QArith Qround Qabs List String Ascii Bool Lia Lqa.
From Stdlib Require Import Sorting.Sorted Permutation.
Import ListNotations.

Local Open Scope list_scope.
Local Open Scope string_scope.

(** ** Part I.  The platform: strings *)

Module JsString.

Definition dquote : ascii := Eval cbv in ascii_of_nat 34.
Definition LF : ascii := Eval cbv in ascii_of_nat 10.
Definition CR : ascii := Eval cbv in ascii_of_nat 13.

Definition is_upper (c : ascii) : bool :=
  let n := nat_of_ascii c in (65 <=? n)%nat && (n <=? 90)%nat.

Definition is_lower (c : ascii) : bool :=
  let n := nat_of_ascii c in (97 <=? n)%nat && (n <=? 122)%nat.

Definition is_digit (c : ascii) : bool :=
  let n := nat_of_ascii c in (48 <=? n)%nat && (n <=? 57)%nat.

(** White space and line terminators of [String.prototype.trim]. *)
Definition is_space (c : ascii) : bool :=
  let n := nat_of_ascii c in ((9 <=? n)%nat && (n <=? 13)%nat) || (n =? 32)%nat.

Definition lower_char (c : ascii) : ascii :=
  if is_upper c then ascii_of_nat (nat_of_ascii c + 32) else c.

Definition upper_char (c : ascii) : ascii :=
  if is_lower c then ascii_of_nat (nat_of_ascii c - 32) else c.

Fixpoint map_chars (f : ascii -> ascii) (s : string) : string :=
  match s with
  | EmptyString => EmptyString
  | String c r => String (f c) (map_chars f r)
  end.

Definition toLowerCase : string -> string := map_chars lower_char.
Definition toUpperCase : string -> string := map_chars upper_char.

(** [s.includes(k)]. *)
Fixpoint includes (s k : string) : bool :=
  String.prefix k s ||
  match s with
  | EmptyString => false
  | String _ r => includes r k
  end.

Fixpoint trimStart (s : string) : string :=
  match s with
  | EmptyString => EmptyString
  | String c r => if is_space c then trimStart r else s
  end.

Fixpoint trimEnd (s : string) : string :=
  match s with
  | EmptyString => EmptyString
  | String c r =>
      match trimEnd r with
      | EmptyString => if is_space c then EmptyString else String c EmptyString
      | t => String c t
      end
  end.

Definition trim (s : string) : string := trimEnd (trimStart s).

(** [s.split(sep)] for a separator that is one code unit of a class [p]:
    the result is never empty. *)
Fixpoint split_by (p : ascii -> bool) (s : string) : list string :=
  match s with
  | EmptyString => [EmptyString]
  | String c r =>
      match split_by p r with
      | [] => [EmptyString]
      | w :: ws => if p c then EmptyString :: w :: ws else String c w :: ws
      end
  end.

Definition split_char (sep : ascii) : string -> list string :=
  split_by (Ascii.eqb sep).

(** [s.split(/\r?\n/)]: a line feed ends a line, and a carriage return
    right before it belongs to the separator. *)
Fixpoint split_lines (s : string) : list string :=
  match s with
  | EmptyString => [EmptyString]
  | String c r =>
      match split_lines r with
      | [] => [EmptyString]
      | w :: ws =>
          if Ascii.eqb c LF then EmptyString :: w :: ws
          else if Ascii.eqb c CR && String.prefix (String LF EmptyString) r
               then w :: ws
          else String c w :: ws
      end
  end.

(** [a.join(sep)]. *)
Fixpoint join (sep : string) (l : list string) : string :=
  match l with
  | [] => EmptyString
  | [x] => x
  | x :: r => x ++ sep ++ join sep r
  end.

(** The escaping of [transactionsToCSV]: every double quote is doubled
    (the global regex replace of the source). *)
Fixpoint double_quotes (s : string) : string :=
  match s with
  | EmptyString => EmptyString
  | String c r =>
      if Ascii.eqb c dquote then String dquote (String dquote (double_quotes r))
      else String c (double_quotes r)
  end.

(** [s.charAt(0).toUpperCase() + s.slice(1)]. *)
Definition capitalize (s : string) : string :=
  match s with
  | EmptyString => EmptyString
  | String c r => String (upper_char c) r
  end.

End JsString.

(** ** The platform: numbers *)

Module JsNumber.
Import JsString.

(** Decimal digits, least significant first; [fuel] bounds their number. *)
Fixpoint digits_le (fuel : nat) (n : N) : list N :=
  match fuel with
  | O => []
  | S f => if (n <? 10)%N then [n] else (n mod 10)%N :: digits_le f (n / 10)%N
  end.

Definition digit_char (d : N) : ascii := ascii_of_N (48 + d).
Definition digit_value (c : ascii) : N := (N_of_ascii c - 48)%N.

Fixpoint string_of_digits (l : list N) : string :=
  match l with
  | [] => EmptyString
  | d :: r => String (digit_char d) (string_of_digits r)
  end.

(** The decimal numeral of a natural number, as [String(n)] writes it. *)
Definition string_of_N (n : N) : string :=
  string_of_digits (rev (digits_le (S (N.size_nat n)) n)).

(** [String(z)] for an integer-valued number. *)
Definition string_of_Z (z : Z) : string :=
  match z with
  | Zneg p => String "-" (string_of_N (Npos p))
  | _ => string_of_N (Z.to_N z)
  end.

Definition string_of_nat (n : nat) : string := string_of_N (N.of_nat n).

(** Two decimal digits, zero padded. *)
Definition pad2 (n : N) : string :=
  String (digit_char ((n / 10) mod 10)) (String (digit_char (n mod 10)) EmptyString).

Local Open Scope Q_scope.

(** Comparisons of numbers, as booleans. *)
Definition ltb (x y : Q) : bool := negb (Qle_bool y x).
Definition leb (x y : Q) : bool := Qle_bool x y.
Definition gtb (x y : Q) : bool := ltb y x.
Definition geb (x y : Q) : bool := leb y x.

(** [Math.round]: the nearest integer, a tie going up. *)
Definition Math_round (x : Q) : Z := Qfloor (x + (1 # 2)).

Definition Math_abs (x : Q) : Q := Qabs x.

(** [10 ** e] for an integer [e]. *)
Definition pow10 (e : Z) : Q :=
  match e with
  | Z0 => 1
  | Zpos p => inject_Z (Z.pow_pos 10 p)
  | Zneg p => 1 # (Pos.pow 10 p)
  end.

(** The longest prefix of decimal digits, and the rest. *)
Fixpoint span_digits (s : string) : string * string :=
  match s with
  | EmptyString => (EmptyString, EmptyString)
  | String c r =>
      if is_digit c
      then let (d, rest) := span_digits r in (String c d, rest)
      else (EmptyString, s)
  end.

Fixpoint digits_value (acc : N) (s : string) : N :=
  match s with
  | EmptyString => acc
  | String c r => digits_value (acc * 10 + digit_value c)%N r
  end.

(** An optional sign: whether it is a minus, and the rest. *)
Definition read_sign (s : string) : bool * string :=
  match s with
  | String c r =>
      if Ascii.eqb c "-" then (true, r)
      else if Ascii.eqb c "+" then (false, r)
      else (false, s)
  | EmptyString => (false, s)
  end.

(** The exponent part, read only when it is complete. *)
Definition read_exponent (s : string) : Z :=
  match s with
  | String c r =>
      if Ascii.eqb c "e" || Ascii.eqb c "E" then
        let (neg, r1) := read_sign r in
        let (ds, _) := span_digits r1 in
        match ds with
        | EmptyString => 0%Z
        | _ => let v := Z.of_N (digits_value 0 ds) in if neg then (- v)%Z else v
        end
      else 0%Z
  | EmptyString => 0%Z
  end.

(** [parseFloat]: leading white space is skipped and the longest prefix
    that is a decimal literal is read; [None] is [NaN].  The literal
    [Infinity] has no rational value and is read as [None]. *)
Definition parseFloat (input : string) : option Q :=
  let s := trimStart input in
  let (neg, s1) := read_sign s in
  let (ip, s2) := span_digits s1 in
  let (fp, s3) :=
    match s2 with
    | String c r => if Ascii.eqb c "." then span_digits r else (EmptyString, s2)
    | EmptyString => (EmptyString, s2)
    end in
  match (ip ++ fp)%string with
  | EmptyString => None
  | ds =>
      let m := Z.of_N (digits_value 0 ds) in
      let e := (read_exponent s3 - Z.of_nat (String.length fp))%Z in
      Some (inject_Z (if neg then (- m)%Z else m) * pow10 e)
  end.

(** [x.toFixed(2)]: the integer [n] with [n / 100] nearest to [|x|] (the
    larger one on a tie), written with two fraction digits after the sign. *)
Definition toFixed2 (x : Q) : string :=
  let n := Z.to_N (Qfloor (Qabs x * 100 + (1 # 2))) in
  let body := (string_of_N (n / 100) ++ String "." (pad2 (n mod 100)))%string in
  if ltb x 0 then String "-" body else body.

End JsNumber.

(** ** The platform: dates *)

Module JsDate.
Import JsString JsNumber.
Local Open Scope Z_scope.

Definition msPerDay : Z := 86400000.

(** [Day(t)]: the day number of a time value. *)
Definition Day (t : Z) : Z := t / msPerDay.

(** Year, month (1 to 12) and day of month of a day number in the
    proleptic Gregorian calendar ([YearFromTime], [MonthFromTime] and
    [DateFromTime] of the language specification), by 400-year eras that
    start on a 1st of March. *)
Definition civil_from_days (z0 : Z) : Z * Z * Z :=
  let z := z0 + 719468 in
  let era := z / 146097 in
  let doe := z - era * 146097 in
  let yoe := (doe - doe / 1460 + doe / 36524 - doe / 146096) / 365 in
  let doy := doe - (365 * yoe + yoe / 4 - yoe / 100) in
  let mp := (5 * doy + 2) / 153 in
  let d := doy - (153 * mp + 2) / 5 + 1 in
  let m := if mp <? 10 then mp + 3 else mp - 9 in
  let y := yoe + era * 400 in
  ((if m <=? 2 then y + 1 else y), m, d).

(** [MakeDay]: the day number of a calendar date. *)
Definition days_from_civil (y0 m d : Z) : Z :=
  let y := if m <=? 2 then y0 - 1 else y0 in
  let era := y / 400 in
  let yoe := y - era * 400 in
  let mp := if 2 <? m then m - 3 else m + 9 in
  let doy := (153 * mp + 2) / 5 + d - 1 in
  let doe := yoe * 365 + yoe / 4 - yoe / 100 + doy in
  era * 146097 + doe - 719468.

(** [Date.UTC(y, m - 1, d)]: UTC midnight of a calendar date. *)
Definition utc_midnight (y m d : Z) : Z := days_from_civil y m d * msPerDay.

Definition is_leap (y : Z) : bool :=
  ((y mod 4 =? 0) && negb (y mod 100 =? 0)) || (y mod 400 =? 0).

Definition days_in_month (y m : Z) : Z :=
  if m =? 2 then (if is_leap y then 29 else 28)
  else if (m =? 4) || (m =? 6) || (m =? 9) || (m =? 11) then 30
  else 31.

Definition pad4 (n : N) : string :=
  (pad2 (n / 100) ++ pad2 (n mod 100))%string.

(** The year of the ISO format: four digits from 0 to 9999, and a sign
    with six digits outside. *)
Definition iso_year (y : Z) : string :=
  if (0 <=? y) && (y <=? 9999) then pad4 (Z.to_N y)
  else String (if y <? 0 then "-"%char else "+"%char)
         (pad2 (Z.to_N (Z.abs y) / 10000) ++ pad4 (Z.to_N (Z.abs y) mod 10000))%string.

(** [d.toISOString().split('T')[0]]: the UTC calendar date. *)
Definition toISODate (t : Z) : string :=
  let '(y, m, d) := civil_from_days (Day t) in
  (iso_year y ++ String "-" (pad2 (Z.to_N m)) ++ String "-" (pad2 (Z.to_N d)))%string.

Definition all_digits (s : string) : bool :=
  match span_digits s with
  | (_, EmptyString) => true
  | _ => false
  end.

(** The largest time value of a [Date], 100 million days. *)
Definition maxTime : Z := 8640000000000000.

(** UTC midnight of the date with the year [y] and the month and day
    that [ms] and [ds] write, if this is a date that exists and that a
    [Date] can hold. *)
Definition calendar_date (y : Z) (ms ds : string) : option Z :=
  if all_digits ms && all_digits ds then
    let m := Z.of_N (digits_value 0 ms) in
    let d := Z.of_N (digits_value 0 ds) in
    let t := days_from_civil y m d * msPerDay in
    if (1 <=? m) && (m <=? 12) && (1 <=? d) && (d <=? days_in_month y m)
       && (Z.abs t <=? maxTime)
    then Some t
    else None
  else None.

(** The date-only forms of the Date Time String Format: [YYYY-MM-DD]
    and, with an expanded year, a sign and [YYYYYY-MM-DD], where the year
    0 takes no minus sign. *)
Definition parse_iso_date (s : string) : option Z :=
  if (String.length s =? 10)%nat then
    let ys := substring 0 4 s in
    if all_digits ys
       && (substring 4 1 s =? "-")%string && (substring 7 1 s =? "-")%string
    then calendar_date (Z.of_N (digits_value 0 ys)) (substring 5 2 s) (substring 8 2 s)
    else None
  else if (String.length s =? 13)%nat then
    let sign := substring 0 1 s in
    let ys := substring 1 6 s in
    let y := Z.of_N (digits_value 0 ys) in
    if all_digits ys
       && ((sign =? "+")%string || ((sign =? "-")%string && negb (y =? 0)))
       && (substring 7 1 s =? "-")%string && (substring 10 1 s =? "-")%string
    then calendar_date (if (sign =? "-")%string then - y else y)
           (substring 8 2 s) (substring 11 2 s)
    else None
  else None.

(** [Date.parse]: the Date Time String Format first; a string that is not
    of that format is left to the implementation's own heuristics
    ([legacy]).  Only the date-only forms are spelled out here, the forms
    with a time are read by [legacy] as well.  [None] is an invalid date. *)
Definition Date_parse (legacy : string -> option Z) (s : string) : option Z :=
  match parse_iso_date s with
  | Some t => Some t
  | None => legacy s
  end.

(** [getFullYear] and [getMonth] (0 to 11) read the local time, which is
    [LocalTZA t] milliseconds ahead of UTC. *)
Definition getFullYear (LocalTZA : Z -> Z) (t : Z) : Z :=
  let '(y, _, _) := civil_from_days (Day (t + LocalTZA t)) in y.

Definition getMonth (LocalTZA : Z -> Z) (t : Z) : Z :=
  let '(_, m, _) := civil_from_days (Day (t + LocalTZA t)) in m - 1.

End JsDate.

(** ** The platform: objects used as maps, and arrays *)

Module JsObject.
Import JsString JsNumber.

(** The own properties of an object, in insertion order. *)
Definition record (V : Type) : Type := list (string * V).

(** The members every object inherits from [Object.prototype]: reading
    such a key from an object that has no own property of that name gives
    a function (or the prototype itself), never [undefined]. *)
Definition object_prototype_members : list string :=
  [ "constructor"; "__proto__"; "hasOwnProperty"; "isPrototypeOf";
    "propertyIsEnumerable"; "toLocaleString"; "toString"; "valueOf";
    "__defineGetter__"; "__defineSetter__"; "__lookupGetter__";
    "__lookupSetter__" ].

Definition inherited (k : string) : bool :=
  existsb (String.eqb k) object_prototype_members.

Fixpoint own_get {V} (k : string) (o : record V) : option V :=
  match o with
  | [] => None
  | (k', v) :: r => if String.eqb k k' then Some v else own_get k r
  end.

(** [o[k] = v]: an own property keeps its place, a new one goes last. *)
Fixpoint own_set {V} (k : string) (v : V) (o : record V) : record V :=
  match o with
  | [] => [(k, v)]
  | (k', v') :: r =>
      if String.eqb k k' then (k, v) :: r else (k', v') :: own_set k v r
  end.

(** An array index: the canonical numeral of an integer below [2^32 - 1]. *)
Definition array_index (k : string) : option N :=
  let n := digits_value 0 k in
  if String.eqb (string_of_N n) k && (n <? 4294967295)%N then Some n else None.

Fixpoint insert_index {V} (e : N * (string * V)) (l : list (N * (string * V)))
  : list (N * (string * V)) :=
  match l with
  | [] => [e]
  | e' :: r => if (fst e <=? fst e')%N then e :: l else e' :: insert_index e r
  end.

(** The order of [Object.keys] and [Object.entries]: array indices in
    ascending numeric order, then the other keys in insertion order. *)
Definition entries {V} (o : record V) : list (string * V) :=
  let indexed :=
    flat_map (fun e => match array_index (fst e) with
                       | Some n => [(n, e)]
                       | None => []
                       end) o in
  let named :=
    filter (fun e => match array_index (fst e) with
                     | Some _ => false
                     | None => true
                     end) o in
  (map snd (fold_right insert_index [] indexed) ++ named)%list.

Definition keys {V} (o : record V) : list string := map fst (entries o).

End JsObject.

Module JsArray.

Fixpoint insert_sorted {A} (le : A -> A -> bool) (x : A) (l : list A) : list A :=
  match l with
  | [] => [x]
  | y :: r => if le x y then x :: l else y :: insert_sorted le x r
  end.

(** [a.sort(cmp)], a stable sort; [le x y] says that [cmp(x, y) <= 0]. *)
Definition sort {A} (le : A -> A -> bool) (l : list A) : list A :=
  fold_right (insert_sorted le) [] l.

(** [a.includes(x)] for strings. *)
Definition array_includes (l : list string) (x : string) : bool :=
  existsb (String.eqb x) l.

(** A [Set] of strings in insertion order, and [set.add(x)]. *)
Definition Set_add (x : string) (s : list string) : list string :=
  if array_includes s x then s else (s ++ [x])%list.

End JsArray.

(** ** Part II.  The data model (the types imported from @shared/schema) *)

Record Transaction : Type := mkTransaction {
  accountId : Z;
  date : Z;
  description : string;
  amount : Q;
  category : string;
  merchant : string
}.

Record Account : Type := mkAccount {
  name : string;
  type : string;
  institution : string;
  balance : Q
}.

Inductive InsightType : Type :=
  | SUBSCRIPTION_OVERLAP
  | HIGH_YIELD_SAVINGS
  | SPENDING_ALERT.

Record InsertInsight : Type := mkInsight {
  title : string;
  insightDescription : string;
  savingsAmount : Q;
  insightType : InsightType;
  actionLink : string
}.

Record ParsedCsvResult : Type := mkResult {
  transactions : list Transaction;
  errors : list string
}.

Inductive CsvFormat : Type := standard | bank.

(** ** Part III.  The category classifier (csv-parser.ts, second module) *)

Module Categorize.
Import JsString JsNumber.

Record CategoryRule : Type := mkRule {
  keywords : list string;
  ruleCategory : string
}.

Definition categoryRules : list CategoryRule :=
  [ mkRule ["rent"; "mortgage"; "apartment"; "home"; "property"; "loan"; "house"]
      "Housing";
    mkRule ["market"; "grocery"; "supermarket"; "food"; "restaurant"; "dining";
            "cafe"; "coffee"; "breakfast"; "lunch"; "dinner"; "meal"; "doordash";
            "uber eats"; "grubhub"; "pizza"; "takeout"]
      "Food";
    mkRule ["gas"; "fuel"; "uber"; "lyft"; "taxi"; "car"; "auto"; "vehicle";
            "maintenance"; "repair"; "oil"; "tire"; "parking"; "transport";
            "transit"; "bus"; "train"; "subway"; "metro"]
      "Transportation";
    mkRule ["amazon"; "walmart"; "target"; "costco"; "shop"; "store"; "retail";
            "mall"; "outlet"; "purchase"; "buy"; "clothes"; "clothing"; "apparel";
            "shoes"; "accessory"; "electronics"; "appliance"; "hardware"]
      "Shopping";
    mkRule ["electric"; "electricity"; "gas"; "water"; "sewer"; "trash";
            "internet"; "cable"; "phone"; "mobile"; "cellular"; "utility"; "bill";
            "service"]
      "Utilities";
    mkRule ["doctor"; "hospital"; "medical"; "health"; "healthcare"; "dental";
            "vision"; "pharmacy"; "prescription"; "medicine"; "clinic";
            "emergency"; "insurance"; "fitness"; "gym"; "wellness"]
      "Healthcare";
    mkRule ["movie"; "theatre"; "theater"; "cinema"; "concert"; "show";
            "entertainment"; "music"; "spotify"; "netflix"; "hulu"; "disney";
            "streaming"; "subscription"; "game"; "hobby"; "fun"; "leisure"]
      "Entertainment";
    mkRule ["school"; "college"; "university"; "tuition"; "education"; "course";
            "class"; "degree"; "student"; "book"; "textbook"; "study"; "learning";
            "training"; "workshop"]
      "Education";
    mkRule ["hotel"; "motel"; "lodging"; "airbnb"; "vacation"; "holiday"; "trip";
            "travel"; "flight"; "airline"; "airplane"; "booking"; "reservation";
            "ticket"; "tour"; "cruise"; "resort"]
      "Travel";
    mkRule ["salary"; "payroll"; "deposit"; "income"; "revenue"; "wage"; "payment";
            "compensation"; "bonus"; "commission"; "dividend"; "interest";
            "refund"; "return"; "reimbursement"]
      "Income" ].

(** [rule.keywords.some(keyword => searchText.includes(keyword.toLowerCase()))] *)
Definition rule_matches (searchText : string) (rule : CategoryRule) : bool :=
  existsb (fun keyword => includes searchText (toLowerCase keyword)) (keywords rule).

(** The loop over the rules, which returns at the first rule that
    matches, and the default after it. *)
Fixpoint match_rules (rules : list CategoryRule) (searchText : string) : string :=
  match rules with
  | [] => "Other"
  | rule :: rest =>
      if rule_matches searchText rule then ruleCategory rule
      else match_rules rest searchText
  end.

Definition searchText_of (transaction : Transaction) : string :=
  toLowerCase (description transaction ++ " " ++ merchant transaction).

Definition categorizeTransaction (transaction : Transaction) : string :=
  let searchText := searchText_of transaction in
  if gtb (amount transaction) 0 then "Income"
  else match_rules categoryRules searchText.

(** [categorizeBatch]: a transaction that has no category, or the
    category "Other", is copied with the category that
    [categorizeTransaction] gives it; any other is kept as it is. *)
Definition categorizeBatch (transactions : list Transaction) : list Transaction :=
  map (fun transaction =>
         if match category transaction with
            | EmptyString => true
            | _ => false
            end
            || String.eqb (category transaction) "Other"
         then mkTransaction (accountId transaction) (date transaction)
                (description transaction) (amount transaction)
                (categorizeTransaction transaction) (merchant transaction)
         else transaction)
      transactions.

Definition suggestCategory (description : string) : string :=
  let searchText := toLowerCase description in
  match_rules categoryRules searchText.

End Categorize.

(** ** Part IV.  The CSV parser (csv-parser.ts, first module) *)

Module CsvParser.
Import JsString JsNumber JsDate JsArray Categorize.

Definition detectCsvFormat (headers : list string) : option CsvFormat :=
  if array_includes headers "date" && array_includes headers "description"
     && array_includes headers "amount"
  then Some standard
  else if array_includes headers "date" && array_includes headers "description"
          && (array_includes headers "debit" || array_includes headers "credit")
  then Some bank
  else None.

(** The character loop of [parseCsvValues], from the state it has
    reached: the values pushed so far, the current value and whether the
    position is inside quotes. *)
Fixpoint parseCsvValues_loop (line : string) (values : list string)
    (currentValue : string) (insideQuotes : bool) : list string :=
  match line with
  | EmptyString => (values ++ [trim currentValue])%list
  | String char rest =>
      if Ascii.eqb char dquote then
        parseCsvValues_loop rest values currentValue (negb insideQuotes)
      else if Ascii.eqb char "," && negb insideQuotes then
        parseCsvValues_loop rest (values ++ [trim currentValue])%list EmptyString insideQuotes
      else
        parseCsvValues_loop rest values (currentValue ++ String char EmptyString) insideQuotes
  end.

Definition parseCsvValues (line : string) : list string :=
  parseCsvValues_loop line [] EmptyString false.

Definition extractMerchant (description : string) : string :=
  let words := split_char " " description in
  if (List.length words =? 0)%nat then "Unknown"
  else if (List.length words <=? 3)%nat then description
  else join " " (firstn 2 words).

(** The [row] object: [row[header] = values[index]] for every header, so
    the last column of a name is the one a read finds.  [None] is
    [undefined]. *)
Fixpoint row_get (row : list (string * string)) (key : string) : option string :=
  match row with
  | [] => None
  | (h, v) :: rest =>
      match row_get rest key with
      | Some v' => Some v'
      | None => if String.eqb h key then Some v else None
      end
  end.

(** A string read in a condition: [undefined] and the empty string are
    falsy. *)
Definition truthy (v : option string) : option string :=
  match v with
  | Some EmptyString => None
  | _ => v
  end.

(** [v || d]. *)
Definition or_else (v : option string) (d : string) : string :=
  match truthy v with
  | Some s => s
  | None => d
  end.

Definition is_date_separator (c : ascii) : bool :=
  Ascii.eqb c "/" || Ascii.eqb c "-" || Ascii.eqb c ".".

Section Parser.

(** What [Date.parse] makes of a string that is not in the Date Time
    String Format is up to the implementation. *)
Variable legacy_date_parse : string -> option Z.

Definition new_Date (s : string) : option Z := Date_parse legacy_date_parse s.

(** The date block of [parseCsvLine]; [None] is the invalid date that
    makes it throw. *)
Definition parse_row_date (dateStr : string) : option Z :=
  match new_Date dateStr with
  | Some date => Some date
  | None =>
      match split_by is_date_separator dateStr with
      | [p0; p1; p2] =>
          match new_Date (p2 ++ "-" ++ p0 ++ "-" ++ p1) with
          | Some date => Some date
          | None => new_Date (p2 ++ "-" ++ p1 ++ "-" ++ p0)
          end
      | _ => None
      end
  end.

(** The amount block of [parseCsvLine]. *)
Definition parse_row_amount (row : list (string * string)) (format : CsvFormat)
  : string + Q :=
  match format with
  | standard =>
      match parseFloat (match row_get row "amount" with
                        | Some a => a
                        | None => "undefined"
                        end) with
      | Some amount => inr amount
      | None => inl ("Invalid amount: " ++ match row_get row "amount" with
                                           | Some a => a
                                           | None => "undefined"
                                           end)
      end
  | bank =>
      let debit := match truthy (row_get row "debit") with
                   | Some d => parseFloat d
                   | None => Some 0%Q
                   end in
      let credit := match truthy (row_get row "credit") with
                    | Some c => parseFloat c
                    | None => Some 0%Q
                    end in
      match debit, credit with
      | Some d, _ =>
          if gtb d 0 then inr (- d)%Q
          else match credit with
               | Some c => if gtb c 0 then inr c
                           else inl "Missing or invalid debit/credit values"
               | None => inl "Missing or invalid debit/credit values"
               end
      | None, Some c =>
          if gtb c 0 then inr c else inl "Missing or invalid debit/credit values"
      | None, None => inl "Missing or invalid debit/credit values"
      end
  end.

Definition parseCsvLine (line : string) (headers : list string)
    (format : CsvFormat) (accountId : Z) : string + Transaction :=
  let values := parseCsvValues line in
  if (List.length values <? List.length headers)%nat then
    inl ("Line has " ++ string_of_nat (List.length values)
         ++ " values but expected " ++ string_of_nat (List.length headers))
  else
    let row := combine headers values in
    match truthy (row_get row "date") with
    | None => inl "Missing date"
    | Some dateStr =>
        match parse_row_date dateStr with
        | None => inl ("Invalid date: " ++ dateStr)
        | Some date =>
            let description := or_else (row_get row "description") "Unknown" in
            match parse_row_amount row format with
            | inl message => inl message
            | inr amount =>
                let transaction :=
                  mkTransaction accountId date description amount
                    (or_else (row_get row "category") "Other")
                    (or_else (row_get row "merchant") (extractMerchant description)) in
                match truthy (option_map trim (truthy (row_get row "category"))) with
                | Some _ => inr transaction
                | None =>
                    inr (mkTransaction accountId date description amount
                           (categorizeTransaction transaction)
                           (merchant transaction))
                end
            end
        end
    end.

(** The loop over the lines after the header; [i] is the index of the
    first of [lines] in the file. *)
Fixpoint parse_lines (lines : list string) (i : nat) (headers : list string)
    (format : CsvFormat) (accountId : Z) (result : ParsedCsvResult)
  : ParsedCsvResult :=
  match lines with
  | [] => result
  | l :: rest =>
      let line := trim l in
      match line with
      | EmptyString => parse_lines rest (S i) headers format accountId result
      | _ =>
          match parseCsvLine line headers format accountId with
          | inr transaction =>
              parse_lines rest (S i) headers format accountId
                (mkResult (transactions result ++ [transaction])%list (errors result))
          | inl message =>
              parse_lines rest (S i) headers format accountId
                (mkResult (transactions result)
                   (errors result
                    ++ [("Error on line " ++ string_of_nat (i + 1) ++ ": " ++ message)%string])%list)
          end
      end
  end.

Definition unsupported_format_error : string :=
  "Unsupported CSV format. Expected columns: date, description, amount (or debit/credit)".

Definition parseTransactionCsv (csvData : string) (accountId : Z) : ParsedCsvResult :=
  let lines := split_lines csvData in
  let headers := map trim (split_char "," (toLowerCase (hd EmptyString lines))) in
  match detectCsvFormat headers with
  | None => mkResult [] [unsupported_format_error]
  | Some format => parse_lines (tl lines) 1 headers format accountId (mkResult [] [])
  end.

End Parser.

(** [transactionsToCSV], for transactions whose amount is a number. *)
Definition csv_row (tx : Transaction) : string :=
  toISODate (date tx) ++ ","
  ++ String dquote (double_quotes (description tx) ++ String dquote EmptyString) ++ ","
  ++ toFixed2 (amount tx) ++ ","
  ++ or_else (Some (category tx)) "Other" ++ ","
  ++ String dquote (double_quotes (or_else (Some (merchant tx)) EmptyString)
                    ++ String dquote EmptyString)
  ++ String LF EmptyString.

Definition transactionsToCSV (transactions : list Transaction) : string :=
  fold_left (fun csv tx => csv ++ csv_row tx) transactions
    ("Date,Description,Amount,Category,Merchant" ++ String LF EmptyString).

End CsvParser.


(** ** Part V.  The insight generator (csv-parser.ts, third module) *)

Module Insights.
Import JsString JsNumber JsDate JsObject JsArray.
Local Open Scope Q_scope.

(** *** Subscription overlap *)

Definition subscriptionKeywords : list string :=
  [ "netflix"; "hulu"; "disney+"; "hbo"; "spotify"; "apple music";
    "youtube"; "amazon prime"; "paramount"; "peacock" ].

Record SubscriptionTransaction : Type := mkSubscription {
  service : string;
  subscriptionAmount : Q
}.

(** The loop over the keywords, which breaks at the first one that the
    text includes. *)
Fixpoint first_keyword (keywords : list string) (text : string) : option string :=
  match keywords with
  | [] => None
  | keyword :: rest =>
      if includes text keyword then Some keyword else first_keyword rest text
  end.

(** One turn of the loop over the transactions, on the set of services
    and the array of subscription transactions. *)
Definition scan_subscription
    (state : list string * list SubscriptionTransaction) (transaction : Transaction)
  : list string * list SubscriptionTransaction :=
  let (streamingServices, subscriptionTransactions) := state in
  let text := toLowerCase (description transaction) ++ " "
              ++ toLowerCase (merchant transaction) in
  match first_keyword subscriptionKeywords text with
  | Some keyword =>
      (Set_add keyword streamingServices,
       (subscriptionTransactions
        ++ [mkSubscription keyword (Math_abs (amount transaction))])%list)
  | None => state
  end.

Definition findSubscriptionOverlaps (transactions : list Transaction)
  : list InsertInsight :=
  let (streamingServices, subscriptionTransactions) :=
    fold_left scan_subscription transactions ([], []) in
  if (3 <=? List.length streamingServices)%nat then
    let services := firstn 3 streamingServices in
    let totalAmount :=
      fold_left (fun sum sub => sum + subscriptionAmount sub) subscriptionTransactions 0 in
    let monthlySavings := Math_round (totalAmount * (4 # 10)) in
    [ mkInsight "Subscription Overlap Detected"
        ("You have multiple streaming subscriptions (" ++ join ", " services
         ++ "). Consider consolidating to save $" ++ string_of_Z monthlySavings
         ++ "/month.")
        (inject_Z monthlySavings)
        SUBSCRIPTION_OVERLAP
        "/insights/subscriptions" ]
  else [].

(** *** High-yield savings *)

Definition findHighYieldSavingsOpportunities (accounts : list Account)
  : list InsertInsight :=
  let savingsAccounts :=
    filter (fun account =>
              String.eqb (toLowerCase (type account)) "savings"
              && gtb (balance account) 1000) accounts in
  if (0 <? List.length savingsAccounts)%nat then
    let totalSavings :=
      fold_left (fun sum account => sum + balance account) savingsAccounts 0 in
    let currentEstimatedRate := 1 # 100 in
    let highYieldRate := 35 # 1000 in
    let currentYearlyInterest := totalSavings * currentEstimatedRate in
    let potentialYearlyInterest := totalSavings * highYieldRate in
    let additionalInterest :=
      Math_round (potentialYearlyInterest - currentYearlyInterest) in
    if (20 <? additionalInterest)%Z then
      [ mkInsight "High-Yield Savings Opportunity"
          ("Moving your savings to an online bank could earn you an extra $"
           ++ string_of_Z additionalInterest ++ "/year in interest.")
          (inject_Z additionalInterest)
          HIGH_YIELD_SAVINGS
          "/insights/savings" ]
    else []
  else [].

(** *** Spending increases *)

(** What a category slot of a month holds: a number, or the text that
    [+=] leaves when the category names an inherited member (the member
    is not falsy, so the slot is never set to 0, and a function plus a
    number is a string).  Such a text is [NaN] as a number. *)
Inductive slot : Type :=
  | VNum (q : Q)
  | VText.

(** [if (!data[category]) data[category] = 0; data[category] += x]. *)
Definition add_spending (data : record slot) (category : string) (x : Q)
  : record slot :=
  match own_get category data with
  | Some (VNum q) =>
      if Qeq_bool q 0 then own_set category (VNum (0 + x)) data
      else own_set category (VNum (q + x)) data
  | Some VText => own_set category VText data
  | None =>
      if inherited category then
        (* the setter of [__proto__] ignores a string *)
        if String.eqb category "__proto__" then data
        else own_set category VText data
      else own_set category (VNum (0 + x)) data
  end.

Section LocalTime.

(** The offset of the local time zone at a time value. *)
Variable LocalTZA : Z -> Z.

Definition monthYear_of (t : Z) : string :=
  string_of_Z (getFullYear LocalTZA t) ++ "-" ++ string_of_Z (getMonth LocalTZA t).

(** One turn of the bucketing loop.  A month key starts with a digit or
    a minus sign: it names no inherited member, so a month that has no
    bucket yet reads as [undefined]. *)
Definition add_transaction (spendingByMonthAndCategory : record (record slot))
    (transaction : Transaction) : record (record slot) :=
  let amount := amount transaction in
  if geb amount 0 then spendingByMonthAndCategory
  else
    let monthYear := monthYear_of (date transaction) in
    let category := category transaction in
    let data := match own_get monthYear spendingByMonthAndCategory with
                | Some data => data
                | None => []
                end in
    own_set monthYear (add_spending data category (Math_abs amount))
      spendingByMonthAndCategory.

(** [previousMonthData[category] || 0], when it is a number. *)
Definition previous_amount (previousMonthData : record slot) (category : string)
  : option Q :=
  match own_get category previousMonthData with
  | Some (VNum q) => Some q
  | Some VText => None
  | None => if inherited category then None else Some 0
  end.

Definition spending_alert (category : string) (increasePercent potentialSavings : Z)
  : InsertInsight :=
  mkInsight (category ++ " Spending Increased")
    ("Your " ++ toLowerCase category ++ " spending is up "
     ++ string_of_Z increasePercent
     ++ "% from last month. Setting a budget could save you $"
     ++ string_of_Z potentialSavings ++ "/month.")
    (inject_Z potentialSavings)
    SPENDING_ALERT
    "/budgets/new".

(** The body of the loop over the categories of the current month: the
    insights it pushes. *)
Definition compare_category (previousMonthData : record slot)
    (entry : string * slot) : list InsertInsight :=
  let (category, amount) := entry in
  match previous_amount previousMonthData category, amount with
  | Some previousAmount, VNum amount =>
      if gtb previousAmount 50 then
        let increasePercent :=
          Math_round ((amount - previousAmount) / previousAmount * 100) in
        let absoluteIncrease := Math_round (amount - previousAmount) in
        if (20 <=? increasePercent)%Z && (50 <=? absoluteIncrease)%Z then
          if negb (String.eqb category "Income") && negb (String.eqb category "Other")
          then
            let potentialSavings :=
              Math_round (inject_Z absoluteIncrease * (7 # 10)) in
            [spending_alert category increasePercent potentialSavings]
          else []
        else []
      else []
  | _, _ => []
  end.

(** The comparator of the final sort, [b.savingsAmount - a.savingsAmount]. *)
Definition by_savings_desc (a b : InsertInsight) : bool :=
  leb (savingsAmount b - savingsAmount a) 0.

Definition findSpendingIncreases (transactions : list Transaction)
  : list InsertInsight :=
  let spendingByMonthAndCategory := fold_left add_transaction transactions [] in
  let months := sort String.leb (keys spendingByMonthAndCategory) in
  if (List.length months <? 2)%nat then []
  else
    let currentMonth := nth (List.length months - 1) months EmptyString in
    let previousMonth := nth (List.length months - 2) months EmptyString in
    match own_get currentMonth spendingByMonthAndCategory,
          own_get previousMonth spendingByMonthAndCategory with
    | Some currentMonthData, Some previousMonthData =>
        let insights :=
          flat_map (compare_category previousMonthData) (entries currentMonthData) in
        firstn 3 (sort by_savings_desc insights)
    | _, _ => []
    end.

Definition generateInsights (transactions : list Transaction)
    (accounts : list Account) : list InsertInsight :=
  match transactions, accounts with
  | [], _ => []
  | _, [] => []
  | _, _ =>
      (findSubscriptionOverlaps transactions
       ++ findHighYieldSavingsOpportunities accounts
       ++ findSpendingIncreases transactions)%list
  end.

End LocalTime.

(** *** Recurring transactions *)

Record RecurringItem : Type := mkItem {
  dates : list Z;
  amounts : list Q;
  itemCategory : string
}.

Record Recurring : Type := mkRecurring {
  recurringMerchant : string;
  recurringCategory : string;
  averageAmount : Q;
  frequency : string
}.

Definition push_of_undefined : string :=
  "TypeError: Cannot read properties of undefined (reading 'push')".

(** One turn of the collecting loop.  A merchant that names an inherited
    member and has no item yet reads as that member, which is not falsy
    and has no [dates]: the push throws a [TypeError]. *)
Definition collect (recurringItems : record RecurringItem) (transaction : Transaction)
  : string + record RecurringItem :=
  if geb (amount transaction) 0 then inr recurringItems
  else
    let merchant := toLowerCase (merchant transaction) in
    let amount := Math_abs (amount transaction) in
    let date := date transaction in
    if ltb amount 5 then inr recurringItems
    else
      match own_get merchant recurringItems with
      | Some item =>
          inr (own_set merchant
                 (mkItem (dates item ++ [date])%list (amounts item ++ [amount])%list
                    (itemCategory item))
                 recurringItems)
      | None =>
          if inherited merchant then inl push_of_undefined
          else
            inr (own_set merchant (mkItem [date] [amount] (category transaction))
                   recurringItems)
      end.

Fixpoint collect_all (transactions : list Transaction)
    (recurringItems : record RecurringItem) : string + record RecurringItem :=
  match transactions with
  | [] => inr recurringItems
  | transaction :: rest =>
      match collect recurringItems transaction with
      | inl error => inl error
      | inr items => collect_all rest items
      end
  end.

(** The loop that adds up the rounded day differences of neighbours:
    [previous] is [dates[i-1]] and [rest] starts at [dates[i]]. *)
Fixpoint days_between_loop (previous : Z) (rest : list Z) (totalDaysBetween : Z) : Z :=
  match rest with
  | [] => totalDaysBetween
  | d :: rest' =>
      let daysDiff := Math_round (inject_Z (d - previous) / inject_Z msPerDay) in
      days_between_loop d rest' (totalDaysBetween + daysDiff)%Z
  end.

Definition frequency_of (avgDaysBetween : Q) : option string :=
  if geb avgDaysBetween 25 && leb avgDaysBetween 35 then Some "monthly"
  else if geb avgDaysBetween 6 && leb avgDaysBetween 8 then Some "weekly"
  else if geb avgDaysBetween 13 && leb avgDaysBetween 16 then Some "bi-weekly"
  else if geb avgDaysBetween 85 && leb avgDaysBetween 95 then Some "quarterly"
  else None.

(** The body of the loop over the merchants: what it pushes. *)
Definition analyze (entry : string * RecurringItem) : list Recurring :=
  let (merchant, data) := entry in
  if (List.length (dates data) <? 2)%nat then []
  else
    let sorted := sort Z.leb (dates data) in
    let totalDaysBetween :=
      match sorted with
      | [] => 0%Z
      | first :: rest => days_between_loop first rest 0
      end in
    let avgDaysBetween :=
      inject_Z totalDaysBetween / inject_Z (Z.of_nat (List.length sorted - 1)) in
    match frequency_of avgDaysBetween with
    | None => []
    | Some frequency =>
        let avgAmount :=
          fold_left (fun sum amount => sum + amount) (amounts data) 0
          / inject_Z (Z.of_nat (List.length (amounts data))) in
        [ mkRecurring (capitalize merchant) (itemCategory data)
            (inject_Z (Math_round (avgAmount * 100)) / 100) frequency ]
    end.

(** The comparator of the final sort, [b.averageAmount - a.averageAmount]. *)
Definition by_average_desc (a b : Recurring) : bool :=
  leb (averageAmount b - averageAmount a) 0.

Definition findRecurringTransactions (transactions : list Transaction)
    (timeframeMonths : Q) : string + list Recurring :=
  match collect_all transactions [] with
  | inl error => inl error
  | inr recurringItems =>
      inr (sort by_average_desc (flat_map analyze (entries recurringItems)))
  end.

End Insights.


(** ** Part V, continued.  The in-memory storage (server/storage.ts)

    [MemStorage] keeps each table in a [Map] from ids to rows and hands
    out ids from a counter per table.  Its methods are [async], but none
    awaits anything but another method of the class, so a call is a
    function from the state before to the result and the state after.
    [new Date()] is the time value [now] that the call is given.  Of the
    five tables the two that the transactions pages use are modelled,
    accounts and transactions; no method on them touches the other three
    or is touched by theirs. *)

Module JsMap.

(** A [Map] with number keys: its entries in insertion order. *)
Definition Map (V : Type) : Type := list (Z * V).

Fixpoint get {V} (k : Z) (m : Map V) : option V :=
  match m with
  | [] => None
  | (k', v) :: r => if (k =? k')%Z then Some v else get k r
  end.

(** [m.set(k, v)]: the entry of a key that is there keeps its place, a
    new one goes last. *)
Fixpoint set {V} (k : Z) (v : V) (m : Map V) : Map V :=
  match m with
  | [] => [(k, v)]
  | (k', v') :: r => if (k =? k')%Z then (k, v) :: r else (k', v') :: set k v r
  end.

(** [m.delete(k)]: whether the key was there, and the map without it. *)
Definition delete {V} (k : Z) (m : Map V) : bool * Map V :=
  (match get k m with
   | Some _ => true
   | None => false
   end,
   filter (fun e => negb (k =? fst e)%Z) m).

(** [Array.from(m.values())] *)
Definition values {V} (m : Map V) : list V := map snd m.

End JsMap.

Module MemStorage.
Import JsArray.

(** [v || null] for a string and for a boolean: the empty string and
    [false] are falsy.  [None] is [undefined] as well as [null]. *)
Definition string_or_null (v : option string) : option string :=
  match v with
  | Some (String _ _) => v
  | _ => None
  end.

Definition true_or_null (v : option bool) : option bool :=
  match v with
  | Some true => v
  | _ => None
  end.

Definition number_or_null (v : option Z) : option Z :=
  match v with
  | Some 0%Z => None
  | _ => v
  end.

(** [InsertTransaction]: the six fields that every transaction has and
    the Plaid fields, which are optional. *)
Record InsertTransaction : Type := mkInsertTransaction {
  fields : Transaction;
  plaidTransactionId : option string;
  pending : option bool;
  pendingTransactionId : option string;
  transactionType : option string;
  paymentChannel : option string;
  isPlaidTransaction : option bool
}.

(** A row of the transactions table. *)
Record StoredTransaction : Type := mkStoredTransaction {
  id : Z;
  row : InsertTransaction
}.

Record InsertAccount : Type := mkInsertAccount {
  accountFields : Account;
  accountNumber : string;
  plaidItemId : option Z;
  plaidAccountId : option string;
  isPlaidConnected : option bool
}.

(** A row of the accounts table. *)
Record StoredAccount : Type := mkStoredAccount {
  accountKey : Z;
  accountRow : InsertAccount;
  lastUpdated : Z
}.

(** [Partial<InsertAccount>]: [None] is a key that the object does not
    have; the value of a nullable key is itself an option. *)
Record AccountUpdate : Type := mkAccountUpdate {
  newName : option string;
  newType : option string;
  newInstitution : option string;
  newBalance : option Q;
  newAccountNumber : option string;
  newPlaidItemId : option (option Z);
  newPlaidAccountId : option (option string);
  newIsPlaidConnected : option (option bool)
}.

(** The part of the state of a [MemStorage] that holds accounts and
    transactions. *)
Module State.
Record t : Type := mk {
  accounts : JsMap.Map StoredAccount;
  transactions : JsMap.Map StoredTransaction;
  accountId : Z;
  transactionId : Z
}.
End State.

(** The constructor. *)
Definition new_MemStorage : State.t := State.mk [] [] 1 1.

Definition getAccounts (s : State.t) : list StoredAccount :=
  JsMap.values (State.accounts s).

Definition getAccount (id : Z) (s : State.t) : option StoredAccount :=
  JsMap.get id (State.accounts s).

Definition createAccount (now : Z) (account : InsertAccount) (s : State.t)
  : StoredAccount * State.t :=
  let id := State.accountId s in
  let newAccount :=
    mkStoredAccount id
      (mkInsertAccount (accountFields account) (accountNumber account)
         (number_or_null (plaidItemId account))
         (string_or_null (plaidAccountId account))
         (true_or_null (isPlaidConnected account)))
      now in
  (newAccount,
   State.mk (JsMap.set id newAccount (State.accounts s)) (State.transactions s)
     (State.accountId s + 1) (State.transactionId s)).

(** [{ ...account, ...accountUpdate }] *)
Definition or_old {A} (new : option A) (old : A) : A :=
  match new with
  | Some v => v
  | None => old
  end.

Definition updateAccount (now : Z) (id : Z) (accountUpdate : AccountUpdate)
    (s : State.t) : option StoredAccount * State.t :=
  match JsMap.get id (State.accounts s) with
  | None => (None, s)
  | Some account =>
      let old := accountRow account in
      let updatedAccount :=
        mkStoredAccount (accountKey account)
          (mkInsertAccount
             (mkAccount
                (or_old (newName accountUpdate) (name (accountFields old)))
                (or_old (newType accountUpdate) (type (accountFields old)))
                (or_old (newInstitution accountUpdate) (institution (accountFields old)))
                (or_old (newBalance accountUpdate) (balance (accountFields old))))
             (or_old (newAccountNumber accountUpdate) (accountNumber old))
             (or_old (newPlaidItemId accountUpdate) (plaidItemId old))
             (or_old (newPlaidAccountId accountUpdate) (plaidAccountId old))
             (or_old (newIsPlaidConnected accountUpdate) (isPlaidConnected old)))
          now in
      (Some updatedAccount,
       State.mk (JsMap.set id updatedAccount (State.accounts s)) (State.transactions s)
         (State.accountId s) (State.transactionId s))
  end.

Definition deleteAccount (id : Z) (s : State.t) : bool * State.t :=
  let (deleted, accounts) := JsMap.delete id (State.accounts s) in
  (deleted,
   State.mk accounts (State.transactions s) (State.accountId s) (State.transactionId s)).

(** The comparator of the two sorts,
    [new Date(b.date).getTime() - new Date(a.date).getTime()]. *)
Definition by_date_desc (a b : StoredTransaction) : bool :=
  (date (fields (row b)) - date (fields (row a)) <=? 0)%Z.

(** [a.slice(0, end)] *)
Definition slice_to {A} (l : list A) (stop : Z) : list A :=
  if (stop <? 0)%Z
  then firstn (Z.to_nat (Z.max (Z.of_nat (List.length l) + stop) 0)) l
  else firstn (Z.to_nat stop) l.

(** [getTransactions(limit)]: [None] is no limit given, or one that is
    not a number; both are falsy, and so is 0. *)
Definition getTransactions (limit : option Z) (s : State.t) : list StoredTransaction :=
  let transactions := sort by_date_desc (JsMap.values (State.transactions s)) in
  match limit with
  | None => transactions
  | Some 0%Z => transactions
  | Some n => slice_to transactions n
  end.


Definition getTransaction (id : Z) (s : State.t) : option StoredTransaction :=
  JsMap.get id (State.transactions s).

Definition createTransaction (transaction : InsertTransaction) (s : State.t)
  : StoredTransaction * State.t :=
  let id := State.transactionId s in
  let newTransaction :=
    mkStoredTransaction id
      (mkInsertTransaction (fields transaction)
         (string_or_null (plaidTransactionId transaction))
         (true_or_null (pending transaction))
         (string_or_null (pendingTransactionId transaction))
         (string_or_null (transactionType transaction))
         (string_or_null (paymentChannel transaction))
         (true_or_null (isPlaidTransaction transaction))) in
  (newTransaction,
   State.mk (State.accounts s) (JsMap.set id newTransaction (State.transactions s))
     (State.accountId s) (State.transactionId s + 1)).

(** The loop of [createTransactions], from the transactions created so
    far. *)
Fixpoint createTransactions_loop (transactions : list InsertTransaction)
    (createdTransactions : list StoredTransaction) (s : State.t)
  : list StoredTransaction * State.t :=
  match transactions with
  | [] => (createdTransactions, s)
  | transaction :: rest =>
      let (newTransaction, s') := createTransaction transaction s in
      createTransactions_loop rest (createdTransactions ++ [newTransaction])%list s'
  end.

Definition createTransactions (transactions : list InsertTransaction) (s : State.t)
  : list StoredTransaction * State.t :=
  createTransactions_loop transactions [] s.

Definition deleteTransaction (id : Z) (s : State.t) : bool * State.t :=
  let (deleted, transactions) := JsMap.delete id (State.transactions s) in
  (deleted,
   State.mk (State.accounts s) transactions (State.accountId s) (State.transactionId s)).

End MemStorage.

(** ** Part VI.  The vocabulary of the properties

    The notions in which the theorems below are stated: those of the
    claims, written from their words, and names for the values that the
    code holds between its steps. *)

Module Spec.
Import JsString JsNumber JsDate JsObject JsArray Categorize CsvParser Insights.

(** The time zone of the examples: UTC. *)
Definition UTC (t : Z) : Z := 0%Z.

(** *** The classifier *)

(** [k] occurs in [s]. *)
Definition substring_of (k s : string) : Prop := exists a b, s = a ++ k ++ b.

(** A rule applies to a search text when one of its keywords, lower
    cased, occurs in it. *)
Definition rule_applies (text : string) (rule : CategoryRule) : Prop :=
  exists keyword, In keyword (keywords rule) /\ substring_of (toLowerCase keyword) text.

(** *** Subscriptions *)

Section Subscriptions.
Local Open Scope Q_scope.





Fixpoint total (l : list Q) : Q :=
  match l with
  | [] => 0
  | x :: r => x + total r
  end.


End Subscriptions.

(** *** The parser *)

(** The non-blank lines among [lines], trimmed, each with its line number
    in the file when the first of [lines] is line [n]. *)
Definition numbered_rows (n : nat) (lines : list string) : list (nat * string) :=
  filter (fun r => negb (String.eqb (snd r) EmptyString))
    (combine (seq n (List.length lines)) (map trim lines)).


Definition header_row (csvData : string) : list string :=
  map trim (split_char "," (toLowerCase (hd EmptyString (split_lines csvData)))).

Section Rows.
Variable legacy : string -> option Z.
Variable headers : list string.
Variable format : CsvFormat.
Variable accountId : Z.

(** The transaction of a numbered row, if it has one, and its error, if
    it has one. *)
Definition row_transactions (r : nat * string) : list Transaction :=
  match parseCsvLine legacy (snd r) headers format accountId with
  | inr t => [t]
  | inl _ => []
  end.

Definition row_errors (r : nat * string) : list string :=
  match parseCsvLine legacy (snd r) headers format accountId with
  | inr _ => []
  | inl message => ["Error on line " ++ string_of_nat (fst r) ++ ": " ++ message]
  end.

End Rows.


(** A debit or credit field that holds a positive number. *)
Definition positive_field (v : option string) : option Q :=
  match truthy v with
  | Some s =>
      match parseFloat s with
      | Some q => if gtb q 0 then Some q else None
      | None => None
      end
  | None => None
  end.

(** *** Spending by month and category *)

Section Spending.
Local Open Scope Q_scope.

(** The total of the amounts listed under a category. *)
Definition category_total (items : list (string * Q)) (c : string) : Q :=
  total (map snd (filter (fun p => String.eqb (fst p) c) items)).

Definition category_seen (items : list (string * Q)) (c : string) : Prop :=
  exists x, In (c, x) items.

(** What the bucket of a month holds after the amounts [items] went in,
    in this order. *)
Definition bucket_of (items : list (string * Q)) (data : record slot) : Prop :=
  NoDup (map fst data)
  /\ (forall c q, own_get c data = Some (VNum q) -> inherited c = false)
  /\ (forall c, inherited c = false ->
        match own_get c data with
        | None => ~ category_seen items c
        | Some (VNum q) => category_seen items c /\ q == category_total items c
        | Some VText => False
        end).

(** An expense: a transaction that the bucketing loop does not skip. *)
Definition is_expense (t : Transaction) : bool := ltb (amount t) 0.

Section WithZone.
Variable LocalTZA : Z -> Z.

Definition in_month (m : string) (t : Transaction) : bool :=
  is_expense t && String.eqb (monthYear_of LocalTZA (date t)) m.


Definition month_items (txs : list Transaction) (m : string) : list (string * Q) :=
  map (fun t => (category t, Qabs (amount t))) (filter (in_month m) txs).

(** What the object of the months holds after the bucketing loop went
    over [txs]. *)
Definition months_of (txs : list Transaction) (B : record (record slot)) : Prop :=
  NoDup (map fst B)
  /\ forall m,
       match own_get m B with
       | None => filter (in_month m) txs = []
       | Some data =>
           filter (in_month m) txs <> [] /\ bucket_of (month_items txs m) data
       end.

Definition spending_by_month (txs : list Transaction) : record (record slot) :=
  fold_left (add_transaction LocalTZA) txs [].

(** The month keys in the order in which the code sorts them. *)
Definition sorted_months (txs : list Transaction) : list string :=
  sort String.leb (keys (spending_by_month txs)).

(** The two months that are compared, the previous and the current. *)
Definition compared_months (txs : list Transaction) : option (string * string) :=
  let months := sorted_months txs in
  if (List.length months <? 2)%nat then None
  else Some (nth (List.length months - 2) months EmptyString,
             nth (List.length months - 1) months EmptyString).

(** The [insights] array when the loop over the categories has ended,
    before the final sort and cut. *)
Definition collected_alerts (txs : list Transaction) : list InsertInsight :=
  match compared_months txs with
  | None => []
  | Some (previousMonth, currentMonth) =>
      match own_get currentMonth (spending_by_month txs),
            own_get previousMonth (spending_by_month txs) with
      | Some currentMonthData, Some previousMonthData =>
          flat_map (compare_category previousMonthData) (entries currentMonthData)
      | _, _ => []
      end
  end.

End WithZone.

(** The test of the loop over the categories, on the previous amount
    [p] and the current amount [a]. *)
Definition qualifies (p a : Q) : Prop :=
  50 < p
  /\ (20 <= Math_round ((a - p) / p * 100))%Z
  /\ (50 <= Math_round (a - p))%Z.

Definition alert_for (c : string) (p a : Q) : InsertInsight :=
  spending_alert c (Math_round ((a - p) / p * 100))
    (Math_round (inject_Z (Math_round (a - p)) * (7 # 10))).

End Spending.

(** *** Recurring charges *)

Section Recurring.
Local Open Scope Q_scope.













(** The same transaction, [delta] milliseconds later. *)
Definition shift_date (delta : Z) (t : Transaction) : Transaction :=
  mkTransaction (accountId t) (date t + delta) (description t) (amount t)
    (category t) (merchant t).

Definition shift_item (delta : Z) (item : RecurringItem) : RecurringItem :=
  mkItem (map (fun d => d + delta)%Z (dates item)) (amounts item) (itemCategory item).

(** An object with every value changed by [f]. *)
Definition map_values {V W} (f : V -> W) (o : record V) : record W :=
  map (fun e => (fst e, f (snd e))) o.

End Recurring.

(** *** Numerals and dates *)

Section Numerals.
Local Open Scope N_scope.

(** The value of a list of digits, least significant first. *)
Fixpoint le_value (l : list N) : N :=
  match l with
  | [] => 0
  | d :: r => d + 10 * le_value r
  end.

(** A string of decimal digits. *)
Definition numeral (s : string) : Prop :=
  forall c, In c (list_ascii_of_string s) -> is_digit c = true.

End Numerals.

Section Dates.
Local Open Scope Z_scope.

(** A test on every integer of a range, by halving. *)
Fixpoint all_in (f : Z -> bool) (start : Z) (len : positive) : bool :=
  match len with
  | xH => f start
  | xO p => all_in f start p && all_in f (start + Zpos p) p
  | xI p => f start && all_in f (start + 1) p && all_in f (start + 1 + Zpos p) p
  end.

(** A date of the era below exists, is the date of its day number, and
    its year is one of the era. *)
Definition date_ok (z : Z) : bool :=
  let '(y, m, d) := civil_from_days z in
  (days_from_civil y m d =? z) && (1 <=? m) && (m <=? 12)
  && (1 <=? d) && (d <=? days_in_month y m) && (0 <=? y) && (y <=? 400).

(** A time value that a [Date] can hold. *)
Definition valid_time (t : Z) : Prop := - maxTime <= t <= maxTime.

End Dates.

(** *** The export *)

(** Every code unit of a string is of a class. *)
Definition all_chars (p : ascii -> bool) (s : string) : Prop :=
  forall c, In c (list_ascii_of_string s) -> p c = true.

Definition not_char (x : ascii) (c : ascii) : bool := negb (Ascii.eqb c x).

(** The code units of an unquoted field: no quote, comma or line feed. *)
Definition bare (c : ascii) : bool :=
  not_char dquote c && not_char "," c && not_char LF c.

(** The code units of a quoted field: no quote or line feed. *)
Definition quotable (c : ascii) : bool := not_char dquote c && not_char LF c.

(** The code units of a date or an amount. *)
Definition numeric_char (c : ascii) : bool :=
  is_digit c || Ascii.eqb c "-" || Ascii.eqb c "." || Ascii.eqb c "+".

(** A description or a merchant that comes back as it is: not empty,
    no white space at its ends, no double quote and no line feed. *)
Definition plain_text (s : string) : Prop :=
  s <> EmptyString /\ trim s = s /\ all_chars quotable s.

(** A category that comes back as it is: the same, and no comma, since
    the export does not quote it. *)
Definition plain_label (s : string) : Prop :=
  s <> EmptyString /\ trim s = s /\ all_chars bare s.

(** An amount in whole cents. *)
Definition whole_cents (x : Q) : Prop := exists n : Z, (x == n # 100)%Q.

Definition exportable (tx : Transaction) : Prop :=
  valid_time (date tx)
  /\ plain_text (description tx)
  /\ whole_cents (amount tx)
  /\ plain_label (category tx)
  /\ plain_text (merchant tx).

(** What a transaction is read back as. *)
Definition reimported (account : Z) (tx parsed : Transaction) : Prop :=
  accountId parsed = account
  /\ date parsed = (Day (date tx) * msPerDay)%Z
  /\ description parsed = description tx
  /\ (amount parsed == amount tx)%Q
  /\ category parsed = category tx
  /\ merchant parsed = merchant tx.

(** A line of the export without its closing quote and line feed. *)
Definition csv_body (tx : Transaction) : string :=
  toISODate (date tx) ++ String "," (String dquote (description tx ++ String dquote
    (String "," (toFixed2 (amount tx) ++ String "," (category tx ++ String ","
       (String dquote (merchant tx))))))).

Definition csv_line (tx : Transaction) : string :=
  csv_body tx ++ String dquote EmptyString.

Definition export_headers : list string :=
  ["date"; "description"; "amount"; "category"; "merchant"].

Definition export_header : string := "Date,Description,Amount,Category,Merchant".

(** The lines of the export, each with its line feed. *)
Fixpoint csv_rows (txs : list Transaction) : string :=
  match txs with
  | [] => EmptyString
  | tx :: rest => csv_row tx ++ csv_rows rest
  end.

(** *** The classifier on a batch *)

(** A transaction that [categorizeBatch] gives a category to. *)
Definition uncategorized (t : Transaction) : Prop :=
  category t = EmptyString \/ category t = "Other".

(** *** Fields *)

(** A string without its double quotes. *)
Fixpoint strip_quotes (s : string) : string :=
  match s with
  | EmptyString => EmptyString
  | String c r => if Ascii.eqb c dquote then strip_quotes r else String c (strip_quotes r)
  end.

(** A field as the export writes a description or a merchant: between
    double quotes, with its own double quotes doubled. *)
Definition quoted (s : string) : string :=
  String dquote (double_quotes s ++ String dquote EmptyString).

(** A field as the parser leaves it: trimmed, and without any double
    quote or line feed. *)
Definition clean_field (v : string) : Prop :=
  trim v = v /\ all_chars quotable v.

(** A transaction as the parser leaves it: of the account, with a
    description, a category and a merchant that are not empty and hold
    no double quote and no line feed, the description trimmed. *)
Definition clean_transaction (account : Z) (t : Transaction) : Prop :=
  accountId t = account
  /\ description t <> EmptyString /\ clean_field (description t)
  /\ category t <> EmptyString /\ all_chars quotable (category t)
  /\ merchant t <> EmptyString /\ all_chars quotable (merchant t).

(** *** Savings accounts *)



(** *** The export read back, in general *)





(** *** Header lines and dates *)

(** A line without the carriage return at its end, if it has one. *)
Fixpoint chomp (s : string) : string :=
  match s with
  | EmptyString => EmptyString
  | String c r =>
      match r with
      | EmptyString => if Ascii.eqb c CR then EmptyString else s
      | _ => String c (chomp r)
      end
  end.

(** A date of two digits, two digits and four digits, with a separator
    after the first and after the second part. *)
Definition short_date (a b y : N) (s1 s2 : ascii) : string :=
  pad2 a ++ String s1 (pad2 b ++ String s2 (pad4 y)).

(** The date-only form of the Date Time String Format. *)
Definition iso_date (y m d : N) : string :=
  pad4 y ++ "-" ++ pad2 m ++ "-" ++ pad2 d.

(** A month and a day of the calendar of a year. *)
Definition date_exists (y m d : N) : bool :=
  ((1 <=? m) && (m <=? 12) && (1 <=? d)
   && (Z.of_N d <=? days_in_month (Z.of_N y) (Z.of_N m))%Z)%N.

(** A text with a carriage return put before each of its line feeds. *)
Fixpoint crlf (s : string) : string :=
  match s with
  | EmptyString => EmptyString
  | String c r =>
      if Ascii.eqb c LF then String CR (String LF (crlf r)) else String c (crlf r)
  end.

End Spec.

(** *** The storage: calls, and the states they lead to *)

Module StorageSpec.
Import MemStorage.

(** The calls that change the state. *)
Inductive call : Type :=
  | CreateAccount (now : Z) (account : InsertAccount)
  | UpdateAccount (now : Z) (id : Z) (accountUpdate : AccountUpdate)
  | DeleteAccount (id : Z)
  | CreateTransaction (transaction : InsertTransaction)
  | CreateTransactions (transactions : list InsertTransaction)
  | DeleteTransaction (id : Z).

Definition run (s : State.t) (c : call) : State.t :=
  match c with
  | CreateAccount now account => snd (createAccount now account s)
  | UpdateAccount now id accountUpdate => snd (updateAccount now id accountUpdate s)
  | DeleteAccount id => snd (deleteAccount id s)
  | CreateTransaction transaction => snd (createTransaction transaction s)
  | CreateTransactions transactions => snd (createTransactions transactions s)
  | DeleteTransaction id => snd (deleteTransaction id s)
  end.

(** The state after a sequence of calls. *)
Definition run_all (calls : list call) (s : State.t) : State.t :=
  fold_left run calls s.

(** A table whose rows sit under their own ids, all of them handed out
    already, each at most once. *)
Definition table_ok {V} (key : V -> Z) (m : JsMap.Map V) (next : Z) : Prop :=
  NoDup (map fst m)
  /\ forall k v, In (k, v) m -> key v = k /\ (1 <= k < next)%Z.

Definition consistent (s : State.t) : Prop :=
  table_ok accountKey (State.accounts s) (State.accountId s)
  /\ table_ok id (State.transactions s) (State.transactionId s)
  /\ (1 <= State.accountId s)%Z /\ (1 <= State.transactionId s)%Z.

(** An id of the transactions table that was handed out and is not in
    the table. *)
Definition gone (k : Z) (s : State.t) : Prop :=
  (k < State.transactionId s)%Z /\ JsMap.get k (State.transactions s) = None.


End StorageSpec.

(** ** Part VII.  Properties of the platform functions *)

Module StringFacts.
Import Spec JsString.

Lemma prefix_iff (k s : string) :
  String.prefix k s = true <-> exists b, s = k ++ b.
Proof.
  revert s; induction k as [|c k IH]; intros s.
  - destruct s; simpl; split; intros; eauto.
  - destruct s as [|c' s]; simpl.
    + split; [discriminate | intros [b Hb]; discriminate].
    + destruct (ascii_dec c c') as [->|Hne].
      * rewrite IH. split; intros [b Hb]; exists b; congruence.
      * split; [discriminate | intros [b Hb]; congruence].
Qed.

Lemma includes_unfold (s k : string) :
  includes s k =
  String.prefix k s || match s with
                       | EmptyString => false
                       | String _ r => includes r k
                       end.
Proof. destruct s; reflexivity. Qed.

(** [includes] is the substring test. *)
Lemma includes_iff (s k : string) :
  includes s k = true <-> exists a b, s = a ++ k ++ b.
Proof.
  induction s as [|c s IH]; rewrite includes_unfold.
  - rewrite orb_false_r, prefix_iff. split.
    + intros [b Hb]. exists EmptyString, b. exact Hb.
    + intros [a [b Hab]]. destruct a; simpl in Hab; [eauto | discriminate].
  - rewrite orb_true_iff, prefix_iff, IH. split.
    + intros [[b Hb] | [a [b Hab]]].
      * exists EmptyString, b. exact Hb.
      * exists (String c a), b. simpl. congruence.
    + intros [a [b Hab]]. destruct a as [|c' a]; simpl in Hab.
      * left. eauto.
      * right. exists a, b. congruence.
Qed.

Lemma append_assoc (a b c : string) : (a ++ b) ++ c = a ++ (b ++ c).
Proof. induction a; simpl; congruence. Qed.

Lemma append_nil_r (a : string) : a ++ EmptyString = a.
Proof. induction a; simpl; congruence. Qed.

Lemma append_length (a b : string) :
  String.length (a ++ b) = (String.length a + String.length b)%nat.
Proof. induction a; simpl; congruence. Qed.

Lemma append_inv_tail (a b c : string) : a ++ c = b ++ c -> a = b.
Proof.
  revert b; induction a as [|x a IH]; intros [|y b] H; simpl in H.
  - reflexivity.
  - apply (f_equal String.length) in H. simpl in H.
    rewrite append_length in H. lia.
  - apply (f_equal String.length) in H. simpl in H.
    rewrite append_length in H. lia.
  - injection H as -> H. f_equal. auto.
Qed.

End StringFacts.

Module SortFacts.
Import Spec JsArray.

Section Sorting.
Context {A : Type} (le : A -> A -> bool).

Lemma insert_sorted_perm (x : A) (l : list A) :
  Permutation (insert_sorted le x l) (x :: l).
Proof.
  induction l as [|y l IH]; simpl; [reflexivity|].
  destruct (le x y); [reflexivity|].
  rewrite IH. apply perm_swap.
Qed.

Lemma sort_perm (l : list A) : Permutation (sort le l) l.
Proof.
  induction l as [|x l IH]; simpl; [reflexivity|].
  rewrite insert_sorted_perm. now constructor.
Qed.

Lemma sort_in (x : A) (l : list A) : In x (sort le l) <-> In x l.
Proof.
  split; apply Permutation_in; [|symmetry]; apply sort_perm.
Qed.

Lemma sort_length (l : list A) : List.length (sort le l) = List.length l.
Proof. apply Permutation_length, sort_perm. Qed.

Hypothesis le_total : forall x y, le x y = true \/ le y x = true.
Hypothesis le_trans : forall x y z, le x y = true -> le y z = true -> le x z = true.



End Sorting.


End SortFacts.

Module NumberFacts.
Import Spec JsNumber.
Local Open Scope Q_scope.

Lemma leb_le (x y : Q) : leb x y = true <-> x <= y.
Proof. apply Qle_bool_iff. Qed.

Lemma ltb_lt (x y : Q) : ltb x y = true <-> x < y.
Proof.
  unfold ltb. rewrite negb_true_iff. split.
  - intros H. apply Qnot_le_lt. intros Hle.
    apply Qle_bool_iff in Hle. congruence.
  - intros H. destruct (Qle_bool y x) eqn:E; [|reflexivity].
    apply Qle_bool_iff in E. exfalso. exact (Qlt_not_le _ _ H E).
Qed.

Lemma gtb_gt (x y : Q) : gtb x y = true <-> y < x.
Proof. apply ltb_lt. Qed.


Lemma ltb_ge (x y : Q) : ltb x y = false <-> y <= x.
Proof.
  unfold ltb. rewrite negb_false_iff. apply Qle_bool_iff.
Qed.

Lemma leb_gt (x y : Q) : leb x y = false <-> y < x.
Proof.
  rewrite <- ltb_lt. unfold ltb, leb. destruct (Qle_bool x y); simpl; intuition congruence.
Qed.


(** [Math.round] gives the integer [n] with [n - 1/2 <= x < n + 1/2]. *)
Lemma Math_round_spec (x : Q) (n : Z) :
  Math_round x = n <-> inject_Z n - (1 # 2) <= x /\ x < inject_Z n + (1 # 2).
Proof.
  unfold Math_round. split.
  - intros <-. pose proof (Qfloor_le (x + (1 # 2))) as H1.
    pose proof (Qlt_floor (x + (1 # 2))) as H2.
    rewrite inject_Z_plus in H2. change (inject_Z 1) with 1 in H2. split; lra.
  - intros [H1 H2].
    assert (Hle : (n <= Qfloor (x + (1 # 2)))%Z).
    { rewrite <- (Qfloor_Z n). apply Qfloor_resp_le. lra. }
    assert (Hlt : (Qfloor (x + (1 # 2)) < n + 1)%Z).
    { rewrite Zlt_Qlt. eapply Qle_lt_trans; [apply Qfloor_le|].
      rewrite inject_Z_plus. change (inject_Z 1) with 1. lra. }
    lia.
Qed.


End NumberFacts.

(** ** Part VIII.  The category classifier *)

Module CategorizeFacts.
Import Spec JsString JsNumber Categorize StringFacts NumberFacts.

Lemma rule_matches_iff (text : string) (rule : CategoryRule) :
  rule_matches text rule = true <-> rule_applies text rule.
Proof.
  unfold rule_matches, rule_applies, substring_of.
  rewrite existsb_exists.
  split; intros [k [Hin Hk]]; exists k; split; auto; now apply includes_iff.
Qed.

Lemma match_rules_first (text : string) (before after : list CategoryRule)
    (rule : CategoryRule) :
  (forall r, In r before -> ~ rule_applies text r) ->
  rule_applies text rule ->
  match_rules (before ++ rule :: after) text = ruleCategory rule.
Proof.
  intros Hbefore Hrule. induction before as [|r before IH]; simpl.
  - apply rule_matches_iff in Hrule. now rewrite Hrule.
  - destruct (rule_matches text r) eqn:E.
    + apply rule_matches_iff in E. exfalso. apply (Hbefore r); simpl; auto.
    + apply IH. intros r' Hr'. apply Hbefore. simpl; auto.
Qed.

Lemma match_rules_none (text : string) (rules : list CategoryRule) :
  (forall r, In r rules -> ~ rule_applies text r) ->
  match_rules rules text = "Other".
Proof.
  induction rules as [|r rules IH]; simpl; intros H; [reflexivity|].
  destruct (rule_matches text r) eqn:E.
  - apply rule_matches_iff in E. exfalso. apply (H r); auto.
  - apply IH. intros r' Hr'. apply H. auto.
Qed.

(** Some rule is the first to apply, or none does. *)
Lemma first_rule_or_none (text : string) (rules : list CategoryRule) :
  (exists before rule after,
      rules = (before ++ rule :: after)%list
      /\ (forall r, In r before -> ~ rule_applies text r)
      /\ rule_applies text rule)
  \/ (forall r, In r rules -> ~ rule_applies text r).
Proof.
  induction rules as [|r rules IH].
  - right. intros r [].
  - destruct (rule_matches text r) eqn:E.
    + left. exists [], r, rules. repeat split.
      * intros r' [].
      * now apply rule_matches_iff.
    + destruct IH as [[before [rule [after [-> [Hb Hr]]]]] | Hnone].
      * left. exists (r :: before), rule, after. repeat split; auto.
        intros r' [<-|Hin]; [|auto].
        rewrite <- rule_matches_iff. congruence.
      * right. intros r' [<-|Hin]; [|auto].
        rewrite <- rule_matches_iff. congruence.
Qed.

End CategorizeFacts.

Import JsString JsNumber JsDate JsObject JsArray.
Import Categorize CsvParser Insights.
Import Spec StringFacts SortFacts NumberFacts CategorizeFacts.

(** C5.  [categorizeTransaction] is a function of the transaction alone.
    A transaction whose amount is above 0 is "Income", whatever its
    description and merchant say.  Any other transaction gets the
    category of the first rule of the table, in the order Housing, Food,
    Transportation, Shopping, Utilities, Healthcare, Entertainment,
    Education, Travel, Income, that has a keyword occurring in the lower
    cased text made of the description, a space and the merchant, and
    "Other" when no rule has one; one of the two cases always holds. *)
Theorem categorizeTransaction_first_rule_wins (t : Transaction) :
  let text := toLowerCase (description t ++ " " ++ merchant t) in
  map ruleCategory categoryRules =
    ["Housing"; "Food"; "Transportation"; "Shopping"; "Utilities"; "Healthcare";
     "Entertainment"; "Education"; "Travel"; "Income"]
  /\ ((0 < amount t)%Q -> categorizeTransaction t = "Income")
  /\ (~ (0 < amount t)%Q ->
      (forall before rule after,
          categoryRules = (before ++ rule :: after)%list ->
          (forall r, In r before -> ~ rule_applies text r) ->
          rule_applies text rule ->
          categorizeTransaction t = ruleCategory rule)
      /\ ((forall r, In r categoryRules -> ~ rule_applies text r) ->
          categorizeTransaction t = "Other")
      /\ ((exists before rule after,
              categoryRules = (before ++ rule :: after)%list
              /\ (forall r, In r before -> ~ rule_applies text r)
              /\ rule_applies text rule)
          \/ (forall r, In r categoryRules -> ~ rule_applies text r))).
Proof.
  intros text. split; [reflexivity|]. split.
  - intros Hpos. unfold categorizeTransaction.
    apply gtb_gt in Hpos. now rewrite Hpos.
  - intros Hneg.
    assert (E : gtb (amount t) 0 = false).
    { destruct (gtb (amount t) 0) eqn:E; [|reflexivity].
      apply gtb_gt in E. contradiction. }
    unfold categorizeTransaction. rewrite E.
    fold text. change (searchText_of t) with text.
    repeat split.
    + intros before rule after -> Hb Hr. now apply match_rules_first.
    + apply match_rules_none.
    + apply first_rule_or_none.
Qed.

(** The income short circuit of the specification's test list. *)
Example categorize_income_short_circuit :
  categorizeTransaction (mkTransaction 1 0 "anything" 50 "Other" "anything") = "Income"
  /\ categorizeTransaction (mkTransaction 1 0 "rent and netflix" 50 "Other" "uber")
     = "Income"
  /\ categorizeTransaction (mkTransaction 1 0 "Gas bill" (-50) "Other" "City Gas")
     = "Transportation".
Proof. repeat split; reflexivity. Qed.

(** The theorem at a gas bill: the rules Housing and Food do not apply,
    Transportation is the first that does (Utilities lists the keyword
    too, later in the table). *)
Lemma categorizeTransaction_first_rule_wins_witness :
  categorizeTransaction (mkTransaction 1 0 "Gas bill" (-50) "Other" "City Gas")
  = "Transportation".
Proof.
  pose (t := mkTransaction 1 0 "Gas bill" (-50) "Other" "City Gas").
  destruct (categorizeTransaction_first_rule_wins t) as [_ [_ H]].
  destruct H as [H _].
  - unfold Qlt; simpl; lia.
  - apply (H (firstn 2 categoryRules) (nth 2 categoryRules (mkRule [] ""))
             (skipn 3 categoryRules)).
    + reflexivity.
    + intros r Hr Happ. apply rule_matches_iff in Happ.
      simpl in Hr. destruct Hr as [<-|[<-|[]]]; vm_compute in Happ; discriminate.
    + apply rule_matches_iff. reflexivity.
Defined.

(** ** Part IX.  The insight generator: subscription overlap *)

Module SubscriptionFacts.
Import Spec JsString JsNumber JsArray Insights StringFacts NumberFacts CategorizeFacts.
Local Open Scope Q_scope.









End SubscriptionFacts.

Import SubscriptionFacts.


(** Three services are matched here, one of them by an income, and the
    Hulu charge counts twice in the total: round(0.4 * 35) = 14. *)
Example findSubscriptionOverlaps_example :
  findSubscriptionOverlaps
    [ mkTransaction 1 0 "Netflix" (-10) "Entertainment" "netflix";
      mkTransaction 1 0 "HULU" (-10) "Entertainment" "hulu";
      mkTransaction 1 0 "hbo max refund" 5 "Income" "hbo";
      mkTransaction 1 0 "Hulu again" (-10) "Entertainment" "hulu" ]
  = [ mkInsight "Subscription Overlap Detected"
        "You have multiple streaming subscriptions (netflix, hulu, hbo). Consider consolidating to save $14/month."
        14 SUBSCRIPTION_OVERLAP "/insights/subscriptions" ].
Proof. reflexivity. Qed.

(** ** Part X.  The insight generator: shape of the result *)

Module ShapeFacts.
Import Spec JsString JsNumber JsObject JsArray Insights SortFacts.

Lemma findSubscriptionOverlaps_shape (txs : list Transaction) :
  (List.length (findSubscriptionOverlaps txs) <= 1)%nat
  /\ Forall (fun i => insightType i = SUBSCRIPTION_OVERLAP) (findSubscriptionOverlaps txs).
Proof.
  unfold findSubscriptionOverlaps.
  destruct (fold_left scan_subscription txs ([], [])) as [services subs].
  destruct (3 <=? List.length services)%nat; simpl; split; auto.
Qed.

Lemma findHighYieldSavingsOpportunities_shape (accounts : list Account) :
  (List.length (findHighYieldSavingsOpportunities accounts) <= 1)%nat
  /\ Forall (fun i => insightType i = HIGH_YIELD_SAVINGS)
       (findHighYieldSavingsOpportunities accounts).
Proof.
  unfold findHighYieldSavingsOpportunities.
  destruct (0 <? _)%nat; [|simpl; split; auto].
  destruct (20 <? _)%Z; simpl; split; auto.
Qed.

Lemma compare_category_shape (previous : record slot) (entry : string * slot) :
  Forall (fun i => insightType i = SPENDING_ALERT) (compare_category previous entry).
Proof.
  unfold compare_category. destruct entry as [c [q|]];
    destruct (previous_amount previous c); try constructor.
  destruct (gtb _ _); [|constructor].
  destruct (_ && _); [|constructor].
  destruct (_ && _); repeat constructor.
Qed.

Lemma firstn_In {A} (n : nat) (l : list A) (x : A) : In x (firstn n l) -> In x l.
Proof.
  revert l; induction n as [|n IH]; intros [|y l]; simpl; try tauto.
  intros [->|H]; auto.
Qed.

Lemma findSpendingIncreases_shape (LocalTZA : Z -> Z) (txs : list Transaction) :
  (List.length (findSpendingIncreases LocalTZA txs) <= 3)%nat
  /\ Forall (fun i => insightType i = SPENDING_ALERT) (findSpendingIncreases LocalTZA txs).
Proof.
  unfold findSpendingIncreases.
  destruct (_ <? 2)%nat; [simpl; split; auto|].
  destruct (own_get _ _) as [current|]; [|simpl; split; auto].
  destruct (own_get _ _) as [previous|]; [|simpl; split; auto].
  split; [apply firstn_le_length|].
  apply Forall_forall. intros i Hi.
  apply firstn_In, sort_in, in_flat_map in Hi. destruct Hi as [e [_ Hi]].
  pose proof (compare_category_shape previous e) as H.
  rewrite Forall_forall in H. auto.
Qed.

End ShapeFacts.

Import ShapeFacts.

(** C10.  Whatever the transactions, the accounts and the time zone,
    [generateInsights] returns at most 5 insights: at most 1 of type
    subscription, then at most 1 of type high-yield, then at most 3 of
    type spending-alert. *)
Theorem generateInsights_at_most_five (LocalTZA : Z -> Z)
    (txs : list Transaction) (accounts : list Account) :
  exists subscription highYield alerts,
    generateInsights LocalTZA txs accounts = (subscription ++ highYield ++ alerts)%list
    /\ (List.length subscription <= 1)%nat
    /\ Forall (fun i => insightType i = SUBSCRIPTION_OVERLAP) subscription
    /\ (List.length highYield <= 1)%nat
    /\ Forall (fun i => insightType i = HIGH_YIELD_SAVINGS) highYield
    /\ (List.length alerts <= 3)%nat
    /\ Forall (fun i => insightType i = SPENDING_ALERT) alerts
    /\ (List.length (generateInsights LocalTZA txs accounts) <= 5)%nat.
Proof.
  assert (Hempty : exists subscription highYield alerts : list InsertInsight,
             @nil InsertInsight = (subscription ++ highYield ++ alerts)%list
             /\ (List.length subscription <= 1)%nat
             /\ Forall (fun i => insightType i = SUBSCRIPTION_OVERLAP) subscription
             /\ (List.length highYield <= 1)%nat
             /\ Forall (fun i => insightType i = HIGH_YIELD_SAVINGS) highYield
             /\ (List.length alerts <= 3)%nat
             /\ Forall (fun i => insightType i = SPENDING_ALERT) alerts
             /\ (List.length (@nil InsertInsight) <= 5)%nat).
  { exists [], [], []. simpl. repeat split; auto; lia. }
  destruct txs as [|t txs]; [exact Hempty|].
  destruct accounts as [|a accounts]; [exact Hempty|].
  cbn [generateInsights].
  destruct (findSubscriptionOverlaps_shape (t :: txs)) as [H1 H2].
  destruct (findHighYieldSavingsOpportunities_shape (a :: accounts)) as [H3 H4].
  destruct (findSpendingIncreases_shape LocalTZA (t :: txs)) as [H5 H6].
  eexists _, _, _. split; [reflexivity|].
  repeat split; auto.
  rewrite !length_app. lia.
Qed.

(** ** The recurring-charge detector: time *)

Module ShiftFacts.
Import Spec JsString JsNumber JsDate JsObject JsArray Insights.

Lemma own_get_map_values {V W} (f : V -> W) (k : string) (o : record V) :
  own_get k (map_values f o) = option_map f (own_get k o).
Proof.
  induction o as [|[k' v] o IH]; simpl; [reflexivity|].
  destruct (String.eqb k k'); auto.
Qed.

Lemma own_set_map_values {V W} (f : V -> W) (k : string) (v : V) (o : record V) :
  own_set k (f v) (map_values f o) = map_values f (own_set k v o).
Proof.
  induction o as [|[k' v'] o IH]; simpl; [reflexivity|].
  destruct (String.eqb k k'); simpl; congruence.
Qed.

Lemma entries_map_values {V W} (f : V -> W) (o : record V) :
  entries (map_values f o) = map_values f (entries o).
Proof.
  unfold entries, map_values. rewrite map_app. f_equal.
  - rewrite map_map.
    assert (H : forall l : list (N * (string * V)),
              fold_right insert_index []
                (map (fun e => (fst e, (fst (snd e), f (snd (snd e))))) l)
              = map (fun e => (fst e, (fst (snd e), f (snd (snd e)))))
                  (fold_right insert_index [] l)).
    { induction l as [|e l IH]; simpl; [reflexivity|]. rewrite IH.
      generalize (fold_right insert_index [] l). intros s.
      induction s as [|e' s IHs]; simpl; [reflexivity|].
      destruct (fst e <=? fst e')%N; simpl; congruence. }
    assert (H2 : flat_map (fun e : string * W =>
                             match array_index (fst e) with
                             | Some n => [(n, e)]
                             | None => []
                             end) (map (fun e => (fst e, f (snd e))) o)
                 = map (fun e => (fst e, (fst (snd e), f (snd (snd e)))))
                     (flat_map (fun e : string * V =>
                                  match array_index (fst e) with
                                  | Some n => [(n, e)]
                                  | None => []
                                  end) o)).
    { induction o as [|e o IH]; simpl; [reflexivity|]. rewrite IH.
      destruct (array_index (fst e)); reflexivity. }
    rewrite H2, H, map_map. reflexivity.
  - induction o as [|e o IH]; simpl; [reflexivity|].
    destruct (array_index (fst e)); simpl; congruence.
Qed.

Lemma collect_shift (delta : Z) (items : record RecurringItem) (t : Transaction) :
  collect (map_values (shift_item delta) items) (shift_date delta t)
  = match collect items t with
    | inl e => inl e
    | inr items' => inr (map_values (shift_item delta) items')
    end.
Proof.
  unfold collect. cbn [shift_date amount merchant date category].
  destruct (geb (amount t) 0); [reflexivity|].
  destruct (ltb (Math_abs (amount t)) 5); [reflexivity|].
  rewrite own_get_map_values.
  destruct (own_get (toLowerCase (merchant t)) items) as [item|]; cbn [option_map].
  - set (a := Math_abs (amount t)).
    assert (E : mkItem (dates (shift_item delta item) ++ [(date t + delta)%Z])
                  (amounts (shift_item delta item) ++ [a])
                  (itemCategory (shift_item delta item))
                = shift_item delta
                    (mkItem (dates item ++ [date t]) (amounts item ++ [a])
                       (itemCategory item))).
    { unfold shift_item. cbn [dates amounts itemCategory]. now rewrite map_app. }
    rewrite E, own_set_map_values. reflexivity.
  - destruct (inherited _); [reflexivity|].
    change (mkItem [(date t + delta)%Z] [Math_abs (amount t)] (category t))
      with (shift_item delta (mkItem [date t] [Math_abs (amount t)] (category t))).
    now rewrite own_set_map_values.
Qed.

Lemma collect_all_shift (delta : Z) (txs : list Transaction)
    (items : record RecurringItem) :
  collect_all (map (shift_date delta) txs) (map_values (shift_item delta) items)
  = match collect_all txs items with
    | inl e => inl e
    | inr items' => inr (map_values (shift_item delta) items')
    end.
Proof.
  revert items; induction txs as [|t txs IH]; intros items; simpl; [reflexivity|].
  rewrite collect_shift. destruct (collect items t); [reflexivity | apply IH].
Qed.

Lemma sort_shift (delta : Z) (l : list Z) :
  sort Z.leb (map (fun d => d + delta)%Z l) = map (fun d => d + delta)%Z (sort Z.leb l).
Proof.
  unfold sort. induction l as [|x l IH]; simpl; [reflexivity|]. rewrite IH.
  generalize (fold_right (insert_sorted Z.leb) [] l). intros s.
  induction s as [|y s IHs]; simpl; [reflexivity|].
  replace (x + delta <=? y + delta)%Z with (x <=? y)%Z
    by (destruct (Z.leb_spec x y), (Z.leb_spec (x + delta) (y + delta)); lia).
  destruct (x <=? y)%Z; simpl; congruence.
Qed.

Lemma days_between_loop_shift (delta a : Z) (rest : list Z) (acc : Z) :
  days_between_loop (a + delta) (map (fun d => d + delta)%Z rest) acc
  = days_between_loop a rest acc.
Proof.
  revert a acc; induction rest as [|b rest IH]; intros a acc; simpl; [reflexivity|].
  replace (b + delta - (a + delta))%Z with (b - a)%Z by lia. apply IH.
Qed.

Lemma analyze_shift (delta : Z) (m : string) (item : RecurringItem) :
  analyze (m, shift_item delta item) = analyze (m, item).
Proof.
  unfold analyze, shift_item. cbn [dates amounts itemCategory].
  rewrite length_map, sort_shift, length_map.
  destruct (sort Z.leb (dates item)) as [|a rest]; [reflexivity|].
  cbn [map]. now rewrite days_between_loop_shift.
Qed.

(** The outcome does not depend on when the transactions took place,
    only on how far apart they are. *)
Lemma findRecurringTransactions_shift (delta : Z) (txs : list Transaction) (tf : Q) :
  findRecurringTransactions (map (shift_date delta) txs) tf
  = findRecurringTransactions txs tf.
Proof.
  unfold findRecurringTransactions.
  pose proof (collect_all_shift delta txs []) as H. cbn [map_values map] in H.
  rewrite H. destruct (collect_all txs []) as [e|items]; [reflexivity|].
  f_equal. f_equal. rewrite entries_map_values. unfold map_values.
  rewrite flat_map_concat_map, map_map, <- flat_map_concat_map.
  apply flat_map_ext. intros [m item]. apply analyze_shift.
Qed.

End ShiftFacts.

Import ShiftFacts.

(** C9.  The [timeframeMonths] parameter of [findRecurringTransactions]
    has no effect: any two values of it give the same outcome, a thrown
    error or the same list.  No transaction is filtered by the recency of
    its date: the outcome is the same when every transaction takes place
    the same time later or earlier. *)
Theorem findRecurringTransactions_ignores_timeframe
    (txs : list Transaction) (t1 t2 : Q) :
  findRecurringTransactions txs t1 = findRecurringTransactions txs t2
  /\ forall delta,
       findRecurringTransactions (map (shift_date delta) txs) t1
       = findRecurringTransactions txs t2.
Proof.
  split; [reflexivity|].
  intros delta. apply (findRecurringTransactions_shift delta txs t1).
Qed.

(** ** Part XI.  The insight generator: which months are compared *)

(** C1.  The month keys are the year, a dash and the month number from 0
    to 11 without padding, and they are sorted as strings: the key of
    November, 2024-10, sorts before the key of October, 2024-9.  With
    food spending of $160 in October 2024 and $100 in November 2024 the
    analysis takes October for the current month and November for the
    previous one, and reports an increase of 60 percent although the
    spending went down; with $100 in October and $160 in November, an
    increase of the latest month over the one before it, it reports
    nothing. *)
Theorem findSpendingIncreases_october_after_november :
  let october := utc_midnight 2024 10 15 in
  let november := utc_midnight 2024 11 15 in
  let falling :=
    [ mkTransaction 1 october "Groceries" (-160) "Food" "Market";
      mkTransaction 1 november "Groceries" (-100) "Food" "Market" ] in
  let rising :=
    [ mkTransaction 1 october "Groceries" (-100) "Food" "Market";
      mkTransaction 1 november "Groceries" (-160) "Food" "Market" ] in
  monthYear_of UTC october = "2024-9"
  /\ monthYear_of UTC november = "2024-10"
  /\ sort String.leb (keys (fold_left (add_transaction UTC) falling []))
     = ["2024-10"; "2024-9"]
  /\ findSpendingIncreases UTC falling = [spending_alert "Food" 60 42]
  /\ findSpendingIncreases UTC rising = [].
Proof. vm_compute. repeat split; reflexivity. Qed.

(** ** Part XII.  The CSV parser: errors and amounts *)

Module ParserFacts.
Import Spec JsString JsNumber JsDate JsArray CsvParser NumberFacts SubscriptionFacts.

Section Rows.
Variable legacy : string -> option Z.
Variable headers : list string.
Variable format : CsvFormat.
Variable accountId : Z.

Lemma parse_lines_spec (lines : list string) (i : nat) (result : ParsedCsvResult) :
  parse_lines legacy lines i headers format accountId result =
  mkResult
    (transactions result ++ flat_map (row_transactions legacy headers format accountId) (numbered_rows (S i) lines))%list
    (errors result ++ flat_map (row_errors legacy headers format accountId) (numbered_rows (S i) lines))%list.
Proof.
  revert i result; induction lines as [|l lines IH]; intros i result.
  - destruct result; simpl. now rewrite !app_nil_r.
  - cbn [parse_lines]. unfold numbered_rows in *.
    cbn [List.length seq map combine filter snd].
    destruct (trim l) as [|c s] eqn:El.
    + rewrite IH. reflexivity.
    + cbn [String.eqb negb flat_map].
      unfold row_transactions, row_errors in *. cbn [fst snd].
      destruct (parseCsvLine legacy (String c s) headers format accountId)
        as [message|t]; rewrite IH; cbn [transactions errors];
        rewrite <- ?app_assoc, ?Nat.add_1_r; reflexivity.
Qed.


End Rows.

Lemma parse_row_amount_bank (row : list (string * string)) :
  parse_row_amount row bank =
  match positive_field (row_get row "debit") with
  | Some d => inr (- d)%Q
  | None =>
      match positive_field (row_get row "credit") with
      | Some c => inr c
      | None => inl "Missing or invalid debit/credit values"
      end
  end.
Proof.
  unfold parse_row_amount, positive_field.
  destruct (truthy (row_get row "debit")) as [d|];
    destruct (truthy (row_get row "credit")) as [c|];
    repeat match goal with
           | |- context [parseFloat ?s] => destruct (parseFloat s)
           | |- context [gtb ?q 0] => destruct (gtb q 0) eqn:?
           end; try reflexivity; try discriminate.
Qed.




Lemma parseCsvLine_amount_inv (legacy : string -> option Z) (line : string)
    (headers : list string) (format : CsvFormat) (accountId : Z) (t : Transaction) :
  parseCsvLine legacy line headers format accountId = inr t ->
  parse_row_amount (combine headers (parseCsvValues line)) format = inr (amount t).
Proof.
  unfold parseCsvLine. destruct (_ <? _)%nat; [discriminate|].
  destruct (truthy (row_get _ "date")) as [dateStr|]; [|discriminate].
  destruct (parse_row_date legacy dateStr); [|discriminate].
  destruct (parse_row_amount _ format) as [m|q]; [discriminate|].
  destruct (truthy (option_map trim _)); intros [= <-]; reflexivity.
Qed.

End ParserFacts.

Import ParserFacts.


(** A file with a short row, a bad date and a bad amount among two good
    rows and a blank line. *)
Example parseTransactionCsv_errors_example (legacy : string -> option Z) :
  (forall s, legacy s = None) ->
  parseTransactionCsv legacy
    ("date,description,amount" ++ String LF
     "2024-01-15,Netflix Monthly,-15.99" ++ String LF
     "" ++ String LF
     "x,y" ++ String LF
     "zz,a,1" ++ String LF
     "01/15/2024,Big Uber Eats order now,abc" ++ String LF
     "01/15/2024,Big Uber Eats order now,-5.5") 7
  = mkResult
      [ mkTransaction 7 (utc_midnight 2024 1 15) "Netflix Monthly" (-1599 # 100)
          "Entertainment" "Netflix Monthly";
        mkTransaction 7 (utc_midnight 2024 1 15) "Big Uber Eats order now" (-55 # 10)
          "Food" "Big Uber" ]
      [ "Error on line 4: Line has 2 values but expected 3";
        "Error on line 5: Invalid date: zz";
        "Error on line 6: Invalid amount: abc" ].
Proof.
  intros Hlegacy.
  vm_compute. rewrite !Hlegacy. reflexivity.
Qed.

(** The file with no recognised header. *)
Example parseTransactionCsv_unsupported (legacy : string -> option Z) :
  parseTransactionCsv legacy ("when,what,how much" ++ String LF "2024-01-15,x,1") 7
  = mkResult [] [unsupported_format_error].
Proof. reflexivity. Qed.



(** ** Part XIII.  Objects used as maps *)

Module ObjectFacts.
Import Spec JsObject.

Section Records.
Context {V : Type}.
Implicit Types (o : record V) (k : string) (v : V).

Lemma own_get_set_same k v o : own_get k (own_set k v o) = Some v.
Proof.
  induction o as [|[k' v'] o IH]; simpl.
  - now rewrite String.eqb_refl.
  - destruct (String.eqb k k') eqn:E; simpl; rewrite ?String.eqb_refl, ?E; auto.
Qed.

Lemma own_get_set_other k k' v o :
  k' <> k -> own_get k' (own_set k v o) = own_get k' o.
Proof.
  intros Hne. induction o as [|[k0 v0] o IH]; simpl.
  - apply String.eqb_neq in Hne. now rewrite Hne.
  - destruct (String.eqb_spec k k0) as [->|Hk]; simpl.
    + apply String.eqb_neq in Hne. now rewrite Hne.
    + destruct (String.eqb k' k0); auto.
Qed.

Lemma own_get_In k v o : own_get k o = Some v -> In (k, v) o.
Proof.
  induction o as [|[k' v'] o IH]; simpl; [discriminate|].
  destruct (String.eqb_spec k k') as [->|Hne].
  - intros [= ->]. auto.
  - auto.
Qed.

Lemma own_get_None k o : own_get k o = None <-> ~ In k (map fst o).
Proof.
  induction o as [|[k' v'] o IH]; simpl; [tauto|].
  destruct (String.eqb_spec k k') as [->|Hne].
  - split; [discriminate | intros H; exfalso; auto].
  - rewrite IH. intuition congruence.
Qed.


Lemma own_set_keys k v o :
  map fst (own_set k v o) =
  if existsb (String.eqb k) (map fst o) then map fst o else (map fst o ++ [k])%list.
Proof.
  induction o as [|[k' v'] o IH]; simpl; [reflexivity|].
  destruct (String.eqb k k') eqn:E; simpl.
  - apply String.eqb_eq in E. now subst.
  - rewrite IH. destruct (existsb _ _); reflexivity.
Qed.

Lemma own_set_NoDup k v o : NoDup (map fst o) -> NoDup (map fst (own_set k v o)).
Proof.
  intros Hnd. rewrite own_set_keys.
  destruct (existsb _ _) eqn:E; [exact Hnd|].
  apply NoDup_app; [exact Hnd | repeat constructor; simpl; tauto |].
  intros x Hx [Hk|[]]. subst x.
  assert (existsb (String.eqb k) (map fst o) = true); [|congruence].
  apply existsb_exists. exists k. split; [exact Hx | apply String.eqb_refl].
Qed.

Lemma insert_index_perm (e : N * (string * V)) (l : list (N * (string * V))) :
  Permutation (insert_index e l) (e :: l).
Proof.
  induction l as [|e' l IH]; simpl; [reflexivity|].
  destruct (_ <=? _)%N; [reflexivity|].
  rewrite IH. apply perm_swap.
Qed.

Lemma filter_split {A} (p : A -> bool) (l : list A) :
  Permutation (filter p l ++ filter (fun x => negb (p x)) l) l.
Proof.
  induction l as [|x l IH]; simpl; [reflexivity|].
  destruct (p x); simpl.
  - now constructor.
  - rewrite <- Permutation_middle. now constructor.
Qed.

(** [Object.entries] lists every own property once. *)
Lemma entries_perm o : Permutation (entries o) o.
Proof.
  unfold entries.
  set (indexed := flat_map _ o).
  assert (H1 : Permutation (fold_right insert_index [] indexed) indexed).
  { induction indexed as [|e l IH]; simpl; [reflexivity|].
    rewrite insert_index_perm. now constructor. }
  rewrite H1.
  assert (H2 : map snd indexed =
               filter (fun e => match array_index (fst e) with
                                | Some _ => true
                                | None => false
                                end) o).
  { unfold indexed. clear. induction o as [|e o IH]; simpl; [reflexivity|].
    destruct (array_index (fst e)); simpl; congruence. }
  rewrite H2.
  rewrite <- (filter_split (fun e => match array_index (fst e) with
                                     | Some _ => true
                                     | None => false
                                     end) o) at 3.
  apply Permutation_app_head.
  apply Permutation_refl'. apply filter_ext.
  intros e. destruct (array_index (fst e)); reflexivity.
Qed.


Lemma keys_In o k : In k (keys o) <-> In k (map fst o).
Proof.
  unfold keys. split; apply Permutation_in; [|symmetry];
    apply Permutation_map, entries_perm.
Qed.

End Records.

End ObjectFacts.

(** ** Part XIV.  The insight generator: spending increases *)

Module SpendingFacts.
Import Spec JsString JsNumber JsDate JsObject JsArray Insights.
Import StringFacts SortFacts NumberFacts SubscriptionFacts ObjectFacts.
Local Open Scope Q_scope.

Lemma total_app (l1 l2 : list Q) : total (l1 ++ l2) == total l1 + total l2.
Proof. induction l1 as [|x l1 IH]; simpl; [lra | rewrite IH; lra]. Qed.

Lemma category_total_snoc (items : list (string * Q)) (c c0 : string) (x : Q) :
  category_total (items ++ [(c0, x)]) c ==
  category_total items c + (if String.eqb c0 c then x else 0).
Proof.
  unfold category_total. rewrite filter_app, map_app, total_app. simpl.
  destruct (String.eqb c0 c); simpl; lra.
Qed.

Lemma category_seen_snoc (items : list (string * Q)) (c c0 : string) (x : Q) :
  category_seen (items ++ [(c0, x)]) c <-> category_seen items c \/ c0 = c.
Proof.
  unfold category_seen. split.
  - intros [y Hy]. apply in_app_or in Hy. destruct Hy as [Hy|[[= -> ->]|[]]]; eauto.
  - intros [[y Hy]| ->].
    + exists y. apply in_or_app. auto.
    + exists x. apply in_or_app. simpl. auto.
Qed.

Lemma category_total_unseen (items : list (string * Q)) (c : string) :
  ~ category_seen items c -> category_total items c == 0.
Proof.
  unfold category_seen, category_total. induction items as [|[c' y] items IH]; simpl.
  - reflexivity.
  - intros H. destruct (String.eqb_spec c' c) as [->|Hne].
    + exfalso. apply H. exists y. auto.
    + apply IH. intros [z Hz]. apply H. exists z. auto.
Qed.

Lemma bucket_of_nil : bucket_of [] [].
Proof.
  repeat split; simpl; try constructor; try discriminate.
  intros c _ [x []].
Qed.

Lemma add_spending_bucket (items : list (string * Q)) (data : record slot)
    (c0 : string) (x : Q) :
  bucket_of items data ->
  bucket_of (items ++ [(c0, x)]) (add_spending data c0 x).
Proof.
  intros [Hnd [Hnum Hplain]].
  assert (Hnd' : NoDup (map fst (add_spending data c0 x))).
  { unfold add_spending.
    destruct (own_get c0 data) as [[q|]|];
      repeat match goal with
             | |- context [if ?b then _ else _] => destruct b
             end; auto using own_set_NoDup. }
  split; [exact Hnd'|].
  destruct (inherited c0) eqn:Hc0.
  - (* an inherited member: numbers are untouched *)
    assert (Hsame : forall c, inherited c = false ->
                      own_get c (add_spending data c0 x) = own_get c data).
    { intros c Hc. unfold add_spending.
      assert (c <> c0) by congruence.
      destruct (own_get c0 data) as [[q|]|];
        repeat match goal with
               | |- context [if ?b then _ else _] => destruct b
               end; auto using own_get_set_other. }
    split.
    + intros c q Hget. destruct (inherited c) eqn:Hc; [|reflexivity].
      exfalso. unfold add_spending in Hget.
      destruct (string_dec c c0) as [->|Hne].
      * destruct (own_get c0 data) as [[q0|]|] eqn:E.
        -- apply Hnum in E. congruence.
        -- rewrite own_get_set_same in Hget. discriminate.
        -- rewrite Hc0 in Hget. destruct (String.eqb c0 "__proto__").
           ++ congruence.
           ++ rewrite own_get_set_same in Hget. discriminate.
      * assert (Hget' : own_get c data = Some (VNum q)).
        { destruct (own_get c0 data) as [[q0|]|];
            repeat match type of Hget with
                   | context [if ?b then _ else _] => destruct b
                   end; rewrite ?own_get_set_other in Hget by exact Hne; exact Hget. }
        apply Hnum in Hget'. congruence.
    + intros c Hc. rewrite (Hsame c Hc). specialize (Hplain c Hc).
      assert (Hne : c0 <> c) by congruence.
      destruct (own_get c data) as [[q|]|]; auto.
      * destruct Hplain as [Hs Hq]. split.
        -- apply category_seen_snoc. auto.
        -- rewrite category_total_snoc.
           apply String.eqb_neq in Hne. rewrite Hne. lra.
      * rewrite category_seen_snoc. tauto.
  - (* a plain category *)
    assert (Hget0 : exists q0, own_get c0 (add_spending data c0 x) = Some (VNum q0)
                               /\ q0 == category_total items c0 + x).
    { unfold add_spending. pose proof (Hplain c0 Hc0) as H0.
      destruct (own_get c0 data) as [[q|]|] eqn:E.
      - destruct H0 as [_ Hq]. destruct (Qeq_bool q 0) eqn:Ez.
        + apply Qeq_bool_eq in Ez.
          eexists. split; [apply own_get_set_same|]. lra.
        + eexists. split; [apply own_get_set_same|]. lra.
      - contradiction.
      - rewrite Hc0. eexists. split; [apply own_get_set_same|].
        rewrite (category_total_unseen _ _ H0). lra. }
    assert (Hother : forall c, c <> c0 ->
                       own_get c (add_spending data c0 x) = own_get c data).
    { intros c Hne. unfold add_spending.
      destruct (own_get c0 data) as [[q|]|];
        repeat match goal with
               | |- context [if ?b then _ else _] => destruct b
               end; auto using own_get_set_other. }
    split.
    + intros c q Hget. destruct (string_dec c c0) as [->|Hne]; [exact Hc0|].
      rewrite Hother in Hget by exact Hne. eauto.
    + intros c Hc. destruct (string_dec c c0) as [->|Hne].
      * destruct Hget0 as [q0 [-> Hq0]]. split.
        -- apply category_seen_snoc. auto.
        -- rewrite category_total_snoc, String.eqb_refl. exact Hq0.
      * rewrite Hother by exact Hne. specialize (Hplain c Hc).
        assert (Hne' : c0 <> c) by congruence.
        destruct (own_get c data) as [[q|]|]; auto.
        -- destruct Hplain as [Hs Hq]. split.
           ++ apply category_seen_snoc. auto.
           ++ rewrite category_total_snoc.
              apply String.eqb_neq in Hne'. rewrite Hne'. lra.
        -- rewrite category_seen_snoc. tauto.
Qed.

Section WithZone.
Variable LocalTZA : Z -> Z.


Lemma month_items_seen (txs : list Transaction) (m c : string) :
  category_seen ((month_items LocalTZA) txs m) c <->
  exists t, In t txs /\ (in_month LocalTZA) m t = true /\ category t = c.
Proof.
  unfold category_seen, month_items. split.
  - intros [x Hx]. apply in_map_iff in Hx. destruct Hx as [t [[= <- <-] Ht]].
    apply filter_In in Ht. exists t. tauto.
  - intros [t [Hin [Hm <-]]]. exists (Qabs (amount t)).
    apply in_map_iff. exists t. split; [reflexivity|]. apply filter_In. auto.
Qed.

Lemma add_transaction_months (txs : list Transaction) (B : record (record slot))
    (t : Transaction) :
  (months_of LocalTZA) txs B -> (months_of LocalTZA) (txs ++ [t]) (add_transaction LocalTZA B t).
Proof.
  intros [Hnd Hmonths]. unfold add_transaction.
  assert (Hexp : is_expense t = negb (geb (amount t) 0)) by reflexivity.
  destruct (geb (amount t) 0) eqn:E; simpl in Hexp.
  - split; [exact Hnd|]. intros m. specialize (Hmonths m).
    assert (Hm : (in_month LocalTZA) m t = false) by (unfold in_month; now rewrite Hexp).
    unfold month_items. rewrite filter_app. cbn [filter]. rewrite Hm, app_nil_r.
    exact Hmonths.
  - set (m0 := monthYear_of LocalTZA (date t)).
    split; [now apply own_set_NoDup|]. intros m.
    unfold month_items. rewrite filter_app. cbn [filter].
    destruct (String.eqb_spec m0 m) as [<-|Hne].
    + assert (Hm : (in_month LocalTZA) m0 t = true).
      { unfold in_month. fold m0. now rewrite Hexp, String.eqb_refl. }
      rewrite Hm, own_get_set_same. split.
      * intros H. apply app_eq_nil in H. destruct H; discriminate.
      * rewrite map_app. simpl. apply add_spending_bucket.
        specialize (Hmonths m0). destruct (own_get m0 B) as [data|].
        -- apply Hmonths.
        -- unfold month_items. rewrite Hmonths. apply bucket_of_nil.
    + assert (Hm : (in_month LocalTZA) m t = false).
      { unfold in_month. fold m0. apply String.eqb_neq in Hne.
        now rewrite Hne, andb_false_r. }
      rewrite Hm, own_get_set_other by congruence. rewrite app_nil_r.
      exact (Hmonths m).
Qed.

Lemma spending_by_month_months (txs : list Transaction) :
  (months_of LocalTZA) txs ((spending_by_month LocalTZA) txs).
Proof.
  unfold spending_by_month. induction txs as [|t txs IH] using rev_ind.
  - split; [constructor|]. intros m. reflexivity.
  - rewrite fold_left_app. simpl. now apply add_transaction_months.
Qed.

Lemma findSpendingIncreases_collected (txs : list Transaction) :
  findSpendingIncreases LocalTZA txs
  = firstn 3 (sort by_savings_desc ((collected_alerts LocalTZA) txs)).
Proof.
  unfold findSpendingIncreases, collected_alerts, compared_months, sorted_months,
    spending_by_month.
  destruct (_ <? 2)%nat; [reflexivity|].
  destruct (own_get _ _); [|reflexivity].
  destruct (own_get _ _); reflexivity.
Qed.

Lemma sorted_months_In (txs : list Transaction) (m : string) :
  In m ((sorted_months LocalTZA) txs) <->
  exists t, In t txs /\ (in_month LocalTZA) m t = true.
Proof.
  unfold sorted_months. rewrite sort_in, keys_In.
  destruct (spending_by_month_months txs) as [_ H]. specialize (H m).
  destruct (own_get m ((spending_by_month LocalTZA) txs)) as [data|] eqn:E.
  - split.
    + intros _. destruct H as [H _].
      destruct (filter ((in_month LocalTZA) m) txs) as [|t l] eqn:Ef; [congruence|].
      exists t. apply filter_In. rewrite Ef. simpl. auto.
    + intros _. apply own_get_In in E. apply (in_map fst) in E. exact E.
  - split.
    + intros Hin. apply own_get_None in E. contradiction.
    + intros [t Ht]. apply filter_In in Ht. rewrite H in Ht. destruct Ht.
Qed.

Lemma compared_months_data (txs : list Transaction) (prev cur : string) :
  (compared_months LocalTZA) txs = Some (prev, cur) ->
  exists previousMonthData currentMonthData,
    own_get prev ((spending_by_month LocalTZA) txs) = Some previousMonthData
    /\ own_get cur ((spending_by_month LocalTZA) txs) = Some currentMonthData
    /\ bucket_of ((month_items LocalTZA) txs prev) previousMonthData
    /\ bucket_of ((month_items LocalTZA) txs cur) currentMonthData
    /\ In prev ((sorted_months LocalTZA) txs) /\ In cur ((sorted_months LocalTZA) txs).
Proof.
  unfold compared_months. destruct (_ <? 2)%nat eqn:E; [discriminate|].
  apply Nat.ltb_ge in E. intros [= <- <-].
  assert (Hin : forall k, (k < List.length ((sorted_months LocalTZA) txs))%nat ->
                  In (nth k ((sorted_months LocalTZA) txs) EmptyString) ((sorted_months LocalTZA) txs))
    by (intros; now apply nth_In).
  assert (Hdata : forall m, In m ((sorted_months LocalTZA) txs) ->
            exists data, own_get m ((spending_by_month LocalTZA) txs) = Some data
                         /\ bucket_of ((month_items LocalTZA) txs m) data).
  { intros m Hm. unfold sorted_months in Hm. rewrite sort_in, keys_In in Hm.
    destruct (spending_by_month_months txs) as [_ H]. specialize (H m).
    destruct (own_get m ((spending_by_month LocalTZA) txs)) as [data|] eqn:Eg.
    - exists data. tauto.
    - apply own_get_None in Eg. contradiction. }
  destruct (Hdata _ (Hin (List.length ((sorted_months LocalTZA) txs) - 2)%nat ltac:(lia)))
    as [p [Hp1 Hp2]].
  destruct (Hdata _ (Hin (List.length ((sorted_months LocalTZA) txs) - 1)%nat ltac:(lia)))
    as [c [Hc1 Hc2]].
  exists p, c.
  split; [exact Hp1|]. split; [exact Hc1|]. split; [exact Hp2|]. split; [exact Hc2|].
  split; apply Hin; lia.
Qed.




Lemma compare_category_In (previous : record slot) (c : string) (v : slot)
    (i : InsertInsight) :
  In i (compare_category previous (c, v)) <->
  exists p a,
    previous_amount previous c = Some p /\ v = VNum a
    /\ qualifies p a /\ c <> "Income" /\ c <> "Other" /\ i = alert_for c p a.
Proof.
  unfold compare_category, qualifies, alert_for.
  destruct (previous_amount previous c) as [p|].
  2:{ split; [destruct v; intros [] | intros [p [a [H _]]]; discriminate]. }
  destruct v as [a|].
  2:{ split; [intros [] | intros [p' [a [_ [H _]]]]; discriminate]. }
  destruct (gtb p 50) eqn:E1.
  2:{ split; [intros []|]. intros [p' [a' [[= <-] [[= <-] [[H _] _]]]]].
      apply gtb_gt in H. congruence. }
  apply gtb_gt in E1.
  destruct (20 <=? _)%Z eqn:E2; simpl.
  2:{ split; [intros []|]. intros [p' [a' [[= <-] [[= <-] [[_ [H _]] _]]]]].
      apply Z.leb_gt in E2. lia. }
  apply Z.leb_le in E2.
  destruct (50 <=? _)%Z eqn:E3; simpl.
  2:{ split; [intros []|]. intros [p' [a' [[= <-] [[= <-] [[_ [_ H]] _]]]]].
      apply Z.leb_gt in E3. lia. }
  apply Z.leb_le in E3.
  destruct (String.eqb_spec c "Income") as [->|Hi]; simpl.
  { split; [intros []|]. intros [p' [a' [_ [_ [_ [H _]]]]]]. congruence. }
  destruct (String.eqb_spec c "Other") as [->|Ho]; simpl.
  { split; [intros []|]. intros [p' [a' [_ [_ [_ [_ [H _]]]]]]]. congruence. }
  split.
  - intros [<-|[]]. exists p, a. repeat split; auto.
  - intros [p' [a' [[= <-] [[= <-] [_ [_ [_ ->]]]]]]]. left. reflexivity.
Qed.


Lemma previous_plain (items : list (string * Q)) (data : record slot) (c : string)
    (p : Q) :
  bucket_of items data -> previous_amount data c = Some p -> inherited c = false.
Proof.
  intros [_ [Hnum _]]. unfold previous_amount.
  destruct (own_get c data) as [[q|]|] eqn:E.
  - intros _. eauto.
  - discriminate.
  - destruct (inherited c); [discriminate | reflexivity].
Qed.




End WithZone.

End SpendingFacts.

Import ObjectFacts SpendingFacts.

Local Open Scope Q_scope.




(** ** Part XV.  The recurring-charge detector *)

Module RecurringFacts.
Import Spec JsString JsNumber JsDate JsObject JsArray Insights.
Import StringFacts SortFacts NumberFacts SubscriptionFacts ObjectFacts SpendingFacts.
Local Open Scope Q_scope.
















End RecurringFacts.

Import RecurringFacts.



(** C7.  The detector does what the claim says on the three Spotify
    charges of $9.99, 30 and 31 days apart: monthly, with the average
    9.99.  With one more expense, of $250 at the merchant Constructor,
    it returns nothing at all: the lower-cased merchant names a member
    that the empty object inherits, the test for a missing item reads
    that member and finds it present, and the push on its missing dates
    throws.  The same happens for the merchant __proto__. *)
Theorem findRecurringTransactions_throws_on_constructor :
  let spotify :=
    [ mkTransaction 1 (utc_midnight 2024 1 1) "Spotify Premium" (-999 # 100)
        "Entertainment" "Spotify";
      mkTransaction 1 (utc_midnight 2024 1 31) "Spotify Premium" (-999 # 100)
        "Entertainment" "Spotify";
      mkTransaction 1 (utc_midnight 2024 3 2) "Spotify Premium" (-999 # 100)
        "Entertainment" "Spotify" ] in
  let works :=
    mkTransaction 1 (utc_midnight 2024 3 5) "Site works" (-250) "Housing" "Constructor" in
  let proto :=
    mkTransaction 1 (utc_midnight 2024 3 5) "Prototype" (-250) "Shopping" "__proto__" in
  findRecurringTransactions spotify 3
  = inr [mkRecurring "Spotify" "Entertainment" (999 # 100) "monthly"]
  /\ findRecurringTransactions (spotify ++ [works]) 3 = inl push_of_undefined
  /\ findRecurringTransactions (works :: spotify) 3 = inl push_of_undefined
  /\ findRecurringTransactions (spotify ++ [proto]) 3 = inl push_of_undefined.
Proof. vm_compute. repeat split; reflexivity. Qed.

(** ** Part XVI.  Numerals *)

Module DecimalFacts.
Import Spec JsString JsNumber StringFacts NumberFacts.
Local Open Scope N_scope.

Lemma size_nat_gt (n : N) : n < 2 ^ N.of_nat (N.size_nat n).
Proof.
  destruct n as [|p]; [reflexivity|]. simpl N.size_nat.
  induction p as [p IH|p IH|]; simpl Pos.size_nat.
  - rewrite Nat2N.inj_succ, N.pow_succ_r'. lia.
  - rewrite Nat2N.inj_succ, N.pow_succ_r'. lia.
  - reflexivity.
Qed.

Lemma digits_le_value (fuel : nat) (n : N) :
  n < 2 ^ N.of_nat fuel ->
  le_value (digits_le fuel n) = n
  /\ Forall (fun d => d < 10) (digits_le fuel n)
  /\ (fuel <> O -> digits_le fuel n <> []).
Proof.
  revert n; induction fuel as [|fuel IH]; intros n Hn.
  - simpl in *. repeat split; [lia | constructor | congruence].
  - cbn [digits_le]. destruct (N.ltb_spec n 10) as [Hlt|Hge].
    + simpl. repeat split; [lia | repeat constructor; exact Hlt | discriminate].
    + rewrite Nat2N.inj_succ, N.pow_succ_r' in Hn.
      assert (Hdiv : n / 10 < 2 ^ N.of_nat fuel).
      { apply N.Div0.div_lt_upper_bound. lia. }
      destruct (IH _ Hdiv) as [Hv [Hd _]]. cbn [le_value]. rewrite Hv.
      repeat split.
      * pose proof (N.Div0.div_mod n 10). lia.
      * constructor; [apply N.mod_lt; lia | exact Hd].
      * discriminate.
Qed.

Lemma digit_value_char (d : N) : d < 10 -> digit_value (digit_char d) = d.
Proof.
  intros H. destruct d as [|p]; [reflexivity|].
  do 4 (destruct p as [p|p|]; try reflexivity; try lia).
Qed.

Lemma is_digit_char (d : N) : d < 10 -> is_digit (digit_char d) = true.
Proof.
  intros H. destruct d as [|p]; [reflexivity|].
  do 4 (destruct p as [p|p|]; try reflexivity; try lia).
Qed.

Lemma digits_value_app (s1 s2 : string) (acc : N) :
  digits_value acc (s1 ++ s2) = digits_value (digits_value acc s1) s2.
Proof. revert acc; induction s1; intros acc; simpl; auto. Qed.

Lemma string_of_digits_app (l1 l2 : list N) :
  string_of_digits (l1 ++ l2) = (string_of_digits l1 ++ string_of_digits l2)%string.
Proof. induction l1; simpl; congruence. Qed.

Lemma digits_value_rev (l : list N) (acc : N) :
  Forall (fun d => d < 10) l ->
  digits_value acc (string_of_digits (rev l))
  = acc * 10 ^ N.of_nat (List.length l) + le_value l.
Proof.
  intros Hl. revert acc. induction Hl as [|d l Hd Hl IH]; intros acc.
  - simpl. lia.
  - cbn [rev List.length le_value]. rewrite string_of_digits_app, digits_value_app, IH.
    cbn [string_of_digits digits_value]. rewrite digit_value_char by exact Hd.
    rewrite Nat2N.inj_succ, N.pow_succ_r'. lia.
Qed.

Lemma numeral_digits (l : list N) :
  Forall (fun d => d < 10) l -> numeral (string_of_digits l).
Proof.
  induction 1 as [|d l Hd Hl IH]; intros c; simpl; [tauto|].
  intros [<-|Hc]; [now apply is_digit_char | auto].
Qed.

Lemma string_of_N_numeral (n : N) :
  numeral (string_of_N n) /\ string_of_N n <> EmptyString
  /\ digits_value 0 (string_of_N n) = n.
Proof.
  unfold string_of_N.
  destruct (digits_le_value (S (N.size_nat n)) n) as [Hv [Hd Hne]].
  { rewrite Nat2N.inj_succ, N.pow_succ_r'. pose proof (size_nat_gt n). lia. }
  repeat split.
  - apply numeral_digits. apply Forall_rev. exact Hd.
  - intros H. apply Hne; [discriminate|]. apply (f_equal String.length) in H.
    destruct (digits_le (S (N.size_nat n)) n) as [|d l]; [reflexivity|].
    simpl in H. rewrite string_of_digits_app, append_length in H. simpl in H. lia.
  - rewrite digits_value_rev by exact Hd. rewrite Hv. lia.
Qed.

Lemma pad2_numeral (n : N) :
  numeral (pad2 n) /\ (n < 100 -> digits_value 0 (pad2 n) = n).
Proof.
  assert (H1 : (n / 10) mod 10 < 10) by (apply N.mod_lt; lia).
  assert (H2 : n mod 10 < 10) by (apply N.mod_lt; lia).
  split.
  - intros c [<-|[<-|[]]]; now apply is_digit_char.
  - intros Hn. unfold pad2. cbn [digits_value].
    rewrite !digit_value_char by assumption.
    rewrite N.mod_small by (apply N.Div0.div_lt_upper_bound; lia).
    pose proof (N.Div0.div_mod n 10). lia.
Qed.

Lemma span_digits_numeral (s rest : string) :
  numeral s ->
  match rest with
  | EmptyString => True
  | String c _ => is_digit c = false
  end ->
  span_digits (s ++ rest) = (s, rest).
Proof.
  intros Hs Hrest. induction s as [|c s IH]; simpl.
  - destruct rest as [|c r]; [reflexivity|]. simpl. now rewrite Hrest.
  - rewrite (Hs c) by (simpl; auto). rewrite IH; [reflexivity|].
    intros c' Hc'. apply Hs. simpl. auto.
Qed.

Lemma numeral_app (s1 s2 : string) : numeral s1 -> numeral s2 -> numeral (s1 ++ s2).
Proof.
  intros H1 H2. induction s1 as [|c s1 IH]; simpl; [exact H2|].
  intros c' [<-|Hc'].
  - apply H1. simpl. auto.
  - apply IH; [|exact Hc']. intros x Hx. apply H1. simpl. auto.
Qed.

Lemma digit_not_space (c : ascii) :
  is_digit c = true ->
  is_space c = false /\ Ascii.eqb c "-" = false /\ Ascii.eqb c "+" = false
  /\ Ascii.eqb c dquote = false /\ Ascii.eqb c "," = false /\ Ascii.eqb c LF = false.
Proof.
  destruct c as [[] [] [] [] [] [] [] []]; intros H; try discriminate H;
    repeat split; reflexivity.
Qed.

Lemma numeral_head (s : string) :
  numeral s -> s <> EmptyString ->
  exists c r, s = String c r /\ is_digit c = true.
Proof.
  destruct s as [|c r]; [congruence|]. intros H _.
  exists c, r. split; [reflexivity|]. apply H. simpl. auto.
Qed.

(** [parseFloat] on a decimal numeral with a fraction. *)
Lemma parseFloat_decimal (neg : bool) (ip fp : string) :
  numeral ip -> ip <> EmptyString -> numeral fp ->
  parseFloat ((if neg then String "-" ip else ip) ++ String "." fp) =
  Some (inject_Z (let m := Z.of_N (digits_value 0 (ip ++ fp)) in
                  if neg then (- m)%Z else m)
        * pow10 (0 - Z.of_nat (String.length fp)))%Q.
Proof.
  intros Hip Hne Hfp.
  destruct (numeral_head ip Hip Hne) as [c [r [Eip Hc]]].
  destruct (digit_not_space c Hc) as [Hsp [Hminus [Hplus _]]].
  assert (Hspan1 : span_digits (ip ++ String "." fp) = (ip, String "." fp)).
  { apply span_digits_numeral; [exact Hip | reflexivity]. }
  assert (Hspan2 : span_digits fp = (fp, EmptyString)).
  { rewrite <- (append_nil_r fp) at 1. now apply span_digits_numeral. }
  assert (Hsign : read_sign (trimStart ((if neg then String "-" ip else ip)
                                        ++ String "." fp))
                  = (neg, (ip ++ String "." fp)%string)).
  { destruct neg; [reflexivity|]. rewrite Eip. simpl. rewrite Hsp.
    unfold read_sign. now rewrite Hminus, Hplus. }
  unfold parseFloat. rewrite Hsign, Hspan1. cbn [Ascii.eqb Bool.eqb].
  change (Ascii.eqb "." ".") with true. cbv iota. rewrite Hspan2.
  destruct (ip ++ fp)%string as [|c' r'] eqn:E.
  { rewrite Eip in E. discriminate. }
  reflexivity.
Qed.

Lemma toFixed2_cents (x : Q) (n : Z) :
  (x == n # 100)%Q ->
  toFixed2 x =
  ((if (n <? 0)%Z then String "-" (string_of_N (Z.abs_N n / 100))
    else string_of_N (Z.abs_N n / 100))
   ++ String "." (pad2 (Z.abs_N n mod 100)))%string.
Proof.
  intros Hx. unfold toFixed2.
  assert (Hk : Z.to_N (Qfloor (Qabs x * 100 + (1 # 2))) = Z.abs_N n).
  { assert (Hr : Math_round (Qabs x * 100) = Z.abs n).
    { apply Math_round_spec. rewrite Hx.
      assert (Habs : (Qabs (n # 100) * 100 == inject_Z (Z.abs n))%Q).
      { unfold Qabs, Qeq, Qmult, inject_Z. simpl. lia. }
      rewrite Habs. split; lra. }
    unfold Math_round in Hr. rewrite Hr. lia. }
  rewrite Hk.
  assert (Hneg : ltb x 0 = (n <? 0)%Z).
  { destruct (Z.ltb_spec n 0) as [Hlt|Hge].
    - apply ltb_lt. rewrite Hx. unfold Qlt. simpl. lia.
    - apply ltb_ge. rewrite Hx. unfold Qle. simpl. lia. }
  rewrite Hneg. destruct (n <? 0)%Z; reflexivity.
Qed.

(** The amount written with two decimals and read back. *)
Lemma parseFloat_toFixed2 (x : Q) (n : Z) :
  (x == n # 100)%Q -> exists q, parseFloat (toFixed2 x) = Some q /\ (q == x)%Q.
Proof.
  intros Hx. rewrite (toFixed2_cents x n Hx).
  destruct (string_of_N_numeral (Z.abs_N n / 100)) as [Hnum [Hne Hval]].
  destruct (pad2_numeral (Z.abs_N n mod 100)) as [Hpad Hpadv].
  rewrite (parseFloat_decimal (n <? 0)%Z _ _ Hnum Hne Hpad).
  eexists. split; [reflexivity|].
  rewrite digits_value_app, Hval.
  assert (Hm : digits_value (Z.abs_N n / 100) (pad2 (Z.abs_N n mod 100)) = Z.abs_N n).
  { unfold pad2. cbn [digits_value].
    assert (H1 : (Z.abs_N n mod 100 / 10) mod 10 < 10) by (apply N.mod_lt; lia).
    assert (H2 : (Z.abs_N n mod 100) mod 10 < 10) by (apply N.mod_lt; lia).
    rewrite !digit_value_char by assumption.
    assert (H3 : Z.abs_N n mod 100 < 100) by (apply N.mod_lt; lia).
    rewrite (N.mod_small (Z.abs_N n mod 100 / 10))
      by (apply N.Div0.div_lt_upper_bound; lia).
    pose proof (N.Div0.div_mod (Z.abs_N n mod 100) 10).
    pose proof (N.Div0.div_mod (Z.abs_N n) 100). lia. }
  cbv zeta. rewrite Hm, Hx. simpl String.length.
  change (pow10 (0 - Z.of_nat 2)) with (1 # 100)%Q.
  rewrite N2Z.inj_abs_N.
  destruct (Z.ltb_spec n 0); unfold Qeq, Qmult, inject_Z; simpl; lia.
Qed.

End DecimalFacts.

(** ** Part XVII.  Calendar dates *)

Module DateFacts.
Import Spec JsString JsNumber JsDate StringFacts DecimalFacts.
Local Open Scope Z_scope.

Lemma all_in_spec (f : Z -> bool) (len : positive) (start z : Z) :
  all_in f start len = true -> start <= z < start + Zpos len -> f z = true.
Proof.
  revert start; induction len as [p IH|p IH|]; intros start; simpl.
  - rewrite !andb_true_iff. intros [[H0 H1] H2] Hz.
    destruct (Z.eq_dec z start) as [->|Hne]; [exact H0|].
    destruct (Z_lt_le_dec z (start + 1 + Zpos p)).
    + apply (IH (start + 1)); [exact H1 | lia].
    + apply (IH (start + 1 + Zpos p)); [exact H2 | lia].
  - rewrite !andb_true_iff. intros [H1 H2] Hz.
    destruct (Z_lt_le_dec z (start + Zpos p)).
    + apply (IH start); [exact H1 | lia].
    + apply (IH (start + Zpos p)); [exact H2 | lia].
  - intros H Hz. replace z with start by lia. exact H.
Qed.

(** The 146097 days of the era that starts on the 1st of March of the
    year 0, one by one. *)
Lemma era_dates_ok : all_in date_ok (-719468) 146097 = true.
Proof. vm_compute. reflexivity. Qed.

Lemma civil_from_days_shift (z k : Z) :
  civil_from_days (z + k * 146097) =
  let '(y, m, d) := civil_from_days z in (y + k * 400, m, d).
Proof.
  unfold civil_from_days. cbv zeta.
  replace (z + k * 146097 + 719468) with (z + 719468 + k * 146097) by lia.
  rewrite Z.div_add by lia.
  set (e := (z + 719468) / 146097).
  replace (z + 719468 + k * 146097 - (e + k) * 146097)
    with (z + 719468 - e * 146097) by lia.
  set (doe := z + 719468 - e * 146097).
  set (yoe := (doe - doe / 1460 + doe / 36524 - doe / 146096) / 365).
  set (doy := doe - (365 * yoe + yoe / 4 - yoe / 100)).
  set (mp := (5 * doy + 2) / 153).
  destruct ((if mp <? 10 then mp + 3 else mp - 9) <=? 2).
  - replace (yoe + (e + k) * 400 + 1) with (yoe + e * 400 + 1 + k * 400) by lia.
    reflexivity.
  - replace (yoe + (e + k) * 400) with (yoe + e * 400 + k * 400) by lia.
    reflexivity.
Qed.

Lemma days_from_civil_shift (y m d k : Z) :
  days_from_civil (y + k * 400) m d = days_from_civil y m d + k * 146097.
Proof.
  unfold days_from_civil. cbv zeta.
  assert (H : forall a, (a + k * 400) / 400 = a / 400 + k)
    by (intros; apply Z.div_add; lia).
  destruct (m <=? 2).
  - replace (y + k * 400 - 1) with (y - 1 + k * 400) by lia. rewrite H.
    replace (y - 1 + k * 400 - ((y - 1) / 400 + k) * 400)
      with (y - 1 - (y - 1) / 400 * 400) by lia.
    lia.
  - rewrite H.
    replace (y + k * 400 - (y / 400 + k) * 400) with (y - y / 400 * 400) by lia.
    lia.
Qed.

Lemma is_leap_shift (y k : Z) : is_leap (y + k * 400) = is_leap y.
Proof.
  unfold is_leap.
  replace ((y + k * 400) mod 4) with (y mod 4)
    by (replace (k * 400) with (k * 100 * 4) by ring; now rewrite Z.mod_add).
  replace ((y + k * 400) mod 100) with (y mod 100)
    by (replace (k * 400) with (k * 4 * 100) by ring; now rewrite Z.mod_add).
  now rewrite Z.mod_add.
Qed.

Lemma days_in_month_shift (y m k : Z) :
  days_in_month (y + k * 400) m = days_in_month y m.
Proof. unfold days_in_month. now rewrite is_leap_shift. Qed.

(** Every day number has a calendar date, which exists, and is the day
    number of that date; its year is in the 400 years of its era. *)
Lemma civil_from_days_ok (z : Z) :
  let '(y, m, d) := civil_from_days z in
  days_from_civil y m d = z
  /\ 1 <= m <= 12 /\ 1 <= d <= days_in_month y m
  /\ 0 <= y - (z + 719468) / 146097 * 400 <= 400.
Proof.
  set (k := (z + 719468) / 146097).
  set (z0 := z - k * 146097).
  assert (Hz0 : -719468 <= z0 < -719468 + 146097).
  { unfold z0, k. pose proof (Z.mod_pos_bound (z + 719468) 146097 eq_refl).
    pose proof (Z.div_mod (z + 719468) 146097). lia. }
  pose proof (all_in_spec date_ok 146097 (-719468) z0 era_dates_ok Hz0) as Hok.
  replace z with (z0 + k * 146097) by (unfold z0; ring).
  rewrite civil_from_days_shift. unfold date_ok in Hok.
  destruct (civil_from_days z0) as [[y m] d].
  rewrite !andb_true_iff, !Z.leb_le, Z.eqb_eq in Hok.
  rewrite days_from_civil_shift, days_in_month_shift. lia.
Qed.

(** The day number of a time value that a [Date] can hold, and its year. *)
Lemma valid_time_day (t : Z) :
  valid_time t -> -100000000 <= Day t <= 100000000.
Proof.
  unfold valid_time, maxTime, Day, msPerDay. intros [H1 H2]. split.
  - apply Z.div_le_lower_bound; lia.
  - apply Z.div_le_upper_bound; lia.
Qed.

Lemma valid_time_year (t : Z) :
  valid_time t ->
  let '(y, _, _) := civil_from_days (Day t) in -272000 <= y <= 276000.
Proof.
  intros Ht. pose proof (valid_time_day t Ht) as Hd.
  pose proof (civil_from_days_ok (Day t)) as Hok.
  destruct (civil_from_days (Day t)) as [[y m] d].
  destruct Hok as [_ [_ [_ Hy]]].
  assert (H1 : -680 <= (Day t + 719468) / 146097)
    by (apply Z.div_le_lower_bound; lia).
  assert (H2 : (Day t + 719468) / 146097 < 690)
    by (apply Z.div_lt_upper_bound; lia).
  lia.
Qed.

Lemma all_digits_numeral (s : string) : numeral s -> all_digits s = true.
Proof.
  intros H. unfold all_digits. rewrite <- (append_nil_r s).
  now rewrite (span_digits_numeral s EmptyString H I).
Qed.

Lemma digits_value_acc (s : string) (acc : N) :
  digits_value acc s = (acc * 10 ^ N.of_nat (String.length s) + digits_value 0 s)%N.
Proof.
  revert acc; induction s as [|c s IH]; intros acc.
  - simpl. lia.
  - cbn [digits_value String.length]. rewrite IH, (IH (0 * 10 + digit_value c)%N).
    rewrite Nat2N.inj_succ, N.pow_succ_r'. lia.
Qed.

Lemma pad4_numeral (n : N) :
  numeral (pad4 n) /\ ((n < 10000)%N -> digits_value 0 (pad4 n) = n).
Proof.
  unfold pad4. split.
  - apply numeral_app; apply pad2_numeral.
  - intros Hn. rewrite digits_value_app, digits_value_acc.
    rewrite !(proj2 (pad2_numeral _))
      by first [apply N.Div0.div_lt_upper_bound; lia | apply N.mod_lt; lia].
    change (10 ^ N.of_nat (String.length (pad2 (n mod 100))))%N with 100%N.
    pose proof (N.Div0.div_mod n 100). lia.
Qed.

(** The six digits of an expanded year. *)
Lemma pad6_numeral (n : N) :
  numeral (pad2 (n / 10000) ++ pad4 (n mod 10000))
  /\ ((n < 1000000)%N ->
      digits_value 0 (pad2 (n / 10000) ++ pad4 (n mod 10000)) = n).
Proof.
  split.
  - apply numeral_app; [apply pad2_numeral | apply pad4_numeral].
  - intros Hn. rewrite digits_value_app, digits_value_acc.
    rewrite (proj2 (pad2_numeral _)) by (apply N.Div0.div_lt_upper_bound; lia).
    rewrite (proj2 (pad4_numeral _)) by (apply N.mod_lt; lia).
    change (10 ^ N.of_nat (String.length (pad4 (n mod 10000))))%N with 10000%N.
    pose proof (N.Div0.div_mod n 10000). lia.
Qed.

Lemma calendar_date_padded (y : Z) (m d : N) :
  (m < 100)%N -> (d < 100)%N ->
  calendar_date y (pad2 m) (pad2 d) =
  if (1 <=? Z.of_N m) && (Z.of_N m <=? 12) && (1 <=? Z.of_N d)
     && (Z.of_N d <=? days_in_month y (Z.of_N m))
     && (Z.abs (days_from_civil y (Z.of_N m) (Z.of_N d) * msPerDay) <=? maxTime)
  then Some (days_from_civil y (Z.of_N m) (Z.of_N d) * msPerDay)
  else None.
Proof.
  intros Hm Hd. unfold calendar_date.
  rewrite !all_digits_numeral by apply pad2_numeral.
  rewrite (proj2 (pad2_numeral m) Hm), (proj2 (pad2_numeral d) Hd).
  reflexivity.
Qed.

(** The year of the ISO format is read back, with the month and the day
    that follow it. *)
Lemma parse_iso_year (y : Z) (m d : N) :
  -1000000 < y < 1000000 ->
  parse_iso_date (iso_year y ++ String "-" (pad2 m) ++ String "-" (pad2 d)) =
  calendar_date y (pad2 m) (pad2 d).
Proof.
  intros Hy. unfold iso_year, parse_iso_date.
  destruct ((0 <=? y) && (y <=? 9999)) eqn:E.
  - apply andb_true_iff in E. rewrite !Z.leb_le in E.
    change (String.length (pad4 (Z.to_N y) ++ String "-" (pad2 m) ++ String "-" (pad2 d)))
      with 10%nat.
    cbn [Nat.eqb].
    change (substring 0 4 (pad4 (Z.to_N y) ++ String "-" (pad2 m) ++ String "-" (pad2 d)))
      with (pad4 (Z.to_N y)).
    change (substring 5 2 (pad4 (Z.to_N y) ++ String "-" (pad2 m) ++ String "-" (pad2 d)))
      with (pad2 m).
    change (substring 8 2 (pad4 (Z.to_N y) ++ String "-" (pad2 m) ++ String "-" (pad2 d)))
      with (pad2 d).
    change (substring 4 1 (pad4 (Z.to_N y) ++ String "-" (pad2 m) ++ String "-" (pad2 d)))
      with "-"%string.
    change (substring 7 1 (pad4 (Z.to_N y) ++ String "-" (pad2 m) ++ String "-" (pad2 d)))
      with "-"%string.
    rewrite all_digits_numeral by apply pad4_numeral.
    cbn [andb String.eqb Ascii.eqb Bool.eqb].
    rewrite (proj2 (pad4_numeral (Z.to_N y))) by lia.
    now rewrite Z2N.id by lia.
  - set (a := Z.to_N (Z.abs y)).
    set (sign := if y <? 0 then "-"%char else "+"%char).
    set (ys := (pad2 (a / 10000) ++ pad4 (a mod 10000))%string).
    change (String.length (String sign ys ++ String "-" (pad2 m) ++ String "-" (pad2 d)))
      with 13%nat.
    cbn [Nat.eqb].
    change (substring 0 1 (String sign ys ++ String "-" (pad2 m) ++ String "-" (pad2 d)))
      with (String sign EmptyString).
    change (substring 1 6 (String sign ys ++ String "-" (pad2 m) ++ String "-" (pad2 d)))
      with ys.
    change (substring 8 2 (String sign ys ++ String "-" (pad2 m) ++ String "-" (pad2 d)))
      with (pad2 m).
    change (substring 11 2 (String sign ys ++ String "-" (pad2 m) ++ String "-" (pad2 d)))
      with (pad2 d).
    change (substring 7 1 (String sign ys ++ String "-" (pad2 m) ++ String "-" (pad2 d)))
      with "-"%string.
    change (substring 10 1 (String sign ys ++ String "-" (pad2 m) ++ String "-" (pad2 d)))
      with "-"%string.
    unfold ys at 1. rewrite all_digits_numeral by apply pad6_numeral.
    unfold ys. rewrite (proj2 (pad6_numeral a)) by (unfold a; lia).
    apply andb_false_iff in E. rewrite !Z.leb_gt in E.
    unfold sign. destruct (Z.ltb_spec y 0) as [Hneg|Hpos].
    + assert (Ha : (Z.of_N a =? 0) = false) by (apply Z.eqb_neq; unfold a; lia).
      rewrite Ha. cbn [andb orb negb String.eqb Ascii.eqb Bool.eqb].
      replace (- Z.of_N a) with y by (unfold a; lia). reflexivity.
    + cbn [andb orb negb String.eqb Ascii.eqb Bool.eqb].
      replace (Z.of_N a) with y by (unfold a; lia). reflexivity.
Qed.

Lemma days_in_month_le (y m : Z) : days_in_month y m <= 31.
Proof.
  unfold days_in_month.
  repeat match goal with |- context [if ?b then _ else _] => destruct b end; lia.
Qed.

(** The date of the export is read back as the UTC midnight of its day. *)
Lemma parse_toISODate (t : Z) :
  valid_time t -> parse_iso_date (toISODate t) = Some (Day t * msPerDay).
Proof.
  intros Ht. unfold toISODate.
  pose proof (civil_from_days_ok (Day t)) as Hok.
  pose proof (valid_time_year t Ht) as Hy.
  pose proof (valid_time_day t Ht) as Hday.
  destruct (civil_from_days (Day t)) as [[y m] d].
  destruct Hok as [Heq [Hm [Hd _]]].
  pose proof (days_in_month_le y m) as Hdm.
  rewrite parse_iso_year by lia.
  rewrite calendar_date_padded by lia.
  rewrite !Z2N.id by lia. rewrite Heq.
  assert (E : (1 <=? m) && (m <=? 12) && (1 <=? d) && (d <=? days_in_month y m)
              && (Z.abs (Day t * msPerDay) <=? maxTime) = true).
  { rewrite !andb_true_iff, !Z.leb_le. unfold maxTime, msPerDay. lia. }
  now rewrite E.
Qed.

End DateFacts.

(** ** Part XVIII.  The CSV export read back *)

Module CsvFacts.
Import Spec JsString JsNumber JsDate JsArray Categorize CsvParser.
Import StringFacts NumberFacts DateFacts DecimalFacts ParserFacts.

Lemma all_chars_nil (p : ascii -> bool) : all_chars p EmptyString.
Proof. intros c []. Qed.

Lemma all_chars_cons (p : ascii -> bool) (c : ascii) (s : string) :
  all_chars p (String c s) <-> p c = true /\ all_chars p s.
Proof.
  unfold all_chars. simpl. split.
  - intros H. split; [apply H; auto | intros c' Hc'; apply H; auto].
  - intros [H1 H2] c' [<-|Hc']; auto.
Qed.

Lemma all_chars_app (p : ascii -> bool) (s1 s2 : string) :
  all_chars p (s1 ++ s2) <-> all_chars p s1 /\ all_chars p s2.
Proof.
  induction s1 as [|c s1 IH]; simpl.
  - split; [intros H; split; [apply all_chars_nil | exact H] | tauto].
  - rewrite !all_chars_cons, IH. tauto.
Qed.

Lemma all_chars_weaken (p q : ascii -> bool) (s : string) :
  (forall c, p c = true -> q c = true) -> all_chars p s -> all_chars q s.
Proof. intros Hpq H c Hc. auto. Qed.

Lemma numeric_char_bare (c : ascii) :
  numeric_char c = true -> bare c = true /\ is_space c = false.
Proof.
  destruct c as [[] [] [] [] [] [] [] []]; intros H; try discriminate H;
    split; reflexivity.
Qed.

Lemma numeral_numeric (s : string) : numeral s -> all_chars numeric_char s.
Proof.
  apply all_chars_weaken. intros c Hc. unfold numeric_char. now rewrite Hc.
Qed.

Lemma split_lines_nonempty (s : string) : split_lines s <> [].
Proof.
  induction s as [|c s IH]; simpl; [discriminate|].
  destruct (split_lines s) as [|w ws]; [contradiction|].
  destruct (Ascii.eqb c LF); [discriminate|].
  destruct (_ && _); discriminate.
Qed.

Lemma split_lines_cons (c : ascii) (r : string) :
  split_lines (String c r) =
  match split_lines r with
  | [] => [EmptyString]
  | w :: ws =>
      if Ascii.eqb c LF then EmptyString :: w :: ws
      else if Ascii.eqb c CR && String.prefix (String LF EmptyString) r then w :: ws
      else String c w :: ws
  end.
Proof. reflexivity. Qed.

(** A line that holds no line feed and does not end in a carriage
    return is split off as it is. *)
Lemma split_lines_line (a : string) (q : ascii) (b : string) :
  all_chars (not_char LF) a -> not_char LF q = true -> not_char CR q = true ->
  split_lines ((a ++ String q EmptyString) ++ String LF b)
  = (a ++ String q EmptyString) :: split_lines b.
Proof.
  intros Ha Hq1 Hq2. unfold not_char in *. rewrite negb_true_iff in Hq1, Hq2.
  assert (Hb : split_lines (String LF b) = EmptyString :: split_lines b).
  { rewrite split_lines_cons. destruct (split_lines b) as [|w ws] eqn:E.
    - now apply split_lines_nonempty in E.
    - reflexivity. }
  induction a as [|c a IH].
  - cbn [append]. rewrite split_lines_cons, Hb, Hq1, Hq2. reflexivity.
  - apply all_chars_cons in Ha. destruct Ha as [Hc Ha]. specialize (IH Ha).
    cbn [append]. rewrite split_lines_cons. cbn [append] in IH. rewrite IH.
    rewrite negb_true_iff in Hc. rewrite Hc.
    assert (Hp : prefix (String LF EmptyString) ((a ++ String q EmptyString) ++ String LF b)
                 = false).
    { destruct (prefix _ _) eqn:E; [|reflexivity].
      apply prefix_iff in E. destruct E as [b' Hb'].
      destruct a as [|c' a']; simpl in Hb'; injection Hb' as Hb' _.
      - subst q. discriminate Hq1.
      - apply all_chars_cons in Ha. destruct Ha as [Hc' _].
        rewrite negb_true_iff in Hc'. subst c'. discriminate Hc'. }
    rewrite Hp, andb_false_r. reflexivity.
Qed.

Lemma trimEnd_app (a b : string) :
  trimEnd b = b -> b <> EmptyString -> trimEnd (a ++ b) = a ++ b.
Proof.
  intros Hb Hne. induction a as [|c a IH]; simpl; [exact Hb|].
  rewrite IH. destruct (a ++ b) eqn:E; [|reflexivity].
  destruct a; simpl in E; [contradiction | discriminate].
Qed.

Lemma trim_ends (c : ascii) (a : string) (q : ascii) :
  is_space c = false -> is_space q = false ->
  trim (String c (a ++ String q EmptyString)) = String c (a ++ String q EmptyString).
Proof.
  intros Hc Hq. unfold trim. cbn [trimStart]. rewrite Hc.
  change (String c (a ++ String q EmptyString))
    with ((String c a) ++ String q EmptyString).
  apply trimEnd_app; [|discriminate]. simpl. now rewrite Hq.
Qed.

Lemma trim_no_space (s : string) :
  all_chars (fun c => negb (is_space c)) s -> trim s = s.
Proof.
  intros H. unfold trim.
  assert (H1 : trimStart s = s).
  { destruct s as [|c s]; [reflexivity|]. apply all_chars_cons in H.
    destruct H as [Hc _]. rewrite negb_true_iff in Hc. simpl. now rewrite Hc. }
  rewrite H1. clear H1. induction s as [|c s IH]; [reflexivity|].
  apply all_chars_cons in H. destruct H as [Hc Hs]. rewrite negb_true_iff in Hc.
  simpl. rewrite (IH Hs), Hc. destruct s; reflexivity.
Qed.

Lemma double_quotes_id (s : string) :
  all_chars (not_char dquote) s -> double_quotes s = s.
Proof.
  induction s as [|c s IH]; intros H; [reflexivity|].
  apply all_chars_cons in H. destruct H as [Hc Hs].
  unfold not_char in Hc. rewrite negb_true_iff in Hc.
  simpl. rewrite Hc. f_equal. auto.
Qed.

(** The character loop over an unquoted stretch without commas, and
    over a quoted stretch. *)
Lemma loop_bare (s rest : string) (values : list string) (cur : string) :
  all_chars bare s ->
  parseCsvValues_loop (s ++ rest) values cur false
  = parseCsvValues_loop rest values (cur ++ s) false.
Proof.
  revert cur; induction s as [|c s IH]; intros cur H.
  - now rewrite append_nil_r.
  - apply all_chars_cons in H. destruct H as [Hc Hs].
    unfold bare, not_char in Hc. rewrite !andb_true_iff, !negb_true_iff in Hc.
    destruct Hc as [[Hq Hcomma] _].
    cbn [append parseCsvValues_loop]. rewrite Hq, Hcomma. cbn [andb].
    rewrite IH by exact Hs. now rewrite append_assoc.
Qed.

Lemma loop_quoted (s rest : string) (values : list string) (cur : string) :
  all_chars quotable s ->
  parseCsvValues_loop (s ++ rest) values cur true
  = parseCsvValues_loop rest values (cur ++ s) true.
Proof.
  revert cur; induction s as [|c s IH]; intros cur H.
  - now rewrite append_nil_r.
  - apply all_chars_cons in H. destruct H as [Hc Hs].
    unfold quotable, not_char in Hc. rewrite !andb_true_iff, !negb_true_iff in Hc.
    destruct Hc as [Hq _].
    cbn [append parseCsvValues_loop]. rewrite Hq. cbn [negb andb].
    rewrite andb_false_r.
    rewrite IH by exact Hs. now rewrite append_assoc.
Qed.

Ltac csv_step :=
  cbn [append parseCsvValues_loop Ascii.eqb Bool.eqb andb negb app dquote].

(** The values of a line of five fields, the second and the fifth in
    quotes. *)
Lemma parseCsvValues_line (d desc amt cat merch : string) :
  all_chars bare d -> all_chars quotable desc -> all_chars bare amt ->
  all_chars bare cat -> all_chars quotable merch ->
  parseCsvValues
    (d ++ String "," (String dquote (desc ++ String dquote (String ","
       (amt ++ String "," (cat ++ String "," (String dquote
          (merch ++ String dquote EmptyString))))))))
  = [trim d; trim desc; trim amt; trim cat; trim merch].
Proof.
  intros Hd Hdesc Hamt Hcat Hmerch. unfold parseCsvValues.
  rewrite loop_bare by exact Hd. csv_step.
  rewrite loop_quoted by exact Hdesc. csv_step.
  rewrite loop_bare by exact Hamt. csv_step.
  rewrite loop_bare by exact Hcat. csv_step.
  rewrite loop_quoted by exact Hmerch. csv_step.
  reflexivity.
Qed.

Lemma iso_year_chars (y : Z) :
  all_chars numeric_char (iso_year y)
  /\ exists c r, iso_year y = String c r /\ is_space c = false.
Proof.
  unfold iso_year. destruct ((0 <=? y)%Z && (y <=? 9999)%Z).
  - split.
    + apply numeral_numeric. apply pad4_numeral.
    + unfold pad4, pad2. cbn [append]. eexists _, _. split; [reflexivity|].
      apply digit_not_space. apply is_digit_char. apply N.mod_lt. lia.
  - split.
    + rewrite all_chars_cons. split; [now destruct (y <? 0)%Z|].
      apply numeral_numeric. apply pad6_numeral.
    + eexists _, _. split; [reflexivity|]. now destruct (y <? 0)%Z.
Qed.

Lemma toISODate_chars (t : Z) :
  all_chars numeric_char (toISODate t)
  /\ exists c r, toISODate t = String c r /\ is_space c = false.
Proof.
  unfold toISODate. destruct (civil_from_days (Day t)) as [[y m] d].
  destruct (iso_year_chars y) as [Hy [c [r [E Hc]]]]. split.
  - rewrite !all_chars_app, !all_chars_cons.
    repeat split; try reflexivity; try exact Hy;
      apply numeral_numeric; apply pad2_numeral.
  - rewrite E. cbn [append]. eauto.
Qed.

Lemma toFixed2_chars (x : Q) : whole_cents x -> all_chars numeric_char (toFixed2 x).
Proof.
  intros [n Hn]. rewrite (toFixed2_cents x n Hn).
  destruct (string_of_N_numeral (Z.abs_N n / 100)) as [Hnum _].
  destruct (pad2_numeral (Z.abs_N n mod 100)) as [Hpad _].
  rewrite all_chars_app, all_chars_cons. split; [|split].
  - destruct (n <? 0)%Z; [apply all_chars_cons; split; [reflexivity|]|];
      now apply numeral_numeric.
  - reflexivity.
  - now apply numeral_numeric.
Qed.

Lemma or_else_some (s d : string) : s <> EmptyString -> or_else (Some s) d = s.
Proof. destruct s; [congruence | reflexivity]. Qed.

Lemma csv_row_line (tx : Transaction) :
  exportable tx -> csv_row tx = csv_line tx ++ String LF EmptyString.
Proof.
  intros [_ [[Hd1 [_ Hd2]] [_ [[Hc1 _] [Hm1 [_ Hm2]]]]]].
  unfold csv_row, csv_line, csv_body.
  rewrite (or_else_some _ _ Hc1), (or_else_some _ _ Hm1).
  rewrite !double_quotes_id
    by (eapply all_chars_weaken; [|eassumption];
        intros c Hc; unfold quotable in Hc; apply andb_true_iff in Hc; tauto).
  repeat first [rewrite append_assoc | progress cbn [append]].
  reflexivity.
Qed.

Lemma bare_no_space (s : string) :
  all_chars numeric_char s ->
  all_chars bare s /\ all_chars (fun c => negb (is_space c)) s.
Proof.
  intros H. split; intros c Hc; destruct (numeric_char_bare c (H c Hc)) as [H1 H2]; auto.
  now rewrite H2.
Qed.

Lemma csv_line_values (tx : Transaction) :
  exportable tx ->
  parseCsvValues (csv_line tx)
  = [toISODate (date tx); description tx; toFixed2 (amount tx); category tx;
     merchant tx].
Proof.
  intros [Hy [[_ [Hd1 Hd2]] [Ha [[_ [Hc1 Hc2]] [_ [Hm1 Hm2]]]]]].
  destruct (toISODate_chars (date tx)) as [Hdate _].
  destruct (bare_no_space _ Hdate) as [Hdb Hds].
  destruct (bare_no_space _ (toFixed2_chars _ Ha)) as [Hab Has].
  unfold csv_line, csv_body.
  repeat first [rewrite append_assoc | progress cbn [append]].
  rewrite parseCsvValues_line by assumption.
  now rewrite (trim_no_space _ Hds), (trim_no_space _ Has), Hd1, Hc1, Hm1.
Qed.

(** A line of the export is parsed back to its transaction. *)
Lemma parseCsvLine_csv_line (legacy : string -> option Z) (tx : Transaction)
    (account : Z) :
  exportable tx ->
  exists parsed,
    parseCsvLine legacy (csv_line tx) export_headers standard account = inr parsed
    /\ reimported account tx parsed.
Proof.
  intros Hex. pose proof (csv_line_values tx Hex) as Hvalues.
  destruct Hex as [Hy [[Hd0 [Hd1 Hd2]] [[n Hn] [[Hc0 [Hc1 Hc2]] [Hm0 [Hm1 Hm2]]]]]].
  destruct (toISODate_chars (date tx)) as [_ [c [r [Hdate _]]]].
  destruct (parseFloat_toFixed2 _ n Hn) as [q [Hq1 Hq2]].
  unfold parseCsvLine. rewrite Hvalues.
  cbn [export_headers List.length Nat.ltb Nat.leb combine row_get String.eqb
       Ascii.eqb Bool.eqb].
  assert (Ht : truthy (Some (toISODate (date tx))) = Some (toISODate (date tx)))
    by (now rewrite Hdate).
  rewrite Ht.
  assert (Hp : parse_row_date legacy (toISODate (date tx))
               = Some (Day (date tx) * msPerDay)%Z).
  { unfold parse_row_date, new_Date, Date_parse. now rewrite parse_toISODate by exact Hy. }
  rewrite Hp. unfold parse_row_amount.
  cbn [row_get String.eqb Ascii.eqb Bool.eqb]. rewrite Hq1.
  rewrite !or_else_some by assumption.
  assert (Hcat : truthy (option_map trim (truthy (Some (category tx))))
                 = Some (category tx)).
  { destruct (category tx) as [|c0 r0] eqn:E; [congruence|].
    cbn [truthy option_map]. now rewrite Hc1. }
  rewrite Hcat. eexists. split; [reflexivity|].
  repeat split; auto.
Qed.

Lemma csv_line_trimmed (tx : Transaction) :
  exportable tx ->
  trim (csv_line tx) = csv_line tx
  /\ exists c r, csv_line tx = String c r.
Proof.
  intros [Hy _]. destruct (toISODate_chars (date tx)) as [_ [c [r [Hdate Hc]]]].
  unfold csv_line, csv_body. rewrite Hdate. cbn [append]. split.
  - apply trim_ends; [exact Hc | reflexivity].
  - eauto.
Qed.

Lemma transactionsToCSV_rows (txs : list Transaction) :
  transactionsToCSV txs = export_header ++ String LF (csv_rows txs).
Proof.
  unfold transactionsToCSV.
  change ("Date,Description,Amount,Category,Merchant" ++ String LF EmptyString)
    with (export_header ++ String LF EmptyString).
  assert (H : forall init,
             fold_left (fun csv tx => csv ++ csv_row tx) txs init
             = init ++ csv_rows txs).
  { induction txs as [|tx txs IH]; intros init; simpl.
    - now rewrite append_nil_r.
    - now rewrite IH, append_assoc. }
  rewrite H, append_assoc. reflexivity.
Qed.

Lemma csv_line_no_LF (tx : Transaction) :
  exportable tx -> all_chars (not_char LF) (csv_body tx).
Proof.
  intros [Hy [[_ [_ Hd]] [Ha [[_ [_ Hc]] [_ [_ Hm]]]]]].
  destruct (toISODate_chars (date tx)) as [Hdate _].
  destruct (bare_no_space _ Hdate) as [Hdb _].
  destruct (bare_no_space _ (toFixed2_chars _ Ha)) as [Hab _].
  assert (Hbare : forall s, all_chars bare s -> all_chars (not_char LF) s).
  { intros s. apply all_chars_weaken. intros c H. unfold bare in H.
    apply andb_true_iff in H. tauto. }
  assert (Hquot : forall s, all_chars quotable s -> all_chars (not_char LF) s).
  { intros s. apply all_chars_weaken. intros c H. unfold quotable in H.
    apply andb_true_iff in H. tauto. }
  unfold csv_body.
  repeat first [rewrite all_chars_app | rewrite all_chars_cons].
  repeat split; auto.
Qed.

Lemma split_lines_rows (txs : list Transaction) :
  Forall exportable txs ->
  split_lines (csv_rows txs) = (map csv_line txs ++ [EmptyString])%list.
Proof.
  induction 1 as [|tx txs Hx Hxs IH]; [reflexivity|].
  cbn [csv_rows map app]. rewrite (csv_row_line tx Hx), append_assoc.
  cbn [append].
  change (csv_line tx ++ String LF (csv_rows txs))
    with ((csv_body tx ++ String dquote EmptyString) ++ String LF (csv_rows txs)).
  rewrite split_lines_line; [now rewrite IH | now apply csv_line_no_LF | reflexivity..].
Qed.

Lemma split_lines_export (txs : list Transaction) :
  Forall exportable txs ->
  split_lines (transactionsToCSV txs)
  = export_header :: (map csv_line txs ++ [EmptyString])%list.
Proof.
  intros H. rewrite transactionsToCSV_rows.
  change export_header with ("Date,Description,Amount,Category,Merchan"
                             ++ String "t" EmptyString) at 1.
  rewrite split_lines_line; [now rewrite split_lines_rows | | reflexivity..].
  intros c Hc. simpl in Hc.
  repeat (destruct Hc as [<-|Hc]; [reflexivity|]). destruct Hc.
Qed.

Lemma parse_lines_row (legacy : string -> option Z) (l : string)
    (rest : list string) (i : nat) (headers : list string) (format : CsvFormat)
    (account : Z) (result : ParsedCsvResult) (c : ascii) (r : string)
    (parsed : Transaction) :
  trim l = String c r ->
  parseCsvLine legacy (String c r) headers format account = inr parsed ->
  parse_lines legacy (l :: rest) i headers format account result
  = parse_lines legacy rest (S i) headers format account
      (mkResult (transactions result ++ [parsed])%list (errors result)).
Proof. intros Ht Hp. cbn [parse_lines]. now rewrite Ht, Hp. Qed.

Lemma parse_lines_export (legacy : string -> option Z) (txs : list Transaction)
    (account : Z) (i : nat) (result : ParsedCsvResult) :
  Forall exportable txs ->
  exists parsed,
    parse_lines legacy (map csv_line txs ++ [EmptyString])%list i export_headers
      standard account result
    = mkResult (transactions result ++ parsed)%list (errors result)
    /\ Forall2 (reimported account) txs parsed.
Proof.
  intros H. revert i result. induction H as [|tx txs Hx Hxs IH]; intros i result.
  - exists []. destruct result. simpl. now rewrite app_nil_r.
  - cbn [map app].
    destruct (csv_line_trimmed tx Hx) as [Htrim [c [r Hc]]].
    destruct (parseCsvLine_csv_line legacy tx account Hx) as [p [Hp Hr]].
    rewrite (parse_lines_row legacy (csv_line tx) _ i export_headers standard account
               result c r p) by congruence.
    destruct (IH (S i) (mkResult (transactions result ++ [p])%list (errors result)))
      as [parsed [Hparsed Hall]].
    exists (p :: parsed). rewrite Hparsed. cbn [transactions errors].
    rewrite <- app_assoc. split; [reflexivity | now constructor].
Qed.

End CsvFacts.

Import DecimalFacts DateFacts CsvFacts.

(** C3, as the code has it.  The export of a list of transactions is
    parsed back without errors, to transactions of the given account
    with the same descriptions, amounts, categories and merchants and
    with the dates cut to the UTC day, provided that every description,
    merchant and category is not empty, has no white space at its ends
    and holds no double quote and no line feed, that no category holds a
    comma, that every amount is in whole cents and that every date is a
    time value that a [Date] can hold.  Commas in descriptions and
    merchants do no harm, since the export quotes these two fields.  This
    holds whatever [Date.parse] makes of the strings that are not in the
    Date Time String Format. *)
Theorem csv_round_trip
    (legacy : string -> option Z) (txs : list Transaction) (account : Z) :
  Forall exportable txs ->
  exists parsed,
    parseTransactionCsv legacy (transactionsToCSV txs) account = mkResult parsed []
    /\ Forall2 (reimported account) txs parsed.
Proof.
  intros H. unfold parseTransactionCsv.
  rewrite (split_lines_export txs H). cbn [hd tl].
  change (map trim (split_char "," (toLowerCase export_header))) with export_headers.
  change (detectCsvFormat export_headers) with (Some standard). cbv iota.
  destruct (parse_lines_export legacy txs account 1 (mkResult [] []) H)
    as [parsed [Hp Hall]].
  exists parsed. rewrite Hp. split; [reflexivity | exact Hall].
Qed.

(** The theorem at one transaction with a comma in its description. *)
Lemma csv_round_trip_witness :
  exists parsed,
    parseTransactionCsv (fun _ => None)
      (transactionsToCSV
         [ mkTransaction 1 (utc_midnight 2024 1 15 + 3600000) "Pizza, large"
             (-1599 # 100) "Food" "Pizzeria" ]) 7
    = mkResult parsed []
    /\ Forall2 (reimported 7)
         [ mkTransaction 1 (utc_midnight 2024 1 15 + 3600000) "Pizza, large"
             (-1599 # 100) "Food" "Pizzeria" ]
         parsed.
Proof.
  apply csv_round_trip. constructor; [|constructor].
  assert (Hchars : forall (p : ascii -> bool) (s : string),
             forallb p (list_ascii_of_string s) = true -> all_chars p s).
  { intros p s Hp c Hc. rewrite forallb_forall in Hp. auto. }
  split; [vm_compute; split; discriminate|].
  split; [split; [discriminate | split; [reflexivity | apply Hchars; reflexivity]]|].
  split; [exists (-1599)%Z; reflexivity|].
  split; [split; [discriminate | split; [reflexivity | apply Hchars; reflexivity]]|].
  split; [discriminate | split; [reflexivity | apply Hchars; reflexivity]].
Defined.

(** C3 as it is stated fails.  Neither transaction below has a comma in
    its description or merchant.  The first has a double quote in its
    description: the export doubles it and the parser, which only
    toggles on quotes, drops it.  The second has an amount of a third of
    a dollar and no category and no merchant: it comes back with the
    amount -0.33, the category Other and the description for merchant. *)
Lemma csv_round_trip_loses_quotes :
  let inches :=
    mkTransaction 1 (utc_midnight 2024 1 15) ("12" ++ String dquote " pizza")
      (-1599 # 100) "Food" "Pizzeria" in
  let third :=
    mkTransaction 1 (utc_midnight 2024 1 15) "Pizza night" (-1 # 3) "" "" in
  includes (description inches) "," = false
  /\ includes (merchant inches) "," = false
  /\ includes (description third) "," = false
  /\ includes (merchant third) "," = false
  /\ parseTransactionCsv (fun _ => None) (transactionsToCSV [inches; third]) 1
     = mkResult
         [ mkTransaction 1 (utc_midnight 2024 1 15) "12 pizza" (-1599 # 100)
             "Food" "Pizzeria";
           mkTransaction 1 (utc_midnight 2024 1 15) "Pizza night" (-33 # 100)
             "Other" "Pizza night" ]
         []
  /\ "12 pizza" <> description inches
  /\ ~ (-33 # 100 == amount third)%Q
  /\ "Other" <> category third
  /\ "Pizza night" <> merchant third.
Proof.
  cbv zeta.
  split; [reflexivity|]. split; [reflexivity|].
  split; [reflexivity|]. split; [reflexivity|].
  split; [vm_compute; reflexivity|].
  split; [discriminate|]. split; [vm_compute; discriminate|].
  split; discriminate.
Qed.

(** ** Part XIX.  More on strings: trimming, splitting and joining *)

Module TextFacts.
Import Spec JsString StringFacts CsvFacts.

Lemma trimEnd_idempotent (s : string) : trimEnd (trimEnd s) = trimEnd s.
Proof.
  induction s as [|c r IH]; [reflexivity|]. cbn [trimEnd].
  destruct (trimEnd r) as [|c' t'] eqn:E.
  - destruct (is_space c) eqn:Hc; [reflexivity|]. cbn [trimEnd]. now rewrite Hc.
  - cbn [trimEnd]. cbn [trimEnd] in IH. rewrite IH. reflexivity.
Qed.

Lemma trimStart_head (s : string) :
  match trimStart s with
  | EmptyString => True
  | String c _ => is_space c = false
  end.
Proof.
  induction s as [|c r IH]; simpl; [exact I|].
  destruct (is_space c) eqn:E; [exact IH | exact E].
Qed.

Lemma trimEnd_head (c : ascii) (r : string) :
  is_space c = false -> exists t, trimEnd (String c r) = String c t.
Proof.
  intros Hc. cbn [trimEnd]. destruct (trimEnd r); [rewrite Hc|]; eauto.
Qed.

Lemma trim_idempotent (s : string) : trim (trim s) = trim s.
Proof.
  unfold trim. pose proof (trimStart_head s) as H.
  destruct (trimStart s) as [|c r]; [reflexivity|].
  destruct (trimEnd_head c r H) as [t Ht]. rewrite Ht.
  cbn [trimStart]. rewrite H, <- Ht. apply trimEnd_idempotent.
Qed.

Lemma trimStart_chars (p : ascii -> bool) (s : string) :
  all_chars p s -> all_chars p (trimStart s).
Proof.
  induction s as [|c r IH]; intros H; [exact H|]. simpl.
  destruct (is_space c); [|exact H].
  apply IH. apply all_chars_cons in H. tauto.
Qed.

Lemma trimEnd_chars (p : ascii -> bool) (s : string) :
  all_chars p s -> all_chars p (trimEnd s).
Proof.
  induction s as [|c r IH]; intros H; [exact H|].
  apply all_chars_cons in H. destruct H as [Hc Hr]. specialize (IH Hr).
  cbn [trimEnd]. destruct (trimEnd r) as [|c' t'].
  - destruct (is_space c); [apply all_chars_nil|].
    apply all_chars_cons. split; [exact Hc | apply all_chars_nil].
  - apply all_chars_cons. split; [exact Hc | exact IH].
Qed.

Lemma trim_chars (p : ascii -> bool) (s : string) :
  all_chars p s -> all_chars p (trim s).
Proof. intros H. unfold trim. now apply trimEnd_chars, trimStart_chars. Qed.

Lemma split_by_nonempty (p : ascii -> bool) (s : string) : split_by p s <> [].
Proof.
  induction s as [|c s IH]; simpl; [discriminate|].
  destruct (split_by p s); [contradiction|]. destruct (p c); discriminate.
Qed.

Lemma join_cons (sep x y : string) (l : list string) :
  join sep (x :: y :: l) = x ++ sep ++ join sep (y :: l).
Proof. reflexivity. Qed.

(** Splitting at a separator and joining with it gives the string back. *)
Lemma join_split_char (sep : ascii) (s : string) :
  join (String sep EmptyString) (split_char sep s) = s.
Proof.
  unfold split_char. induction s as [|c s IH]; [reflexivity|].
  cbn [split_by]. pose proof (split_by_nonempty (Ascii.eqb sep) s) as Hne.
  destruct (split_by (Ascii.eqb sep) s) as [|w ws]; [contradiction|].
  destruct (Ascii.eqb_spec sep c) as [<-|Hc].
  - rewrite join_cons, IH. reflexivity.
  - destruct ws as [|w' ws].
    + cbn [join] in *. now rewrite IH.
    + rewrite join_cons in *. cbn [append] in *. now rewrite IH.
Qed.

Lemma split_char_words (sep : ascii) (s : string) :
  Forall (all_chars (not_char sep)) (split_char sep s).
Proof.
  unfold split_char. induction s as [|c s IH].
  - constructor; [apply all_chars_nil | constructor].
  - cbn [split_by]. destruct (split_by (Ascii.eqb sep) s) as [|w ws].
    + constructor; [apply all_chars_nil | constructor].
    + inversion IH as [|? ? Hw Hws]; subst.
      destruct (Ascii.eqb sep c) eqn:E.
      * constructor; [apply all_chars_nil | exact IH].
      * constructor; [|exact Hws]. apply all_chars_cons. split; [|exact Hw].
        unfold not_char. now rewrite Ascii.eqb_sym, E.
Qed.

Lemma split_lines_chars (s : string) :
  Forall (all_chars (not_char LF)) (split_lines s).
Proof.
  induction s as [|c s IH].
  - constructor; [apply all_chars_nil | constructor].
  - rewrite split_lines_cons. destruct (split_lines s) as [|w ws].
    + constructor; [apply all_chars_nil | constructor].
    + inversion IH as [|? ? Hw Hws]; subst.
      destruct (Ascii.eqb c LF) eqn:E.
      * constructor; [apply all_chars_nil | exact IH].
      * destruct (_ && _); [exact IH|].
        constructor; [|exact Hws]. apply all_chars_cons. split; [|exact Hw].
        unfold not_char. now rewrite E.
Qed.

Lemma includes_trans (s k k' : string) :
  includes s k = true -> includes k k' = true -> includes s k' = true.
Proof.
  rewrite !includes_iff. intros [a [b ->]] [a' [b' ->]].
  exists (a ++ a'), (b' ++ b). now rewrite !append_assoc.
Qed.

End TextFacts.

(** ** Part XX.  The category classifier: batches and suggestions *)

Module BatchFacts.
Import Spec JsString JsNumber Categorize StringFacts NumberFacts TextFacts.

Lemma match_rules_In (rules : list CategoryRule) (text : string) :
  In (match_rules rules text) (map ruleCategory rules ++ ["Other"]).
Proof.
  induction rules as [|r rules IH]; simpl; [auto|].
  destruct (rule_matches text r); [auto|]. right. exact IH.
Qed.

Lemma categorizeTransaction_In (t : Transaction) :
  In (categorizeTransaction t)
    ["Housing"; "Food"; "Transportation"; "Shopping"; "Utilities"; "Healthcare";
     "Entertainment"; "Education"; "Travel"; "Income"; "Other"].
Proof.
  unfold categorizeTransaction. destruct (gtb (amount t) 0).
  - simpl. tauto.
  - apply (match_rules_In categoryRules).
Qed.

Lemma categorizeTransaction_not_empty (t : Transaction) :
  categorizeTransaction t <> EmptyString.
Proof.
  intros H. pose proof (categorizeTransaction_In t) as Hin. rewrite H in Hin.
  simpl in Hin. repeat (destruct Hin as [Hin|Hin]; [discriminate Hin|]). exact Hin.
Qed.

(** The category depends on the description, the merchant and the amount
    only. *)
Lemma categorizeTransaction_ext (t u : Transaction) :
  description t = description u -> merchant t = merchant u -> amount t = amount u ->
  categorizeTransaction t = categorizeTransaction u.
Proof.
  intros Hd Hm Ha. unfold categorizeTransaction, searchText_of.
  now rewrite Hd, Hm, Ha.
Qed.

(** A rule that matches bounds the result to the categories up to it. *)
Lemma match_rules_upto (text : string) (rules : list CategoryRule) (n : nat) :
  (n < List.length rules)%nat ->
  rule_matches text (nth n rules (mkRule [] EmptyString)) = true ->
  In (match_rules rules text) (map ruleCategory (firstn (S n) rules)).
Proof.
  revert n; induction rules as [|r rules IH]; intros n Hn H; simpl in Hn; [lia|].
  destruct n as [|n].
  - simpl in *. rewrite H. auto.
  - cbn [nth] in H. cbn [match_rules firstn map].
    destruct (rule_matches text r); [left; reflexivity|].
    right. apply IH; [lia | exact H].
Qed.

(** A text that includes [k] matches every rule that has a keyword
    occurring in [k]. *)
Lemma rule_matches_keyword (text k : string) (rule : CategoryRule) (k' : string) :
  In k' (keywords rule) -> includes k (toLowerCase k') = true ->
  includes text k = true -> rule_matches text rule = true.
Proof.
  intros Hin Hk Ht. unfold rule_matches. apply existsb_exists.
  exists k'. split; [exact Hin|]. now apply (includes_trans text k).
Qed.

End BatchFacts.

Import TextFacts BatchFacts.

(** X2.  [categorizeBatch] returns one transaction for each transaction
    it is given, in the same order.  A transaction whose category is
    empty or "Other" comes back with the category of
    [categorizeTransaction] and its other fields unchanged; any other
    transaction comes back as it is.  No transaction comes back with an
    empty category, and a second pass changes nothing. *)
Theorem categorizeBatch_keeps_categories (txs : list Transaction) :
  Forall2 (fun t t' =>
             (uncategorized t ->
              t' = mkTransaction (accountId t) (date t) (description t) (amount t)
                     (categorizeTransaction t) (merchant t))
             /\ (~ uncategorized t -> t' = t)
             /\ category t' <> EmptyString)
    txs (categorizeBatch txs)
  /\ categorizeBatch (categorizeBatch txs) = categorizeBatch txs.
Proof.
  split.
  - induction txs as [|t txs IH]; [constructor|].
    cbn [categorizeBatch map]. constructor; [|exact IH].
    unfold uncategorized. destruct (category t) as [|c r] eqn:Ec.
    + cbn [orb]. split; [reflexivity|]. split; [tauto|].
      apply categorizeTransaction_not_empty.
    + cbn [orb]. destruct (String.eqb_spec (String c r) "Other") as [E|E].
      * split; [reflexivity|]. split; [tauto|]. apply categorizeTransaction_not_empty.
      * split; [intros [H|H]; [discriminate H | contradiction]|].
        split; [reflexivity|]. rewrite Ec. discriminate.
  - unfold categorizeBatch. rewrite map_map. apply map_ext. intros t.
    set (u := mkTransaction (accountId t) (date t) (description t) (amount t)
                (categorizeTransaction t) (merchant t)).
    assert (Hu : categorizeTransaction u = categorizeTransaction t)
      by (apply categorizeTransaction_ext; reflexivity).
    destruct (match category t with
              | EmptyString => true
              | _ => false
              end || (category t =? "Other")) eqn:Et.
    + rewrite Hu.
      destruct (match category u with
                | EmptyString => true
                | _ => false
                end || (category u =? "Other")); reflexivity.
    + rewrite Et. reflexivity.
Qed.

(** X3.  [suggestCategory] gives a text the category that
    [categorizeTransaction] gives a transaction that is not an income and
    has that text for description, space and merchant.  Since a keyword
    matches wherever it occurs and the first rule wins, six keywords
    never decide: a text with "gas", "healthcare" (it holds "car") or
    "training" ("train") is Housing, Food or Transportation, never
    Utilities, Healthcare or Education because of them; a text with
    "workshop" ("shop") is one of these three or Shopping, not Education;
    a text with "refund" ("fun") is at the latest Entertainment, not
    Income; a text with "booking" ("book") is at the latest Education,
    not Travel. *)
Theorem suggestCategory_shadowed_keywords (d : string) :
  let text := toLowerCase d in
  (forall t, ~ (0 < amount t)%Q ->
     categorizeTransaction t = suggestCategory (description t ++ " " ++ merchant t))
  /\ (includes text "gas" = true \/ includes text "healthcare" = true
      \/ includes text "training" = true ->
      In (suggestCategory d) ["Housing"; "Food"; "Transportation"])
  /\ (includes text "workshop" = true ->
      In (suggestCategory d) ["Housing"; "Food"; "Transportation"; "Shopping"])
  /\ (includes text "refund" = true ->
      In (suggestCategory d)
        ["Housing"; "Food"; "Transportation"; "Shopping"; "Utilities"; "Healthcare";
         "Entertainment"])
  /\ (includes text "booking" = true ->
      In (suggestCategory d)
        ["Housing"; "Food"; "Transportation"; "Shopping"; "Utilities"; "Healthcare";
         "Entertainment"; "Education"]).
Proof.
  cbv zeta. unfold suggestCategory.
  assert (Hat : forall n k k',
             In k' (keywords (nth n categoryRules (mkRule [] EmptyString))) ->
             includes k (toLowerCase k') = true ->
             (n < List.length categoryRules)%nat ->
             includes (toLowerCase d) k = true ->
             In (match_rules categoryRules (toLowerCase d))
                (map ruleCategory (firstn (S n) categoryRules))).
  { intros n k k' Hin Hk Hn Ht. apply match_rules_upto; [exact Hn|].
    exact (rule_matches_keyword _ k _ k' Hin Hk Ht). }
  split.
  { intros t Ht. unfold categorizeTransaction, searchText_of.
    destruct (gtb (amount t) 0) eqn:E; [|reflexivity].
    apply gtb_gt in E. contradiction. }
  split.
  { intros [H|[H|H]].
    - apply (Hat 2%nat "gas" "gas"); [simpl; tauto | reflexivity | simpl; lia | exact H].
    - apply (Hat 2%nat "healthcare" "car");
        [simpl; tauto | reflexivity | simpl; lia | exact H].
    - apply (Hat 2%nat "training" "train");
        [simpl; tauto | reflexivity | simpl; lia | exact H]. }
  split.
  { intros H.
    apply (Hat 3%nat "workshop" "shop"); [simpl; tauto | reflexivity | simpl; lia | exact H]. }
  split.
  { intros H.
    apply (Hat 6%nat "refund" "fun"); [simpl; tauto | reflexivity | simpl; lia | exact H]. }
  intros H.
  apply (Hat 7%nat "booking" "book"); [simpl; tauto | reflexivity | simpl; lia | exact H].
Qed.

(** ** Part XXI.  The CSV parser: fields and merchants *)

Module FieldFacts.
Import Spec JsString JsNumber JsArray Categorize CsvParser.
Import StringFacts NumberFacts ParserFacts CsvFacts TextFacts BatchFacts.

(** What the character loop returns on a line without line feed: never
    nothing, and clean fields. *)
Lemma loop_values (line : string) (values : list string) (cur : string)
    (inside : bool) :
  all_chars (not_char LF) line ->
  Forall clean_field values -> all_chars quotable cur ->
  parseCsvValues_loop line values cur inside <> []
  /\ Forall clean_field (parseCsvValues_loop line values cur inside).
Proof.
  revert values cur inside.
  induction line as [|c line IH]; intros values cur inside Hl Hv Hc.
  - cbn [parseCsvValues_loop]. split; [now destruct values|].
    apply Forall_app. split; [exact Hv|]. constructor; [|constructor].
    split; [apply trim_idempotent | now apply trim_chars].
  - apply all_chars_cons in Hl. destruct Hl as [Hlf Hl].
    cbn [parseCsvValues_loop]. destruct (Ascii.eqb c dquote) eqn:Eq; [now apply IH|].
    destruct (Ascii.eqb c "," && negb inside).
    + apply IH; [exact Hl | | apply all_chars_nil].
      apply Forall_app. split; [exact Hv|]. constructor; [|constructor].
      split; [apply trim_idempotent | now apply trim_chars].
    + apply IH; [exact Hl | exact Hv |]. apply all_chars_app. split; [exact Hc|].
      apply all_chars_cons. split; [|apply all_chars_nil].
      unfold quotable, not_char in *. now rewrite Eq, Hlf.
Qed.

Lemma parseCsvValues_clean (line : string) :
  all_chars (not_char LF) line ->
  parseCsvValues line <> [] /\ Forall clean_field (parseCsvValues line).
Proof.
  intros H. apply (loop_values line [] EmptyString false H);
    [constructor | apply all_chars_nil].
Qed.

(** Without a double quote the loop is a split at the commas. *)
Lemma loop_unquoted (line : string) (values : list string) (cur : string) :
  all_chars (not_char dquote) line ->
  parseCsvValues_loop line values cur false
  = (values ++ match split_char "," line with
               | w :: ws => trim (cur ++ w) :: map trim ws
               | [] => []
               end)%list.
Proof.
  revert values cur. induction line as [|c line IH]; intros values cur H.
  - cbn. now rewrite append_nil_r.
  - apply all_chars_cons in H. destruct H as [Hc Hl].
    unfold not_char in Hc. rewrite negb_true_iff in Hc.
    cbn [parseCsvValues_loop]. rewrite Hc. cbn [negb]. rewrite andb_true_r.
    unfold split_char in *. cbn [split_by].
    pose proof (split_by_nonempty (Ascii.eqb ",") line) as Hne.
    rewrite (Ascii.eqb_sym "," c).
    destruct (Ascii.eqb c ",").
    + rewrite IH by exact Hl. destruct (split_by _ line) as [|w ws]; [contradiction|].
      rewrite <- app_assoc. cbn [app append map]. now rewrite append_nil_r.
    + rewrite IH by exact Hl. destruct (split_by _ line) as [|w ws]; [contradiction|].
      rewrite append_assoc. reflexivity.
Qed.

(** The character loop inside a field that the export has quoted: the
    doubled quotes toggle twice and leave nothing. *)
Lemma loop_escaped (s rest : string) (values : list string) (cur : string) :
  parseCsvValues_loop (double_quotes s ++ rest) values cur true
  = parseCsvValues_loop rest values (cur ++ strip_quotes s) true.
Proof.
  revert cur. induction s as [|c s IH]; intros cur.
  - cbn. now rewrite append_nil_r.
  - cbn [double_quotes strip_quotes]. destruct (Ascii.eqb c dquote) eqn:E.
    + cbn [append parseCsvValues_loop]. change (Ascii.eqb dquote dquote) with true.
      cbv iota. cbn [negb]. apply IH.
    + cbn [append parseCsvValues_loop]. rewrite E. cbn [negb]. rewrite andb_false_r.
      rewrite IH, append_assoc. reflexivity.
Qed.

Lemma loop_quoted_field (s rest : string) (values : list string) (cur : string) :
  parseCsvValues_loop (quoted s ++ rest) values cur false
  = parseCsvValues_loop rest values (cur ++ strip_quotes s) false.
Proof.
  unfold quoted. cbn [append parseCsvValues_loop].
  change (Ascii.eqb dquote dquote) with true. cbv iota. cbn [negb].
  rewrite append_assoc, loop_escaped. cbn [append parseCsvValues_loop].
  change (Ascii.eqb dquote dquote) with true. reflexivity.
Qed.

Lemma loop_quoted_fields (fields : list string) (f : string) (values : list string)
    (cur : string) :
  parseCsvValues_loop (join "," (map quoted (f :: fields))) values cur false
  = (values ++ trim (cur ++ strip_quotes f)
       :: map (fun x => trim (strip_quotes x)) fields)%list.
Proof.
  revert f values cur. induction fields as [|g fields IH]; intros f values cur.
  - cbn [map join]. rewrite <- (append_nil_r (quoted f)), loop_quoted_field.
    reflexivity.
  - change (join "," (map quoted (f :: g :: fields)))
      with (quoted f ++ String "," (join "," (map quoted (g :: fields)))).
    rewrite loop_quoted_field. cbn [parseCsvValues_loop].
    change (Ascii.eqb "," dquote) with false. cbv iota.
    change (Ascii.eqb "," "," && negb false) with true. cbv iota.
    rewrite IH, <- app_assoc. reflexivity.
Qed.

Lemma strip_quotes_id (s : string) :
  all_chars (not_char dquote) s -> strip_quotes s = s.
Proof.
  induction s as [|c s IH]; intros H; [reflexivity|].
  apply all_chars_cons in H. destruct H as [Hc Hs].
  unfold not_char in Hc. rewrite negb_true_iff in Hc.
  simpl. rewrite Hc. f_equal. auto.
Qed.

Lemma strip_quotes_chars (p : ascii -> bool) (s : string) :
  all_chars p s -> all_chars (fun c => p c && not_char dquote c) (strip_quotes s).
Proof.
  induction s as [|c s IH]; intros H; [apply all_chars_nil|].
  apply all_chars_cons in H. destruct H as [Hc Hs]. simpl.
  destruct (Ascii.eqb c dquote) eqn:E; [auto|].
  apply all_chars_cons. split; [|auto]. unfold not_char. now rewrite Hc, E.
Qed.

(** The words of a description, and the merchant taken from them. *)
Lemma extractMerchant_short (d : string) :
  (List.length (split_char " " d) <= 3)%nat -> extractMerchant d = d.
Proof.
  intros H. unfold extractMerchant.
  pose proof (split_by_nonempty (Ascii.eqb " ") d) as Hne.
  fold (split_char " " d) in Hne.
  destruct (split_char " " d) as [|w ws]; [contradiction|].
  cbn [List.length Nat.eqb]. apply Nat.leb_le in H. cbn [List.length] in H.
  now rewrite H.
Qed.

Lemma extractMerchant_long (d w1 w2 : string) (rest : list string) :
  (2 <= List.length rest)%nat -> split_char " " d = (w1 :: w2 :: rest)%list ->
  extractMerchant d = w1 ++ " " ++ w2.
Proof.
  intros Hr E. unfold extractMerchant. rewrite E.
  destruct rest as [|w3 [|w4 rest]]; simpl in Hr; try lia. reflexivity.
Qed.

Lemma extractMerchant_cases (d : string) :
  (List.length (split_char " " d) <= 3)%nat
  \/ exists w1 w2 rest,
       (2 <= List.length rest)%nat /\ split_char " " d = (w1 :: w2 :: rest)%list.
Proof.
  destruct (split_char " " d) as [|w1 [|w2 [|w3 [|w4 rest]]]]; simpl; try (left; lia).
  right. exists w1, w2, (w3 :: w4 :: rest)%list. simpl. split; [lia | reflexivity].
Qed.

Lemma extractMerchant_is_prefix (d : string) : exists rest, d = extractMerchant d ++ rest.
Proof.
  destruct (extractMerchant_cases d) as [H|[w1 [w2 [rest [Hr E]]]]].
  - rewrite (extractMerchant_short d H). exists EmptyString. now rewrite append_nil_r.
  - rewrite (extractMerchant_long d w1 w2 rest Hr E).
    destruct rest as [|w3 rest]; [simpl in Hr; lia|].
    exists (" " ++ join " " (w3 :: rest)).
    rewrite <- (join_split_char " " d) at 1. rewrite E.
    rewrite !join_cons, !append_assoc. reflexivity.
Qed.

Lemma extractMerchant_not_empty (d : string) :
  d <> EmptyString -> extractMerchant d <> EmptyString.
Proof.
  intros Hd. destruct (extractMerchant_cases d) as [H|[w1 [w2 [rest [Hr E]]]]].
  - now rewrite (extractMerchant_short d H).
  - rewrite (extractMerchant_long d w1 w2 rest Hr E). destruct w1; discriminate.
Qed.

End FieldFacts.

Import FieldFacts.

(** X4.  [parseCsvValues] never returns an empty array, and on a line
    without line feed every value it returns is trimmed and holds no
    double quote: a quote only switches the quoting state and is never
    kept.  On a line without double quotes the values are the pieces
    between the commas, each trimmed. *)
Theorem parseCsvValues_fields (line : string) :
  parseCsvValues line <> []
  /\ (all_chars (not_char LF) line -> Forall clean_field (parseCsvValues line))
  /\ (all_chars (not_char dquote) line ->
      parseCsvValues line = map trim (split_char "," line)).
Proof.
  split; [|split].
  - assert (H : forall values cur inside,
               parseCsvValues_loop line values cur inside <> []).
    { induction line as [|c line IH]; intros values cur inside.
      - cbn [parseCsvValues_loop]. now destruct values.
      - cbn [parseCsvValues_loop].
        destruct (Ascii.eqb c dquote); [apply IH|]. destruct (_ && _); apply IH. }
    apply H.
  - intros H. now apply parseCsvValues_clean.
  - intros H. unfold parseCsvValues. rewrite loop_unquoted by exact H.
    pose proof (split_by_nonempty (Ascii.eqb ",") line) as Hne. unfold split_char.
    destruct (split_by _ line); [contradiction | reflexivity].
Qed.

(** X5.  Fields that are written as the export writes descriptions and
    merchants, each between double quotes with its own double quotes
    doubled, and joined by commas, are read back by [parseCsvValues] one
    for one, each without its double quotes and trimmed: commas inside a
    field are kept, double quotes are lost.  Fields that hold no double
    quote and no white space at their ends come back as they are. *)
Theorem parseCsvValues_quoted_fields (f : string) (fields : list string) :
  parseCsvValues (join "," (map quoted (f :: fields)))
  = map (fun x => trim (strip_quotes x)) (f :: fields)
  /\ (Forall (fun x => all_chars (not_char dquote) x /\ trim x = x) (f :: fields) ->
      parseCsvValues (join "," (map quoted (f :: fields))) = (f :: fields)%list).
Proof.
  assert (H : parseCsvValues (join "," (map quoted (f :: fields)))
              = map (fun x => trim (strip_quotes x)) (f :: fields)).
  { unfold parseCsvValues. now rewrite loop_quoted_fields. }
  split; [exact H|]. intros Hall. rewrite H.
  rewrite <- (map_id (f :: fields)) at 2. apply map_ext_in.
  intros x Hx. rewrite Forall_forall in Hall. destruct (Hall x Hx) as [Hq Ht].
  now rewrite strip_quotes_id.
Qed.

(** X6.  [extractMerchant] splits the description at its spaces: the
    words are never none, hold no space, and joined by spaces give the
    description back.  A description of at most 3 words is its own
    merchant, a longer one has its first two words, with the space
    between them, for merchant.  The merchant is always a prefix of the
    description, it is empty only for the empty description, and it is
    "Unknown" only for the description "Unknown": the branch of the
    code that returns "Unknown" for no words is never taken. *)
Theorem extractMerchant_prefix (d : string) :
  let words := split_char " " d in
  words <> []
  /\ join " " words = d
  /\ Forall (all_chars (not_char " ")) words
  /\ ((List.length words <= 3)%nat -> extractMerchant d = d)
  /\ (forall w1 w2 rest,
        (2 <= List.length rest)%nat -> words = (w1 :: w2 :: rest)%list ->
        extractMerchant d = w1 ++ " " ++ w2)
  /\ (exists rest, d = extractMerchant d ++ rest)
  /\ (d <> EmptyString -> extractMerchant d <> EmptyString)
  /\ (extractMerchant d = "Unknown" -> d = "Unknown").
Proof.
  cbv zeta.
  split; [apply (split_by_nonempty (Ascii.eqb " ") d)|].
  split; [apply (join_split_char " " d)|].
  split; [apply (split_char_words " " d)|].
  split; [apply extractMerchant_short|].
  split; [apply extractMerchant_long|].
  split; [apply extractMerchant_is_prefix|].
  split; [apply extractMerchant_not_empty|].
  destruct (extractMerchant_cases d) as [H|[w1 [w2 [rest [Hr E]]]]].
  - now rewrite (extractMerchant_short d H).
  - rewrite (extractMerchant_long d w1 w2 rest Hr E). intros H. exfalso.
    assert (Hu : all_chars (not_char " ") "Unknown").
    { intros c Hc. simpl in Hc.
      repeat (destruct Hc as [<-|Hc]; [reflexivity|]). contradiction. }
    rewrite <- H in Hu. apply all_chars_app in Hu. destruct Hu as [_ Hu].
    apply all_chars_cons in Hu. destruct Hu as [Hu _]. discriminate Hu.
Qed.

(** ** Part XXII.  The CSV parser: what a parsed transaction looks like *)

Module RowFacts.
Import Spec JsString JsNumber JsArray Categorize CsvParser.
Import StringFacts NumberFacts ParserFacts CsvFacts TextFacts BatchFacts FieldFacts.

Lemma numbered_rows_In (n : nat) (lines : list string) (r : nat * string) :
  In r (numbered_rows n lines) -> exists l, In l lines /\ snd r = trim l.
Proof.
  unfold numbered_rows. intros H. apply filter_In in H. destruct H as [H _].
  destruct r as [i s]. apply in_combine_r in H. apply in_map_iff in H.
  destruct H as [l [Hl Hin]]. exists l. auto.
Qed.

(** A value read from the row is one of the values of the line. *)
Lemma row_get_In (headers values : list string) (key v : string) :
  row_get (combine headers values) key = Some v -> In v values.
Proof.
  assert (H : forall row, row_get row key = Some v -> exists h, In (h, v) row).
  { induction row as [|[h x] row IH]; simpl; [discriminate|].
    destruct (row_get row key) as [v'|].
    - intros [= ->]. destruct (IH eq_refl) as [h' Hh']. eauto.
    - destruct (String.eqb h key); [|discriminate]. intros [= ->]. eauto. }
  intros Hget. destruct (H _ Hget) as [h Hh]. now apply in_combine_r in Hh.
Qed.

Lemma or_else_cases (v : option string) (d : string) :
  (exists s, v = Some s /\ s <> EmptyString /\ or_else v d = s)
  \/ (truthy v = None /\ or_else v d = d).
Proof.
  unfold or_else. destruct v as [[|c r]|]; simpl; auto.
  left. exists (String c r). repeat split. discriminate.
Qed.

Lemma positive_field_gt (v : option string) (q : Q) :
  positive_field v = Some q -> (0 < q)%Q.
Proof.
  unfold positive_field. destruct (truthy v); [|discriminate].
  destruct (parseFloat _) as [x|]; [|discriminate].
  destruct (gtb x 0) eqn:E; [|discriminate]. intros [= <-]. now apply gtb_gt.
Qed.

Lemma clean_literal (s : string) :
  trim s = s -> forallb quotable (list_ascii_of_string s) = true -> clean_field s.
Proof.
  intros Ht Hq. split; [exact Ht|]. intros c Hc.
  rewrite forallb_forall in Hq. auto.
Qed.

Lemma categorizeTransaction_clean (t : Transaction) :
  clean_field (categorizeTransaction t).
Proof.
  pose proof (categorizeTransaction_In t) as H. simpl in H.
  repeat (destruct H as [<-|H]; [apply clean_literal; reflexivity|]).
  contradiction.
Qed.

(** The or-else of a value of the line and a default. *)
Lemma or_else_clean (headers values : list string) (key d : string) :
  Forall clean_field values -> d <> EmptyString -> all_chars quotable d ->
  or_else (row_get (combine headers values) key) d <> EmptyString
  /\ all_chars quotable (or_else (row_get (combine headers values) key) d)
  /\ (trim d = d ->
      trim (or_else (row_get (combine headers values) key) d)
      = or_else (row_get (combine headers values) key) d).
Proof.
  intros Hv Hd Hq.
  destruct (or_else_cases (row_get (combine headers values) key) d)
    as [[s [Hs [Hne ->]]]|[_ ->]].
  - apply row_get_In in Hs. rewrite Forall_forall in Hv.
    destruct (Hv s Hs) as [Ht Hc]. auto.
  - auto.
Qed.

(** The transaction of a line. *)
Lemma parseCsvLine_clean (legacy : string -> option Z) (line : string)
    (headers : list string) (format : CsvFormat) (account : Z) (t : Transaction) :
  all_chars (not_char LF) line ->
  parseCsvLine legacy line headers format account = inr t ->
  accountId t = account
  /\ description t <> EmptyString /\ clean_field (description t)
  /\ category t <> EmptyString /\ all_chars quotable (category t)
  /\ merchant t <> EmptyString /\ all_chars quotable (merchant t)
  /\ (format = bank -> ~ (amount t == 0)%Q).
Proof.
  intros Hline Hparse.
  pose proof (parseCsvLine_amount_inv _ _ _ _ _ _ Hparse) as Hamount.
  destruct (parseCsvValues_clean line Hline) as [_ Hvalues].
  assert (Hbank : format = bank -> ~ (amount t == 0)%Q).
  { intros ->. rewrite parse_row_amount_bank in Hamount.
    destruct (positive_field (row_get _ "debit")) as [d|] eqn:Ed.
    - apply positive_field_gt in Ed. injection Hamount as <-. lra.
    - destruct (positive_field (row_get _ "credit")) as [c|] eqn:Ec; [|discriminate].
      apply positive_field_gt in Ec. injection Hamount as <-. lra. }
  unfold parseCsvLine in Hparse. destruct (_ <? _)%nat; [discriminate|].
  set (row := combine headers (parseCsvValues line)) in *.
  destruct (truthy (row_get row "date")) as [dateStr|]; [|discriminate].
  destruct (parse_row_date legacy dateStr) as [time|]; [|discriminate].
  destruct (parse_row_amount row format) as [m|q]; [discriminate|].
  assert (Hu : all_chars quotable "Unknown")
    by (apply (clean_literal "Unknown"); reflexivity).
  assert (Ho : all_chars quotable "Other")
    by (apply (clean_literal "Other"); reflexivity).
  destruct (or_else_clean headers (parseCsvValues line) "description" "Unknown"
              Hvalues ltac:(discriminate) Hu) as [Hd1 [Hd2 Hd3]].
  fold row in Hd1, Hd2, Hd3. specialize (Hd3 eq_refl).
  set (desc := or_else (row_get row "description") "Unknown") in *.
  assert (Hm : extractMerchant desc <> EmptyString
               /\ all_chars quotable (extractMerchant desc)).
  { split; [now apply extractMerchant_not_empty|].
    destruct (extractMerchant_is_prefix desc) as [rest Hrest].
    rewrite Hrest in Hd2. now apply all_chars_app in Hd2. }
  destruct Hm as [Hm1 Hm2].
  destruct (or_else_clean headers (parseCsvValues line) "merchant"
              (extractMerchant desc) Hvalues Hm1 Hm2) as [Hm3 [Hm4 _]].
  destruct (or_else_clean headers (parseCsvValues line) "category" "Other"
              Hvalues ltac:(discriminate) Ho) as [Hc1 [Hc2 _]].
  fold row in Hm3, Hm4, Hc1, Hc2.
  destruct (truthy (option_map trim (truthy (row_get row "category"))));
    injection Hparse as <-; cbn [accountId description category merchant amount] in *.
  - repeat split; auto.
  - repeat split; auto;
      first [apply categorizeTransaction_not_empty | apply categorizeTransaction_clean].
Qed.

End RowFacts.

Import RowFacts.

(** X7.  Every transaction that [parseTransactionCsv] returns has the
    account id it was given, a description, a category and a merchant
    that are not empty, and no double quote and no line feed in any of
    the three; its description is trimmed.  When the file is read as a
    bank file (no amount column), no transaction has the amount 0. *)
Theorem parseTransactionCsv_transactions_clean
    (legacy : string -> option Z) (csvData : string) (account : Z) (t : Transaction) :
  In t (transactions (parseTransactionCsv legacy csvData account)) ->
  clean_transaction account t
  /\ (detectCsvFormat (header_row csvData) = Some bank -> ~ (amount t == 0)%Q).
Proof.
  unfold parseTransactionCsv. fold (header_row csvData).
  destruct (detectCsvFormat (header_row csvData)) as [format|] eqn:Ef;
    [|intros []].
  rewrite parse_lines_spec. cbn [transactions app].
  intros Hin. apply in_flat_map in Hin. destruct Hin as [r [Hr Ht]].
  unfold row_transactions in Ht.
  destruct (parseCsvLine legacy (snd r) (header_row csvData) format account)
    as [m|t'] eqn:Ep; [contradiction|].
  destruct Ht as [<-|[]].
  apply numbered_rows_In in Hr. destruct Hr as [l [Hl Hsnd]].
  assert (Hlf : all_chars (not_char LF) (snd r)).
  { rewrite Hsnd. apply trim_chars.
    pose proof (split_lines_chars csvData) as Hall. rewrite Forall_forall in Hall.
    apply Hall. destruct (split_lines csvData); [contradiction|]. right. exact Hl. }
  destruct (parseCsvLine_clean legacy (snd r) _ format account t' Hlf Ep)
    as [H1 [H2 [H3 [H4 [H5 [H6 [H7 H8]]]]]]].
  split; [unfold clean_transaction; tauto|].
  intros [= E]. now apply H8.
Qed.

(** The theorem at the one transaction of a bank file. *)
Lemma parseTransactionCsv_transactions_clean_witness :
  let csv := "date,description,debit,credit" ++ String LF "2024-02-01,Paycheck,,2500" in
  let t := mkTransaction 7 (utc_midnight 2024 2 1) "Paycheck" 2500 "Income" "Paycheck" in
  In t (transactions (parseTransactionCsv (fun _ => None) csv 7))
  /\ clean_transaction 7 t
  /\ (detectCsvFormat (header_row csv) = Some bank -> ~ (amount t == 0)%Q).
Proof.
  cbv zeta.
  assert (H : In (mkTransaction 7 (utc_midnight 2024 2 1) "Paycheck" 2500 "Income"
                    "Paycheck")
                (transactions
                   (parseTransactionCsv (fun _ => None)
                      ("date,description,debit,credit"
                       ++ String LF "2024-02-01,Paycheck,,2500") 7)))
    by (vm_compute; left; reflexivity).
  split; [exact H|].
  exact (parseTransactionCsv_transactions_clean _ _ _ _ H).
Defined.

(** ** Part XXIII.  The CSV export read back, whatever the texts *)

Module ExportFacts.
Import Spec JsString JsNumber JsDate JsArray Categorize CsvParser.
Import StringFacts NumberFacts DateFacts DecimalFacts ParserFacts CsvFacts.
Import TextFacts BatchFacts FieldFacts RowFacts.
Local Open Scope Z_scope.



Local Close Scope Z_scope.













End ExportFacts.

Import ExportFacts.



(** ** Part XXIV.  The insight generator: high-yield savings *)

Module SavingsFacts.
Import Spec JsString JsNumber Insights NumberFacts.
Local Open Scope Q_scope.




End SavingsFacts.

Import SavingsFacts.


(** ** Part XXV.  The CSV parser: the header line and short dates *)

Module HeaderFacts.
Import Spec JsString JsNumber JsDate JsArray CsvParser.
Import StringFacts NumberFacts DecimalFacts DateFacts CsvFacts RecurringFacts TextFacts.

Lemma chomp_cons (c : ascii) (r : string) :
  chomp (String c r) =
  match r with
  | EmptyString => if Ascii.eqb c CR then EmptyString else String c EmptyString
  | _ => String c (chomp r)
  end.
Proof. destruct r; reflexivity. Qed.

(** The first line of a text. *)
Lemma split_lines_head (h body : string) :
  all_chars (not_char LF) h ->
  split_lines (h ++ String LF body) = chomp h :: split_lines body.
Proof.
  assert (Hb : split_lines (String LF body) = EmptyString :: split_lines body).
  { rewrite split_lines_cons. destruct (split_lines body) as [|w ws] eqn:E.
    - now apply split_lines_nonempty in E.
    - reflexivity. }
  induction h as [|c h IH]; intros H; [exact Hb|].
  apply all_chars_cons in H. destruct H as [Hc Hh]. specialize (IH Hh).
  unfold not_char in Hc. rewrite negb_true_iff in Hc.
  cbn [append]. rewrite split_lines_cons, IH, Hc, chomp_cons.
  destruct h as [|c' h'].
  - cbn [append chomp]. change (prefix (String LF EmptyString) (String LF body)) with
      (prefix EmptyString body).
    assert (Hp : prefix EmptyString body = true) by (destruct body; reflexivity).
    rewrite Hp, andb_true_r. destruct (Ascii.eqb c CR); reflexivity.
  - apply all_chars_cons in Hh. destruct Hh as [Hc' _].
    unfold not_char in Hc'. rewrite negb_true_iff in Hc'.
    assert (Hp : prefix (String LF EmptyString) (String c' h' ++ String LF body) = false).
    { cbn [append prefix]. destruct (ascii_dec LF c') as [E|E]; [|reflexivity].
      subst c'. discriminate Hc'. }
    rewrite Hp, andb_false_r. reflexivity.
Qed.

Lemma lower_char_control (c x : ascii) :
  (nat_of_ascii x < 65)%nat -> Ascii.eqb (lower_char c) x = Ascii.eqb c x.
Proof.
  intros Hx. unfold lower_char. destruct (is_upper c) eqn:E; [|reflexivity].
  unfold is_upper in E. apply andb_true_iff in E. destruct E as [E1 E2].
  apply Nat.leb_le in E1, E2.
  destruct (Ascii.eqb_spec c x) as [->|Hne]; [lia|].
  apply Ascii.eqb_neq. intros Heq. apply (f_equal nat_of_ascii) in Heq.
  rewrite nat_ascii_embedding in Heq by lia. lia.
Qed.

Lemma toLowerCase_chomp (s : string) : toLowerCase (chomp s) = chomp (toLowerCase s).
Proof.
  induction s as [|c r IH]; [reflexivity|].
  change (toLowerCase (String c r)) with (String (lower_char c) (toLowerCase r)).
  rewrite !chomp_cons. destruct r as [|c' r'].
  - cbn [toLowerCase map_chars]. rewrite (lower_char_control c CR) by (apply Nat.ltb_lt; reflexivity).
    destruct (Ascii.eqb c CR); reflexivity.
  - change (toLowerCase (String c' r')) with (String (lower_char c') (toLowerCase r')) in *.
    change (toLowerCase (String c (chomp (String c' r'))))
      with (String (lower_char c) (toLowerCase (chomp (String c' r')))).
    now rewrite IH.
Qed.

Lemma toLowerCase_not_LF (s : string) :
  all_chars (not_char LF) s -> all_chars (not_char LF) (toLowerCase s).
Proof.
  induction s as [|c r IH]; intros H; [exact H|].
  apply all_chars_cons in H. destruct H as [Hc Hr].
  change (toLowerCase (String c r)) with (String (lower_char c) (toLowerCase r)).
  apply all_chars_cons. split; [|auto].
  unfold not_char in *. now rewrite (lower_char_control c LF) by (apply Nat.ltb_lt; reflexivity).
Qed.

Local Open Scope Z_scope.

Lemma days_from_civil_range (y m d : Z) :
  0 <= y <= 9999 -> 1 <= m <= 12 -> 1 <= d <= 31 ->
  Z.abs (days_from_civil y m d * msPerDay) <= maxTime.
Proof.
  intros Hy Hm Hd. unfold days_from_civil, msPerDay, maxTime.
  destruct (m <=? 2) eqn:E1; destruct (2 <? m) eqn:E2;
    try (apply Z.leb_le in E1); try (apply Z.leb_gt in E1);
    try (apply Z.ltb_lt in E2); try (apply Z.ltb_ge in E2); try lia;
    Z.to_euclidean_division_equations; lia.
Qed.

Lemma digit_not_separator (c : ascii) :
  is_digit c = true -> is_date_separator c = false.
Proof.
  destruct c as [[] [] [] [] [] [] [] []]; intros H; try discriminate H; reflexivity.
Qed.

Lemma numeral_no_separator (s : string) :
  numeral s -> all_chars (fun c => negb (is_date_separator c)) s.
Proof.
  apply all_chars_weaken. intros c Hc. now rewrite digit_not_separator.
Qed.

Lemma split_by_none (p : ascii -> bool) (w : string) :
  all_chars (fun c => negb (p c)) w -> split_by p w = [w].
Proof.
  induction w as [|c w IH]; intros H; [reflexivity|].
  apply all_chars_cons in H. destruct H as [Hc Hw].
  rewrite negb_true_iff in Hc. cbn [split_by]. now rewrite (IH Hw), Hc.
Qed.

Lemma split_by_word (p : ascii -> bool) (w : string) (s : ascii) (rest : string) :
  all_chars (fun c => negb (p c)) w -> p s = true ->
  split_by p (w ++ String s rest) = w :: split_by p rest.
Proof.
  intros Hw Hs. induction w as [|c w IH].
  - cbn [append split_by]. pose proof (split_by_nonempty p rest) as Hne.
    destruct (split_by p rest); [contradiction|]. now rewrite Hs.
  - apply all_chars_cons in Hw. destruct Hw as [Hc Hw].
    rewrite negb_true_iff in Hc. cbn [append split_by]. now rewrite (IH Hw), Hc.
Qed.

Lemma short_date_parts (a b y : N) (s1 s2 : ascii) :
  is_date_separator s1 = true -> is_date_separator s2 = true ->
  split_by is_date_separator (short_date a b y s1 s2) = [pad2 a; pad2 b; pad4 y].
Proof.
  intros H1 H2. unfold short_date.
  rewrite split_by_word by (try apply numeral_no_separator, pad2_numeral; assumption).
  rewrite split_by_word by (try apply numeral_no_separator, pad2_numeral; assumption).
  rewrite split_by_none by (apply numeral_no_separator, pad4_numeral).
  reflexivity.
Qed.

(** A short date is not of the Date Time String Format. *)
Lemma short_date_not_iso (a b y : N) (s1 s2 : ascii) :
  is_date_separator s1 = true -> parse_iso_date (short_date a b y s1 s2) = None.
Proof.
  intros H1. unfold parse_iso_date, short_date.
  change (String.length (pad2 a ++ String s1 (pad2 b ++ String s2 (pad4 y)))) with 10%nat.
  cbn [Nat.eqb].
  assert (E : all_digits (substring 0 4 (pad2 a ++ String s1 (pad2 b ++ String s2 (pad4 y))))
              = false).
  { unfold pad2. cbn [append substring]. unfold all_digits. cbn [span_digits].
    assert (Hs : is_digit s1 = false).
    { destruct (is_digit s1) eqn:E; [|reflexivity].
      apply digit_not_separator in E. congruence. }
    rewrite !is_digit_char by (apply N.mod_lt; lia). now rewrite Hs. }
  now rewrite E.
Qed.

(** The date-only form is read as the date it writes, if it exists. *)
Lemma Date_parse_iso_date (legacy : string -> option Z) (y m d : N) :
  (y < 10000)%N -> (m < 100)%N -> (d < 100)%N ->
  Date_parse legacy (iso_date y m d)
  = if date_exists y m d
    then Some (utc_midnight (Z.of_N y) (Z.of_N m) (Z.of_N d))
    else legacy (iso_date y m d).
Proof.
  intros Hy Hm Hd. unfold Date_parse, iso_date.
  assert (Ey : iso_year (Z.of_N y) = pad4 y).
  { unfold iso_year.
    assert (E : (0 <=? Z.of_N y) && (Z.of_N y <=? 9999) = true)
      by (apply andb_true_iff; split; apply Z.leb_le; lia).
    now rewrite E, N2Z.id. }
  rewrite <- Ey.
  change (iso_year (Z.of_N y) ++ "-" ++ pad2 m ++ "-" ++ pad2 d)%string
    with (iso_year (Z.of_N y) ++ String "-" (pad2 m) ++ String "-" (pad2 d))%string.
  rewrite parse_iso_year by lia. rewrite calendar_date_padded by assumption.
  unfold date_exists, utc_midnight.
  destruct ((1 <=? m)%N && (m <=? 12)%N && (1 <=? d)%N
            && (Z.of_N d <=? days_in_month (Z.of_N y) (Z.of_N m))) eqn:E.
  - rewrite !andb_true_iff, !N.leb_le, Z.leb_le in E.
    pose proof (days_in_month_le (Z.of_N y) (Z.of_N m)).
    assert (E1 : (1 <=? Z.of_N m) && (Z.of_N m <=? 12) && (1 <=? Z.of_N d)
                 && (Z.of_N d <=? days_in_month (Z.of_N y) (Z.of_N m))
                 && (Z.abs (days_from_civil (Z.of_N y) (Z.of_N m) (Z.of_N d) * msPerDay)
                     <=? maxTime) = true).
    { rewrite !andb_true_iff, !Z.leb_le. repeat split; try lia.
      apply days_from_civil_range; lia. }
    now rewrite E1.
  - assert (E1 : (1 <=? Z.of_N m) && (Z.of_N m <=? 12) && (1 <=? Z.of_N d)
                 && (Z.of_N d <=? days_in_month (Z.of_N y) (Z.of_N m)) = false).
    { rewrite <- E.
      replace (1 <=? Z.of_N m) with (1 <=? m)%N
        by (destruct (Z.leb_spec 1 (Z.of_N m)), (N.leb_spec 1 m); try reflexivity; lia).
      replace (Z.of_N m <=? 12) with (m <=? 12)%N
        by (destruct (Z.leb_spec (Z.of_N m) 12), (N.leb_spec m 12); try reflexivity; lia).
      replace (1 <=? Z.of_N d) with (1 <=? d)%N
        by (destruct (Z.leb_spec 1 (Z.of_N d)), (N.leb_spec 1 d); try reflexivity; lia).
      reflexivity. }
    now rewrite E1.
Qed.

End HeaderFacts.

Import HeaderFacts.

(** X10.  [parseTransactionCsv] reads the header line without regard to
    the case of its letters: two files with the same lines after the
    first, whose first lines differ only in the case of letters, give the
    same transactions and the same errors. *)
Theorem parseTransactionCsv_header_case
    (legacy : string -> option Z) (h1 h2 body : string) (account : Z) :
  all_chars (not_char LF) h1 -> all_chars (not_char LF) h2 ->
  toLowerCase h1 = toLowerCase h2 ->
  parseTransactionCsv legacy (h1 ++ String LF body) account
  = parseTransactionCsv legacy (h2 ++ String LF body) account.
Proof.
  intros H1 H2 E. unfold parseTransactionCsv.
  rewrite !split_lines_head by assumption. cbn [hd tl].
  now rewrite !toLowerCase_chomp, E.
Qed.

(** The theorem at a header in capitals. *)
Lemma parseTransactionCsv_header_case_witness :
  parseTransactionCsv (fun _ => None)
    ("Date,DESCRIPTION,Amount" ++ String LF "2024-01-15,Coffee,-4.50") 7
  = parseTransactionCsv (fun _ => None)
      ("date,description,amount" ++ String LF "2024-01-15,Coffee,-4.50") 7.
Proof.
  assert (Hchars : forall (p : ascii -> bool) (s : string),
             forallb p (list_ascii_of_string s) = true -> all_chars p s).
  { intros p s Hp c Hc. rewrite forallb_forall in Hp. auto. }
  apply parseTransactionCsv_header_case;
    [apply Hchars; reflexivity | apply Hchars; reflexivity | reflexivity].
Defined.

(** X11.  A date of two digits, two digits and four digits, separated by
    a slash, a hyphen or a dot, that [Date.parse] itself rejects, is read
    month first: when the first part is a month and the second a day of
    it, the date is the UTC midnight of that day.  Only when it is not,
    and [Date.parse] makes nothing of the rearranged string either, is it
    read day first, as the UTC midnight of the day of the first part in
    the month of the second, if that date exists. *)
Theorem parse_row_date_month_first
    (legacy : string -> option Z) (a b y : N) (s1 s2 : ascii) :
  is_date_separator s1 = true -> is_date_separator s2 = true ->
  (a < 100)%N -> (b < 100)%N -> (y < 10000)%N ->
  legacy (short_date a b y s1 s2) = None ->
  parse_row_date legacy (short_date a b y s1 s2)
  = if date_exists y a b then Some (utc_midnight (Z.of_N y) (Z.of_N a) (Z.of_N b))
    else match legacy (iso_date y a b) with
         | Some t => Some t
         | None =>
             if date_exists y b a
             then Some (utc_midnight (Z.of_N y) (Z.of_N b) (Z.of_N a))
             else legacy (iso_date y b a)
         end.
Proof.
  intros H1 H2 Ha Hb Hy Hl. unfold parse_row_date, new_Date.
  assert (E : Date_parse legacy (short_date a b y s1 s2) = None).
  { unfold Date_parse. now rewrite short_date_not_iso, Hl. }
  rewrite E, short_date_parts by assumption.
  change (pad4 y ++ "-" ++ pad2 a ++ "-" ++ pad2 b)%string with (iso_date y a b).
  change (pad4 y ++ "-" ++ pad2 b ++ "-" ++ pad2 a)%string with (iso_date y b a).
  rewrite !Date_parse_iso_date by assumption.
  destruct (date_exists y a b); [reflexivity|].
  destruct (legacy (iso_date y a b)); reflexivity.
Qed.

(** The theorem at the 15th of January, written day first. *)
Lemma parse_row_date_month_first_witness :
  parse_row_date (fun _ => None) "15/01/2024" = Some (utc_midnight 2024 1 15).
Proof.
  change "15/01/2024" with (short_date 15 1 2024 "/" "/").
  rewrite (parse_row_date_month_first (fun _ => None) 15 1 2024 "/" "/");
    reflexivity.
Defined.

(** ** Part XXVI.  Spending alerts and inherited names; line ends *)

Import ShapeFacts.

(** X12.  Every alert that [findSpendingIncreases] returns is for a
    category that is neither "Income" nor "Other" and that names no
    member inherited from Object.prototype.  A category called
    constructor, toString or valueOf, say, never gets an alert, whatever
    was spent on it: its slot in the month is never a number. *)
Theorem findSpendingIncreases_plain_categories
    (LocalTZA : Z -> Z) (txs : list Transaction) :
  Forall (fun i =>
            exists c increasePercent potentialSavings,
              inherited c = false /\ c <> "Income" /\ c <> "Other"
              /\ i = spending_alert c increasePercent potentialSavings)
    (findSpendingIncreases LocalTZA txs)
  /\ (forall c i, inherited c = true -> In i (findSpendingIncreases LocalTZA txs) ->
        title i <> c ++ " Spending Increased").
Proof.
  assert (H : Forall (fun i =>
            exists c increasePercent potentialSavings,
              inherited c = false /\ c <> "Income" /\ c <> "Other"
              /\ i = spending_alert c increasePercent potentialSavings)
    (findSpendingIncreases LocalTZA txs)).
  { apply Forall_forall. intros i Hin.
    rewrite findSpendingIncreases_collected in Hin.
    apply firstn_In in Hin. apply sort_in in Hin.
    unfold collected_alerts in Hin.
    destruct (compared_months LocalTZA txs) as [[prev cur]|] eqn:E; [|contradiction].
    destruct (compared_months_data LocalTZA txs prev cur E)
      as [pd [cd [Hp [Hc [Hbp [Hbc _]]]]]].
    rewrite Hp, Hc in Hin. apply in_flat_map in Hin.
    destruct Hin as [[c v] [_ Hi]]. apply compare_category_In in Hi.
    destruct Hi as [p [a [Hprev [_ [_ [Hinc [Hoth ->]]]]]]].
    exists c. do 2 eexists. split; [|split; [exact Hinc | split; [exact Hoth|]]].
    - exact (previous_plain _ _ _ _ Hbp Hprev).
    - reflexivity. }
  split; [exact H|].
  intros c i Hc Hin Htitle. rewrite Forall_forall in H.
  destruct (H i Hin) as [c' [n [m [Hc' [_ [_ ->]]]]]].
  cbn [title spending_alert] in Htitle. apply append_inv_tail in Htitle.
  congruence.
Qed.

Module LineFacts.
Import Spec JsString JsArray CsvParser StringFacts ParserFacts CsvFacts TextFacts.

Lemma split_lines_LF (b : string) :
  split_lines (String LF b) = EmptyString :: split_lines b.
Proof.
  rewrite split_lines_cons. destruct (split_lines b) as [|w ws] eqn:E.
  - now apply split_lines_nonempty in E.
  - reflexivity.
Qed.

Lemma split_lines_other (c : ascii) (r : string) :
  Ascii.eqb c LF = false -> Ascii.eqb c CR = false ->
  split_lines (String c r)
  = match split_lines r with
    | w :: ws => String c w :: ws
    | [] => [EmptyString]
    end.
Proof.
  intros H1 H2. rewrite split_lines_cons, H1, H2.
  destruct (split_lines r); reflexivity.
Qed.

Lemma split_lines_crlf (s : string) :
  all_chars (not_char CR) s -> split_lines (crlf s) = split_lines s.
Proof.
  induction s as [|c r IH]; intros H; [reflexivity|].
  apply all_chars_cons in H. destruct H as [Hc Hr]. specialize (IH Hr).
  unfold not_char in Hc. rewrite negb_true_iff in Hc.
  cbn [crlf]. destruct (Ascii.eqb_spec c LF) as [->|Hne].
  - rewrite split_lines_cons, !split_lines_LF, IH.
    change (Ascii.eqb CR LF) with false. cbv iota.
    change (Ascii.eqb CR CR) with true.
    assert (Hp : prefix (String LF EmptyString) (String LF (crlf r)) = true)
      by (simpl; destruct (crlf r); reflexivity).
    now rewrite Hp.
  - apply Ascii.eqb_neq in Hne. rewrite !split_lines_other by assumption.
    now rewrite IH.
Qed.

Lemma split_lines_trailing (s : string) :
  all_chars (not_char CR) s ->
  split_lines (s ++ String LF EmptyString) = (split_lines s ++ [EmptyString])%list.
Proof.
  induction s as [|c r IH]; intros H; [reflexivity|].
  apply all_chars_cons in H. destruct H as [Hc Hr]. specialize (IH Hr).
  unfold not_char in Hc. rewrite negb_true_iff in Hc.
  cbn [append]. destruct (Ascii.eqb_spec c LF) as [->|Hne].
  - now rewrite !split_lines_LF, IH.
  - apply Ascii.eqb_neq in Hne. rewrite !split_lines_other by assumption.
    rewrite IH. pose proof (split_lines_nonempty r) as Hn.
    destruct (split_lines r); [contradiction | reflexivity].
Qed.

(** A blank line at the end is no row. *)
Lemma numbered_rows_blank (n : nat) (lines : list string) :
  numbered_rows n (lines ++ [EmptyString]) = numbered_rows n lines.
Proof.
  revert n. induction lines as [|l lines IH]; intros n; [reflexivity|].
  unfold numbered_rows in *. cbn [app List.length seq map combine filter].
  specialize (IH (S n)). rewrite IH. reflexivity.
Qed.

End LineFacts.

Import LineFacts.

(** X13.  For a file without carriage returns, [parseTransactionCsv]
    returns the same transactions and the same errors when every line
    feed is given a carriage return before it, as in a file with Windows
    line ends, and when a line feed is added at the end of the file. *)
Theorem parseTransactionCsv_line_ends
    (legacy : string -> option Z) (csvData : string) (account : Z) :
  all_chars (not_char CR) csvData ->
  parseTransactionCsv legacy (crlf csvData) account
  = parseTransactionCsv legacy csvData account
  /\ parseTransactionCsv legacy (csvData ++ String LF EmptyString) account
     = parseTransactionCsv legacy csvData account.
Proof.
  intros H. unfold parseTransactionCsv.
  rewrite split_lines_crlf, split_lines_trailing by exact H.
  split; [reflexivity|].
  pose proof (split_lines_nonempty csvData) as Hn.
  destruct (split_lines csvData) as [|h lines]; [contradiction|].
  cbn [app hd tl]. destruct (detectCsvFormat _); [|reflexivity].
  now rewrite !parse_lines_spec, numbered_rows_blank.
Qed.

(** The theorem at a file of one row. *)
Lemma parseTransactionCsv_line_ends_witness :
  parseTransactionCsv (fun _ => None)
    (crlf ("date,description,amount" ++ String LF "2024-01-15,Coffee,-4.50")) 7
  = parseTransactionCsv (fun _ => None)
      ("date,description,amount" ++ String LF "2024-01-15,Coffee,-4.50") 7
  /\ parseTransactionCsv (fun _ => None)
       (("date,description,amount" ++ String LF "2024-01-15,Coffee,-4.50")
        ++ String LF EmptyString) 7
     = parseTransactionCsv (fun _ => None)
         ("date,description,amount" ++ String LF "2024-01-15,Coffee,-4.50") 7.
Proof.
  apply parseTransactionCsv_line_ends.
  intros c Hc. apply (proj1 (forallb_forall (not_char CR) _)) with (x := c) in Hc;
    [exact Hc | reflexivity].
Defined.

(** ** Part XXVII.  The CSV parser: the order of the columns *)

Module ColumnFacts.
Import Spec JsString JsArray CsvParser StringFacts.

(** A read of the [row] object finds a value that some column gave. *)
Lemma row_get_key (row : list (string * string)) (k v : string) :
  row_get row k = Some v -> In (k, v) row.
Proof.
  induction row as [|[h x] row IH]; simpl; [discriminate|].
  destruct (row_get row k) as [v'|].
  - intros [= ->]. auto.
  - destruct (String.eqb_spec h k) as [->|]; [|discriminate]. intros [= ->]. auto.
Qed.

Lemma row_get_Some (row : list (string * string)) (k v : string) :
  NoDup (map fst row) -> In (k, v) row -> row_get row k = Some v.
Proof.
  induction row as [|[h x] row IH]; simpl; [tauto|].
  intros Hnd Hin. inversion Hnd as [|? ? Hh Hrow]; subst.
  destruct Hin as [E|Hin].
  - injection E as -> ->.
    destruct (row_get row k) as [v'|] eqn:Eg.
    + exfalso. apply Hh. apply row_get_key in Eg. apply (in_map fst) in Eg. exact Eg.
    + now rewrite String.eqb_refl.
  - now rewrite (IH Hrow Hin).
Qed.

Lemma combine_keys {A B} (l : list A) (l' : list B) :
  (List.length l <= List.length l')%nat -> map fst (combine l l') = l.
Proof.
  revert l'. induction l as [|a l IH]; intros [|b l'] H; simpl in *;
    try reflexivity; try lia.
  f_equal. apply IH. lia.
Qed.

Lemma row_get_None (row : list (string * string)) (k : string) :
  ~ In k (map fst row) -> row_get row k = None.
Proof.
  induction row as [|[h x] row IH]; simpl; [reflexivity|].
  intros H. rewrite IH by tauto.
  destruct (String.eqb_spec h k) as [->|]; [|reflexivity]. exfalso. auto.
Qed.

(** A row whose columns have names of their own reads the same in any
    order of the columns. *)
Lemma row_get_perm (row row' : list (string * string)) (k : string) :
  NoDup (map fst row) -> Permutation row row' -> row_get row k = row_get row' k.
Proof.
  intros Hnd Hp.
  assert (Hnd' : NoDup (map fst row')).
  { eapply Permutation_NoDup; [|exact Hnd]. now apply Permutation_map. }
  destruct (in_dec string_dec k (map fst row)) as [Hin|Hout].
  - apply in_map_iff in Hin. destruct Hin as [[k' v] [E Hin]]. simpl in E. subst k'.
    rewrite (row_get_Some row k v Hnd Hin).
    symmetry. apply row_get_Some; [exact Hnd'|]. eapply Permutation_in; eauto.
  - rewrite (row_get_None row k Hout). symmetry. apply row_get_None.
    intros Hin. apply Hout. eapply Permutation_in; [|exact Hin].
    apply Permutation_map. now symmetry.
Qed.

End ColumnFacts.

Import ColumnFacts.

(** X21.  [parseCsvLine] does not depend on the order of the columns:
    when the header names are all different and two lines give the same
    value to every header, each in the order of its own header line,
    both lines are parsed to the same transaction or fail with the same
    message. *)
Theorem parseCsvLine_column_order
    (legacy : string -> option Z) (line line' : string) (headers headers' : list string)
    (format : CsvFormat) (account : Z) :
  NoDup headers ->
  (List.length headers <= List.length (parseCsvValues line))%nat ->
  (List.length headers' <= List.length (parseCsvValues line'))%nat ->
  Permutation (combine headers (parseCsvValues line))
    (combine headers' (parseCsvValues line')) ->
  parseCsvLine legacy line headers format account
  = parseCsvLine legacy line' headers' format account.
Proof.
  intros Hnd Hlen Hlen' Hp.
  assert (Hrow : forall k, row_get (combine headers (parseCsvValues line)) k
                           = row_get (combine headers' (parseCsvValues line')) k).
  { intros k. apply row_get_perm; [|exact Hp].
    rewrite combine_keys by exact Hlen. exact Hnd. }
  unfold parseCsvLine, parse_row_amount.
  apply Nat.ltb_ge in Hlen, Hlen'. rewrite Hlen, Hlen'.
  now rewrite !Hrow.
Qed.

(** The theorem at a row whose amount column comes first. *)
Lemma parseCsvLine_column_order_witness :
  parseCsvLine (fun _ => None) "2024-01-15,Coffee,-4.50"
    ["date"; "description"; "amount"] standard 1
  = parseCsvLine (fun _ => None) "-4.50,2024-01-15,Coffee"
      ["amount"; "date"; "description"] standard 1.
Proof.
  apply parseCsvLine_column_order.
  - repeat constructor; simpl; intuition discriminate.
  - vm_compute. lia.
  - vm_compute. lia.
  - change (Permutation
              [("date", "2024-01-15"); ("description", "Coffee"); ("amount", "-4.50")]
              [("amount", "-4.50"); ("date", "2024-01-15"); ("description", "Coffee")]).
    apply Permutation_sym.
    apply (Permutation_cons_app [("date", "2024-01-15"); ("description", "Coffee")] []).
    rewrite app_nil_r. apply Permutation_refl.
Defined.

(** ** Part XXVIII.  The in-memory storage *)

Module MapFacts.
Import JsMap.
Local Open Scope Z_scope.

Section Maps.
Context {V : Type}.
Implicit Types (m : Map V) (k : Z) (v : V).

Lemma get_set_same k v m : get k (set k v m) = Some v.
Proof.
  induction m as [|[k' v'] m IH]; simpl.
  - now rewrite Z.eqb_refl.
  - destruct (k =? k') eqn:E; simpl; rewrite ?E, ?Z.eqb_refl; auto.
Qed.

Lemma get_set_other k k' v m : k' <> k -> get k' (set k v m) = get k' m.
Proof.
  intros Hne. induction m as [|[k0 v0] m IH]; simpl.
  - destruct (Z.eqb_spec k' k); [contradiction | reflexivity].
  - destruct (Z.eqb_spec k k0) as [->|Hk]; simpl.
    + destruct (Z.eqb_spec k' k0); [contradiction | reflexivity].
    + destruct (k' =? k0); auto.
Qed.

Lemma get_In k v m : get k m = Some v -> In (k, v) m.
Proof.
  induction m as [|[k' v'] m IH]; simpl; [discriminate|].
  destruct (Z.eqb_spec k k') as [->|Hne]; [intros [= ->]; auto | auto].
Qed.

Lemma get_None k m : get k m = None <-> ~ In k (map fst m).
Proof.
  induction m as [|[k' v'] m IH]; simpl; [tauto|].
  destruct (Z.eqb_spec k k') as [->|Hne].
  - split; [discriminate | intros H; exfalso; auto].
  - rewrite IH. split; [intros H [E|E]; [congruence | auto] | auto].
Qed.

Lemma In_get k v m : NoDup (map fst m) -> In (k, v) m -> get k m = Some v.
Proof.
  induction m as [|[k' v'] m IH]; simpl; [tauto|].
  intros Hnd [E|Hin].
  - injection E as -> ->. now rewrite Z.eqb_refl.
  - inversion Hnd as [|? ? Hk Hm]; subst.
    destruct (Z.eqb_spec k k') as [->|Hne]; [|auto].
    exfalso. apply Hk. apply (in_map fst) in Hin. exact Hin.
Qed.

(** The keys after a [set]: the same when the key is there, one more at
    the end when it is not. *)
Lemma set_keys k v m :
  map fst (set k v m)
  = match get k m with
    | Some _ => map fst m
    | None => (map fst m ++ [k])%list
    end.
Proof.
  induction m as [|[k' v'] m IH]; simpl; [reflexivity|].
  destruct (Z.eqb_spec k k') as [->|Hne]; simpl; [reflexivity|].
  rewrite IH. destruct (get k m); reflexivity.
Qed.

Lemma set_In k v m k0 v0 :
  In (k0, v0) (set k v m) -> (k0, v0) = (k, v) \/ In (k0, v0) m.
Proof.
  induction m as [|[k' v'] m IH]; simpl.
  - intros [E|[]]. left. congruence.
  - destruct (Z.eqb_spec k k') as [->|Hne]; simpl.
    + intros [E|Hin]; [left; congruence | auto].
    + intros [E|Hin]; [auto|]. destruct (IH Hin); auto.
Qed.

Lemma set_NoDup k v m : NoDup (map fst m) -> NoDup (map fst (set k v m)).
Proof.
  intros H. rewrite set_keys. destruct (get k m) eqn:E; [exact H|].
  apply get_None in E. apply NoDup_app; [exact H | repeat constructor; auto |].
  intros x Hx [<-|[]]. contradiction.
Qed.

Lemma delete_get k m : get k (snd (delete k m)) = None.
Proof.
  unfold delete. cbn [snd]. apply get_None. intros H.
  apply in_map_iff in H. destruct H as [[k' v'] [E H]]. simpl in E. subst k'.
  apply filter_In in H. destruct H as [_ H]. simpl in H.
  now rewrite Z.eqb_refl in H.
Qed.

Lemma delete_get_other k k' m : k' <> k -> get k' (snd (delete k m)) = get k' m.
Proof.
  intros Hne. unfold delete. cbn [snd].
  induction m as [|[k0 v0] m IH]; simpl; [reflexivity|].
  destruct (Z.eqb_spec k k0) as [->|Hk]; simpl.
  - destruct (Z.eqb_spec k' k0); [contradiction | exact IH].
  - rewrite IH. reflexivity.
Qed.

Lemma delete_fst k m : fst (delete k m) = true <-> get k m <> None.
Proof.
  unfold delete. cbn [fst]. destruct (get k m); split; congruence.
Qed.

Lemma delete_In k m k0 v0 : In (k0, v0) (snd (delete k m)) -> In (k0, v0) m.
Proof. unfold delete. cbn [snd]. intros H. apply filter_In in H. tauto. Qed.

Lemma delete_NoDup k m : NoDup (map fst m) -> NoDup (map fst (snd (delete k m))).
Proof.
  unfold delete. cbn [snd]. induction m as [|[k0 v0] m IH]; simpl; [auto|].
  intros H. inversion H as [|? ? Hk Hm]; subst.
  destruct (negb (k =? k0)); [|auto]. simpl. constructor; [|auto].
  intros Hin. apply Hk. apply in_map_iff in Hin. destruct Hin as [[k1 v1] [E Hin]].
  apply filter_In in Hin. destruct Hin as [Hin _]. simpl in E. subst k1.
  apply (in_map fst) in Hin. exact Hin.
Qed.

End Maps.
End MapFacts.

Module StorageFacts.
Import JsArray JsMap MemStorage StorageSpec SortFacts MapFacts.
Local Open Scope Z_scope.

(** *** Tables *)

Lemma table_ok_nil {V} (key : V -> Z) : table_ok key [] 1.
Proof. split; [constructor | intros k v []]. Qed.

Lemma table_ok_fresh {V} (key : V -> Z) (m : Map V) (next : Z) :
  table_ok key m next -> forall k, next <= k -> get k m = None.
Proof.
  intros [_ H] k Hk. destruct (get k m) as [v|] eqn:E; [|reflexivity].
  apply get_In in E. apply H in E. lia.
Qed.

Lemma table_ok_create {V} (key : V -> Z) (m : Map V) (next : Z) (v : V) :
  table_ok key m next -> key v = next -> 1 <= next ->
  table_ok key (set next v m) (next + 1).
Proof.
  intros Hok Hkey Hnext. destruct Hok as [Hnd H]. split.
  - now apply set_NoDup.
  - intros k0 v0 Hin. apply set_In in Hin. destruct Hin as [E|Hin].
    + injection E as -> ->. split; [exact Hkey | lia].
    + apply H in Hin. split; [tauto | lia].
Qed.

Lemma table_ok_update {V} (key : V -> Z) (m : Map V) (next k : Z) (old v : V) :
  table_ok key m next -> get k m = Some old -> key v = k ->
  table_ok key (set k v m) next.
Proof.
  intros [Hnd H] Hget Hkey. split.
  - now apply set_NoDup.
  - intros k0 v0 Hin. apply set_In in Hin. destruct Hin as [E|Hin]; [|auto].
    injection E as -> ->. split; [exact Hkey|].
    apply get_In in Hget. apply H in Hget. tauto.
Qed.

Lemma table_ok_delete {V} (key : V -> Z) (m : Map V) (next k : Z) :
  table_ok key m next -> table_ok key (snd (delete k m)) next.
Proof.
  intros [Hnd H]. split; [now apply delete_NoDup|].
  intros k0 v0 Hin. apply delete_In in Hin. auto.
Qed.

Lemma table_ok_next {V} (key : V -> Z) (m : Map V) (next next' : Z) :
  table_ok key m next -> next <= next' -> table_ok key m next'.
Proof.
  intros [Hnd H] Hle. split; [exact Hnd|]. intros k v Hin.
  apply H in Hin. split; [tauto | lia].
Qed.

(** The values of a table, by their keys. *)
Lemma table_ok_keys {V} (key : V -> Z) (m : Map V) (next : Z) :
  table_ok key m next -> map key (values m) = map fst m.
Proof.
  intros [_ H]. unfold values. rewrite map_map. apply map_ext_in.
  intros [k v] Hin. apply H in Hin. simpl. tauto.
Qed.

(** *** The state *)

Lemma createTransaction_consistent (t : InsertTransaction) (s : State.t) :
  consistent s -> consistent (snd (createTransaction t s)).
Proof.
  intros [Ha [Ht [Hc1 Hc2]]]. unfold createTransaction. cbn [snd].
  split; [|split; [|split]];
    cbn [State.accounts State.transactions State.accountId State.transactionId];
    try assumption; try lia.
  apply table_ok_create; [exact Ht | reflexivity | exact Hc2].
Qed.

Lemma createTransactions_loop_consistent (ts : list InsertTransaction)
    (created : list StoredTransaction) (s : State.t) :
  consistent s -> consistent (snd (createTransactions_loop ts created s)).
Proof.
  revert created s. induction ts as [|t ts IH]; intros created s H; [exact H|].
  cbn [createTransactions_loop].
  pose proof (createTransaction_consistent t s H) as H'.
  destruct (createTransaction t s) as [new s']. apply IH. exact H'.
Qed.

(** Every call keeps the tables in order. *)
Lemma run_consistent (s : State.t) (c : call) : consistent s -> consistent (run s c).
Proof.
  intros H. destruct c as [now a|now k u|k|t|ts|k]; cbn [run].
  - destruct H as [Ha [Ht [Hc1 Hc2]]]. unfold createAccount. cbn [snd].
    split; [|split; [|split]];
      cbn [State.accounts State.transactions State.accountId State.transactionId];
      try assumption; try lia.
    apply table_ok_create; [exact Ha | reflexivity | exact Hc1].
  - pose proof H as H0. destruct H as [Ha [Ht [Hc1 Hc2]]]. unfold updateAccount.
    destruct (get k (State.accounts s)) as [old|] eqn:E; cbn [snd]; [|exact H0].
    split; [|split; [|split]];
      cbn [State.accounts State.transactions State.accountId State.transactionId];
      try assumption.
    apply (table_ok_update _ _ _ _ old); [exact Ha | exact E |].
    cbn [accountKey]. apply get_In in E. apply Ha in E. tauto.
  - destruct H as [Ha [Ht [Hc1 Hc2]]]. unfold deleteAccount.
    pose proof (table_ok_delete accountKey _ _ k Ha) as Hd.
    destruct (delete k (State.accounts s)) as [b m]. cbn [snd] in *.
    split; [|split; [|split]]; assumption.
  - now apply createTransaction_consistent.
  - now apply createTransactions_loop_consistent.
  - destruct H as [Ha [Ht [Hc1 Hc2]]]. unfold deleteTransaction.
    pose proof (table_ok_delete id _ _ k Ht) as Hd.
    destruct (delete k (State.transactions s)) as [b m]. cbn [snd] in *.
    split; [|split; [|split]]; assumption.
Qed.

Lemma run_all_consistent (calls : list call) (s : State.t) :
  consistent s -> consistent (run_all calls s).
Proof.
  revert s. induction calls as [|c calls IH]; intros s H; [exact H|].
  cbn [run_all fold_left]. apply IH. now apply run_consistent.
Qed.

Lemma reachable_consistent (calls : list call) :
  consistent (run_all calls new_MemStorage).
Proof.
  apply run_all_consistent.
  split; [apply table_ok_nil | split; [apply table_ok_nil | split; simpl; lia]].
Qed.

(** *** Ids that are gone *)

Lemma createTransaction_gone (k : Z) (t : InsertTransaction) (s : State.t) :
  gone k s -> gone k (snd (createTransaction t s)).
Proof.
  intros [Hk Hget]. unfold gone, createTransaction.
  cbn [snd State.transactions State.transactionId]. split; [lia|].
  rewrite get_set_other by lia. exact Hget.
Qed.

Lemma createTransactions_loop_gone (k : Z) (ts : list InsertTransaction)
    (created : list StoredTransaction) (s : State.t) :
  gone k s -> gone k (snd (createTransactions_loop ts created s)).
Proof.
  revert created s. induction ts as [|t ts IH]; intros created s H; [exact H|].
  cbn [createTransactions_loop].
  pose proof (createTransaction_gone k t s H) as H'.
  destruct (createTransaction t s) as [new s']. apply IH. exact H'.
Qed.

Lemma run_gone (k : Z) (s : State.t) (c : call) : gone k s -> gone k (run s c).
Proof.
  intros H. destruct c as [now a|now k' u|k'|t|ts|k']; cbn [run].
  - exact H.
  - unfold updateAccount. destruct (get k' (State.accounts s)); exact H.
  - unfold deleteAccount. destruct (delete k' (State.accounts s)). exact H.
  - now apply createTransaction_gone.
  - now apply createTransactions_loop_gone.
  - destruct H as [Hk Hget]. unfold gone, deleteTransaction.
    pose proof (delete_get k' (State.transactions s)) as H1.
    pose proof (delete_get_other k' k (State.transactions s)) as H2.
    destruct (delete k' (State.transactions s)) as [b m].
    cbn [snd State.transactions State.transactionId] in *. split; [exact Hk|].
    destruct (Z.eq_dec k k') as [->|Hne]; [exact H1 | now rewrite H2].
Qed.

Lemma run_all_gone (k : Z) (calls : list call) (s : State.t) :
  gone k s -> gone k (run_all calls s).
Proof.
  revert s. induction calls as [|c calls IH]; intros s H; [exact H|].
  cbn [run_all fold_left]. apply IH. now apply run_gone.
Qed.

(** *** Sorting and filtering *)



Section Filter.
Context {A : Type} (le : A -> A -> bool) (p : A -> bool).
Hypothesis le_trans : forall x y z, le x y = true -> le y z = true -> le x z = true.



Hypothesis le_total : forall x y, le x y = true \/ le y x = true.


End Filter.

(** *** Creating in bulk *)

(** The loop of [createTransactions], step by step. *)
Lemma createTransactions_loop_spec (ts : list InsertTransaction)
    (created : list StoredTransaction) (s : State.t) :
  let result := createTransactions_loop ts created s in
  exists new,
    fst result = (created ++ new)%list
    /\ map id new = map (fun i => State.transactionId s + Z.of_nat i) (seq 0 (List.length ts))
    /\ map (fun t => fields (row t)) new = map fields ts
    /\ State.transactionId (snd result) = State.transactionId s + Z.of_nat (List.length ts)
    /\ State.accounts (snd result) = State.accounts s
    /\ State.accountId (snd result) = State.accountId s
    /\ (forall k, k < State.transactionId s ->
          get k (State.transactions (snd result)) = get k (State.transactions s))
    /\ Forall (fun t => get (id t) (State.transactions (snd result)) = Some t) new.
Proof.
  cbv zeta. revert created s. induction ts as [|t ts IH]; intros created s.
  - exists []. cbn. rewrite app_nil_r, Z.add_0_r. repeat split; auto.
  - cbn [createTransactions_loop].
    destruct (createTransaction t s) as [new s'] eqn:E.
    unfold createTransaction in E. injection E as Enew Es'.
    destruct (IH (created ++ [new])%list s')
      as [rest [H1 [H2 [H3 [H4 [H5 [H6 [H7 H8]]]]]]]].
    assert (Hid : State.transactionId s' = State.transactionId s + 1)
      by (rewrite <- Es'; reflexivity).
    exists (new :: rest). split; [now rewrite H1, <- app_assoc|].
    split.
    { cbn [map List.length seq]. rewrite H2, Hid, <- Enew. cbn [id].
      rewrite Z.add_0_r. f_equal. rewrite <- seq_shift, map_map.
      apply map_ext. intros i. lia. }
    split; [cbn [map]; rewrite H3, <- Enew; reflexivity|].
    split; [rewrite H4, Hid; cbn [List.length]; lia|].
    split; [rewrite H5, <- Es'; reflexivity|].
    split; [rewrite H6, <- Es'; reflexivity|].
    split.
    { intros k Hk. rewrite H7 by lia. rewrite <- Es'. cbn [State.transactions].
      apply get_set_other. lia. }
    constructor; [|exact H8].
    rewrite H7 by (rewrite Hid, <- Enew; cbn [id]; lia).
    rewrite <- Es', <- Enew. cbn [State.transactions id]. apply get_set_same.
Qed.

End StorageFacts.

Import JsMap MemStorage StorageSpec MapFacts StorageFacts.

(** X14.  In every state that calls to a new storage lead to, the
    transactions in the table have ids that differ from one another,
    that are at least 1 and below the counter of the table, and each is
    found under its own id; the accounts likewise have keys that differ
    and each is found under its own key. *)
Theorem storage_ids (calls : list call) :
  let s := run_all calls new_MemStorage in
  NoDup (map id (getTransactions None s))
  /\ (forall t, In t (getTransactions None s) <-> getTransaction (id t) s = Some t)
  /\ (forall t, In t (getTransactions None s) ->
        (1 <= id t < State.transactionId s)%Z)
  /\ NoDup (map accountKey (getAccounts s))
  /\ (forall a, In a (getAccounts s) <-> getAccount (accountKey a) s = Some a).
Proof.
  cbv zeta. pose proof (reachable_consistent calls) as [Ha [Ht _]].
  set (s := run_all calls new_MemStorage) in *.
  unfold getTransactions, getTransaction, getAccounts, getAccount.
  assert (Hvals : forall V (key : V -> Z) (m : Map V) next,
             table_ok key m next ->
             forall v, In v (values m) <-> get (key v) m = Some v).
  { intros V key m next Hok v. destruct Hok as [Hnd H]. unfold values. split.
    - intros Hin. apply in_map_iff in Hin. destruct Hin as [[k v'] [E Hin]].
      simpl in E. subst v'. destruct (H k v Hin) as [-> _]. now apply In_get.
    - intros Hg. apply get_In in Hg. apply in_map_iff. exists (key v, v). auto. }
  split.
  { eapply Permutation_NoDup.
    - apply Permutation_map. symmetry. apply SortFacts.sort_perm.
    - rewrite (table_ok_keys _ _ _ Ht). apply Ht. }
  split.
  { intros t. rewrite SortFacts.sort_in. apply (Hvals _ _ _ _ Ht). }
  split.
  { intros t Hin. apply SortFacts.sort_in in Hin. apply (Hvals _ _ _ _ Ht) in Hin.
    apply get_In in Hin. apply Ht in Hin. tauto. }
  split.
  { rewrite (table_ok_keys _ _ _ Ha). apply Ha. }
  intros a. apply (Hvals _ _ _ _ Ha).
Qed.

(** X15.  [createTransaction], in any state that calls to a new storage
    lead to, gives the transaction the id of the counter, which no
    transaction has, and moves the counter by one.  The transaction is
    then found under that id, every other id finds what it found before,
    and the accounts are as before.  The created transaction has the six
    fields that it was given; of the Plaid fields an empty string and
    [false] are stored as null. *)
Theorem createTransaction_round_trip (calls : list call) (t : InsertTransaction) :
  let s := run_all calls new_MemStorage in
  let created := fst (createTransaction t s) in
  let s' := snd (createTransaction t s) in
  id created = State.transactionId s
  /\ fields (row created) = fields t
  /\ getTransaction (id created) s = None
  /\ getTransaction (id created) s' = Some created
  /\ (forall k, k <> id created -> getTransaction k s' = getTransaction k s)
  /\ State.transactionId s' = (State.transactionId s + 1)%Z
  /\ getAccounts s' = getAccounts s
  /\ plaidTransactionId (row created) <> Some EmptyString
  /\ pending (row created) <> Some false
  /\ isPlaidTransaction (row created) <> Some false.
Proof.
  cbv zeta. pose proof (reachable_consistent calls) as [_ [Ht _]].
  set (s := run_all calls new_MemStorage) in *.
  unfold createTransaction, getTransaction, getAccounts.
  cbn [fst snd id row fields State.transactions State.transactionId State.accounts
       plaidTransactionId pending isPlaidTransaction].
  split; [reflexivity|]. split; [reflexivity|].
  split; [apply (table_ok_fresh _ _ _ Ht); lia|].
  split; [apply get_set_same|].
  split; [intros k Hk; now apply get_set_other|].
  split; [reflexivity|]. split; [reflexivity|].
  split; [destruct (plaidTransactionId t) as [[|c r]|]; discriminate|].
  split; [destruct (pending t) as [[]|]; discriminate|].
  destruct (isPlaidTransaction t) as [[]|]; discriminate.
Qed.

(** X16.  [createTransactions], run without another call between its
    steps, gives the transactions the ids from the counter on, one after
    the other, in the order in which they were given, and returns them
    in that order with the fields they were given.  None of the ids was
    in the table before, each created transaction is found under its id
    afterwards, and the ids below the counter find what they found
    before. *)
Theorem createTransactions_consecutive (calls : list call) (ts : list InsertTransaction) :
  let s := run_all calls new_MemStorage in
  let created := fst (createTransactions ts s) in
  let s' := snd (createTransactions ts s) in
  map id created
  = map (fun i => (State.transactionId s + Z.of_nat i)%Z) (seq 0 (List.length ts))
  /\ map (fun t => fields (row t)) created = map fields ts
  /\ Forall (fun t => getTransaction (id t) s' = Some t) created
  /\ (forall k, (k < State.transactionId s)%Z ->
        getTransaction k s' = getTransaction k s)
  /\ State.transactionId s' = (State.transactionId s + Z.of_nat (List.length ts))%Z
  /\ Forall (fun t => getTransaction (id t) s = None) created.
Proof.
  cbv zeta. pose proof (reachable_consistent calls) as [_ [Ht _]].
  set (s := run_all calls new_MemStorage) in *.
  unfold createTransactions, getTransaction.
  destruct (createTransactions_loop_spec ts [] s)
    as [new [H1 [H2 [H3 [H4 [H5 [H6 [H7 H8]]]]]]]].
  cbn [app] in H1. rewrite H1.
  split; [exact H2|]. split; [exact H3|]. split; [exact H8|].
  split; [exact H7|]. split; [exact H4|].
  apply Forall_forall. intros t Hin. apply (table_ok_fresh _ _ _ Ht).
  apply (in_map id) in Hin. rewrite H2 in Hin. apply in_map_iff in Hin.
  destruct Hin as [i [<- _]]. lia.
Qed.


(** X17.  [deleteTransaction] returns true exactly when the id found a
    transaction.  Afterwards the id finds nothing and every other id
    finds what it found before.  The counter does not move back: when a
    transaction was deleted, its id finds nothing after any further
    calls, so no transaction created later takes the id of a deleted
    one. *)
Theorem deleteTransaction_for_good (calls later : list call) (k : Z) :
  let s := run_all calls new_MemStorage in
  let deleted := fst (deleteTransaction k s) in
  let s' := snd (deleteTransaction k s) in
  (deleted = true <-> getTransaction k s <> None)
  /\ getTransaction k s' = None
  /\ (forall k', k' <> k -> getTransaction k' s' = getTransaction k' s)
  /\ State.transactionId s' = State.transactionId s
  /\ (deleted = true -> getTransaction k (run_all later s') = None).
Proof.
  cbv zeta. pose proof (reachable_consistent calls) as [_ [Ht _]].
  set (s := run_all calls new_MemStorage) in *.
  unfold deleteTransaction, getTransaction.
  pose proof (delete_fst k (State.transactions s)) as H1.
  pose proof (delete_get k (State.transactions s)) as H2.
  pose proof (fun k' => delete_get_other k k' (State.transactions s)) as H3.
  destruct (delete k (State.transactions s)) as [b m] eqn:E.
  cbn [fst snd State.transactions State.transactionId] in *.
  split; [exact H1|]. split; [exact H2|]. split; [exact H3|]. split; [reflexivity|].
  intros Hb. apply H1 in Hb.
  destruct (get k (State.transactions s)) as [v|] eqn:Eg; [|congruence].
  apply get_In in Eg. apply Ht in Eg.
  apply (run_all_gone k later). split; [cbn; lia | exact H2].
Qed.



